(** * logcompress: a shallow embedding of [logcompressor/logcompress.py]

    The development follows the Python module top to bottom: the [Token]
    allocator, the punctuation/digit encoder, [split_trailer] and
    [clean_encoding], the [PhraseNode] adjacency registry and the
    [RegExCompressor] methods ([gen_regex], [apply_one], [apply_regexes],
    [map_nodes], [press_mainloop], [press], [compress], [cat_lines]).

    Text is a list of characters ([list ascii], code points 0..255).  The
    regular expressions of the module are fixed patterns; each one is
    embedded as the scanning function that Python's [re] computes for it. *)

From Stdlib Require Import Ascii String.
From Stdlib Require Import List ZArith Lia Arith Bool.
Import ListNotations.

Local Open Scope nat_scope.

(** ** Text *)

Definition text := list ascii.

Definition txt (x : string) : text := list_ascii_of_string x.

Definition text_eqb (a b : text) : bool :=
  if list_eq_dec ascii_dec a b then true else false.

(** [l[i] = x] for an index already known to be in range. *)
Definition set_nth {A : Type} (n : nat) (x : A) (l : list A) : list A :=
  firstn n l ++ x :: skipn (S n) l.

(** Python's list indexing: [0 <= i < len] counts from the front,
    [-len <= i < 0] from the back, anything else raises IndexError. *)
Definition py_index (len : nat) (i : Z) : option nat :=
  if ((0 <=? i) && (i <? Z.of_nat len))%Z then Some (Z.to_nat i)
  else if ((- Z.of_nat len <=? i) && (i <? 0))%Z
       then Some (Z.to_nat (Z.of_nat len + i))
       else None.

(** ** class Token *)

Module Token.

(** [chars = ''.join((string.digits, string.ascii_letters))] *)
Definition chars : text :=
  txt "0123456789abcdefghijklmnopqrstuvwxyzABCDEFGHIJKLMNOPQRSTUVWXYZ".

(** [self.generators] holds one generator [(char for char in Token.chars)]
    per digit; a generator is the number of characters it has yielded. *)
Record t : Type := mk { generators : list nat; digits : text }.

Definition get_gen : nat := 0.

(** [next(gen)]: [None] is StopIteration. *)
Definition gen_next (g : nat) : option (ascii * nat) :=
  match nth_error chars g with
  | Some c => Some (c, S g)
  | None => None
  end.

(** [__init__]: [generators = [get_gen()]], [digits = [next(generators[0])]]. *)
Definition init : t := mk [1] (txt "0").

(** The [token] property. *)
Definition token (tk : t) : text := txt "<" ++ digits tk ++ txt ">".

(** The [while index > 0 - len(self.digits)] loop of [__next__].  The outer
    [None] is an exception escaping the method (IndexError, or StopIteration
    out of the handler) or exhausted fuel; [__next__] passes enough fuel. *)
Fixpoint next_loop (fuel : nat) (index : Z) (tk : t) : option t :=
  if negb (0 - Z.of_nat (length (digits tk)) <? index)%Z then Some tk
  else
    match fuel with
    | O => None
    | S fuel' =>
      match py_index (length (generators tk)) index with
      | None => None
      | Some gi =>
        match nth_error (generators tk) gi with
        | None => None
        | Some g =>
          match gen_next g with
          | Some (c, g') =>
            (* self.digits[index] = next(self.generators[index]); break *)
            match py_index (length (digits tk)) index with
            | None => None
            | Some di =>
              Some (mk (set_nth gi g' (generators tk))
                       (set_nth di c (digits tk)))
            end
          | None =>
            (* except StopIteration *)
            match gen_next get_gen with
            | None => None
            | Some (c, g') =>
              match py_index (length (digits tk)) index with
              | None => None
              | Some di =>
                let gens := set_nth gi g' (generators tk) in
                let digs := set_nth di c (digits tk) in
                let index' := (index - 1)%Z in
                if (index' =? -1 * Z.of_nat (length digs))%Z then
                  (* a new generator and a new digit are appended; break *)
                  Some (mk (gens ++ [g']) (digs ++ [c]))
                else next_loop fuel' index' (mk gens digs)
              end
            end
          end
        end
      end
    end.

(** [__next__]: returns the new token text and the updated allocator. *)
Definition next (tk : t) : option (text * t) :=
  match next_loop (length (digits tk)) 0%Z tk with
  | Some tk' => Some (token tk', tk')
  | None => None
  end.

(** Reading the [token] property: the text, and the allocator untouched. *)
Definition current (tk : t) : text * t := (token tk, tk).

(** [k] readings of the property in a row, oldest first. *)
Fixpoint currents (k : nat) (tk : t) : list text * t :=
  match k with
  | O => ([], tk)
  | S k' =>
    let '(s, tk1) := current tk in
    let '(rest, tk2) := currents k' tk1 in
    (s :: rest, tk2)
  end.

(** The allocator after [n] calls of [__next__] on a fresh one. *)
Fixpoint after (n : nat) : option t :=
  match n with
  | O => Some init
  | S n' =>
    match after n' with
    | Some tk => option_map snd (next tk)
    | None => None
    end
  end.

(** The texts returned by the first [n] calls, oldest first. *)
Fixpoint issued (n : nat) : list text :=
  match n with
  | O => []
  | S n' =>
    issued n' ++
    match after n' with
    | Some tk => match next tk with Some (s, _) => [s] | None => [] end
    | None => []
    end
  end.

End Token.


(** ** Character classes

    Characters are code points below 256.  [str.isspace] holds of the
    ASCII controls 9..13 and 28..31, of the space, and of U+0085 and U+00A0;
    [\d] holds of the ten ASCII digits only in this range. *)

Definition code (c : ascii) : nat := nat_of_ascii c.

Definition is_space (c : ascii) : bool :=
  let n := code c in
  ((9 <=? n) && (n <=? 13)) || ((28 <=? n) && (n <=? 32))
  || (n =? 133) || (n =? 160).

Definition is_digit (c : ascii) : bool :=
  let n := code c in (48 <=? n) && (n <=? 57).

Definition is_ascii_letter (c : ascii) : bool :=
  let n := code c in
  ((65 <=? n) && (n <=? 90)) || ((97 <=? n) && (n <=? 122)).

Definition mem_ascii (c : ascii) (l : text) : bool :=
  existsb (Ascii.eqb c) l.

Definition newline : ascii := "010"%char.
Definition space : ascii := " "%char.
Definition backslash : ascii := "\"%char.

Definition double_quote : ascii := ascii_of_nat 34.

(** The set of [encode_punct_and_digits]: the digits, the vertical bar, the
    exclamation mark, the double quote and the characters listed below.  The
    backslash of the source escapes the closing bracket, so the hyphen, the
    underscore and the backslash itself are not members. *)
Definition punct_members : text :=
  "|"%char :: "!"%char :: double_quote :: txt "#$%&'()*+,./:;<=>?@[]^`{}~".

Definition in_class (c : ascii) : bool :=
  is_digit c || mem_ascii c punct_members.

(** ** Python string methods *)

Fixpoint lstrip (s : text) : text :=
  match s with
  | [] => []
  | c :: s' => if is_space c then lstrip s' else s
  end.

Definition rstrip (s : text) : text := rev (lstrip (rev s)).

Definition strip (s : text) : text := rstrip (lstrip s).

(** [sep.join(items)] *)
Fixpoint join (sep : text) (items : list text) : text :=
  match items with
  | [] => []
  | [x] => x
  | x :: rest => x ++ sep ++ join sep rest
  end.

(** [s.split()]: the maximal runs of non-whitespace characters; [cur] is the
    run being read. *)
Fixpoint split_from (cur : text) (s : text) : list text :=
  match s with
  | [] => match cur with [] => [] | _ => [cur] end
  | c :: s' =>
    if is_space c
    then match cur with [] => split_from [] s' | _ => cur :: split_from [] s' end
    else split_from (cur ++ [c]) s'
  end.

Definition split (s : text) : list text := split_from [] s.

Fixpoint starts_with (p s : text) : bool :=
  match p, s with
  | [], _ => true
  | a :: p', b :: s' => Ascii.eqb a b && starts_with p' s'
  | _ :: _, [] => false
  end.

(** [needle in s] *)
Fixpoint contains (needle s : text) : bool :=
  starts_with needle s ||
  match s with
  | [] => false
  | _ :: s' => contains needle s'
  end.

Definition count_space (s : text) : nat :=
  count_occ ascii_dec s space.

(** ** The regular expressions of the module

    Every pattern of the module is matched left to right without overlap.
    A matcher looks at the text from one position on and, when the pattern
    matches there, returns the length of the match and its payload.  [scan]
    cuts a text into the characters outside matches and the matches, the way
    [re.sub], [re.subn] and [re.findall] walk a string; [skip] counts the
    characters of the current match still to pass. *)

Inductive piece (X : Type) : Type :=
| Char (c : ascii)
| Match (matched : text) (payload : X).

Arguments Char {X} c.
Arguments Match {X} matched payload.

Definition matcher (X : Type) : Type := text -> option (nat * X).

Fixpoint scan {X : Type} (m : matcher X) (skip : nat) (s : text)
  : list (piece X) :=
  match s with
  | [] => []
  | c :: s' =>
    match skip with
    | S k => scan m k s'
    | O =>
      match m s with
      | Some (S n, x) => Match (firstn (S n) s) x :: scan m n s'
      | _ => Char c :: scan m 0 s'
      end
    end
  end.

Definition render {X : Type} (repl : X -> text) (p : piece X) : text :=
  match p with
  | Char c => [c]
  | Match _ x => repl x
  end.

Definition source {X : Type} (p : piece X) : text :=
  match p with
  | Char c => [c]
  | Match m _ => m
  end.

Definition is_match {X : Type} (p : piece X) : bool :=
  match p with
  | Char _ => false
  | Match _ _ => true
  end.

(** [re.sub(pattern, repl, s)] *)
Definition re_sub {X : Type} (m : matcher X) (repl : X -> text) (s : text)
  : text :=
  concat (map (render repl) (scan m 0 s)).

(** The number of substitutions [re.subn] reports. *)
Definition re_count {X : Type} (m : matcher X) (s : text) : nat :=
  length (filter is_match (scan m 0 s)).

(** [re.findall(pattern, s)] for a pattern with one group. *)
Definition re_findall (m : matcher text) (s : text) : list text :=
  flat_map (fun p => match p with Char _ => [] | Match _ g => [g] end)
           (scan m 0 s).

(** [re.search(pattern, s)]: the payload of the leftmost match. *)
Fixpoint re_search {X : Type} (m : matcher X) (s : text) : option X :=
  match m s with
  | Some (_, x) => Some x
  | None =>
    match s with
    | [] => None
    | _ :: s' => re_search m s'
    end
  end.

(** [[class]+]: the maximal run of class characters at the head. *)
Fixpoint class_run (s : text) : text :=
  match s with
  | c :: s' => if in_class c then c :: class_run s' else []
  | [] => []
  end.

Definition m_class : matcher text :=
  fun s => match class_run s with
           | [] => None
           | r => Some (length r, r)
           end.

Definition marker : text := txt "_$_".

(** [(.*?)_\$_] after an opening marker: the shortest run of characters
    other than the newline that is followed by a marker. *)
Fixpoint lazy_group (s : text) : option text :=
  if starts_with marker s then Some []
  else
    match s with
    | [] => None
    | c :: s' =>
      if Ascii.eqb c newline then None
      else option_map (cons c) (lazy_group s')
    end.

(** The pattern of [re.findall] in [split_trailer] and of the first
    [re.sub] in [clean_encoding]: a marker, a lazy group, a marker. *)
Definition m_marked : matcher text :=
  fun s =>
    if starts_with marker s then
      match lazy_group (skipn 3 s) with
      | Some g => Some (3 + length g + 3, g)
      | None => None
      end
    else None.

(** [$] without MULTILINE holds at the end of the string and just before a
    newline that ends the string. *)
Definition at_dollar (s : text) : bool :=
  match s with
  | [] => true
  | [c] => Ascii.eqb c newline
  | _ => false
  end.

(** The greedy group and closing brace of the trailer pattern: the longest
    run of characters other than the newline that is followed by a closing
    brace at [$]. *)
Fixpoint greedy_group (s : text) : option text :=
  match s with
  | [] => None
  | c :: s' =>
    match (if Ascii.eqb c newline then None else greedy_group s') with
    | Some g => Some (c :: g)
    | None => if Ascii.eqb c "}"%char && at_dollar s' then Some [] else None
    end
  end.

(** The pattern of [re.search] in [split_trailer] and of the second
    [re.sub] in [clean_encoding]: a space, an opening brace, a greedy group
    (the payload), a closing brace, [$]. *)
Definition m_trailer : matcher text :=
  fun s =>
    if starts_with (txt " {") s then
      match greedy_group (skipn 2 s) with
      | Some g => Some (2 + length g + 1, g)
      | None => None
      end
    else None.

(** ** encode_punct_and_digits and clean_encoding *)

(** [re.sub] of one or more class characters, each run wrapped in a pair
    of markers. *)
Definition encode_punct_and_digits (line : text) : text :=
  re_sub m_class (fun run => marker ++ run ++ marker) line.

Definition clean_encoding (line : text) : text :=
  match line with
  | [] => []
  | _ =>
    let line := re_sub m_marked (fun _ => txt "#") line in
    let line := re_sub m_trailer (fun _ => []) line in
    line
  end.

(** ** Outcomes of effectful code *)

Inductive exn : Type :=
| re_error      (* re.error: the pattern does not compile *)
| KeyError
| TypeError
| TokenError.   (* an exception escaping [Token.__next__] *)

Inductive outcome (A : Type) : Type :=
| Ok (a : A)
| Raised (e : exn)
| Unsupported   (* a pattern or template outside the embedded part of [re] *)
| OutOfFuel.    (* the [while] loop of [press] is still running *)

Arguments Ok {A} a.
Arguments Raised {A} e.
Arguments Unsupported {A}.
Arguments OutOfFuel {A}.

Definition bind {A B : Type} (x : outcome A) (f : A -> outcome B) : outcome B :=
  match x with
  | Ok a => f a
  | Raised e => Raised e
  | Unsupported => Unsupported
  | OutOfFuel => OutOfFuel
  end.

Notation "x <- c1 ;; c2" := (bind c1 (fun x => c2))
  (at level 61, c1 at next level, right associativity).
Notation "' pat <- c1 ;; c2" := (bind c1 (fun x => match x with pat => c2 end))
  (at level 61, pat pattern, c1 at next level, right associativity).

(** ** Rule patterns

    A rule's pattern is its phrase, handed to [re.subn] without escaping.
    The embedding covers the patterns that denote a literal text: ordinary
    characters stand for themselves and a backslash before a character that
    is no ASCII letter or digit stands for that character.  A pattern that
    ends in a lone backslash does not compile ([re.error], bad escape at the
    end of the pattern).  Escapes of letters and digits and the operators of
    the regular-expression syntax are outside the embedded part. *)

Inductive compiled : Type :=
| Literal (l : text)
| BadEscape
| NotEmbedded.

Definition is_meta (c : ascii) : bool := mem_ascii c (txt ".^$*+?{}[]|()").

Definition cons_literal (c : ascii) (r : compiled) : compiled :=
  match r with
  | Literal l => Literal (c :: l)
  | other => other
  end.

Fixpoint re_compile (p : text) : compiled :=
  match p with
  | [] => Literal []
  | c :: rest =>
    if Ascii.eqb c backslash then
      match rest with
      | [] => BadEscape
      | d :: rest' =>
        if is_digit d || is_ascii_letter d then NotEmbedded
        else cons_literal d (re_compile rest')
      end
    else if is_meta c then NotEmbedded
    else cons_literal c (re_compile rest)
  end.

Definition m_literal (l : text) : matcher unit :=
  fun s => if starts_with l s then Some (length l, tt) else None.

(** [re.subn(pattern, repl, line)] for a rule pattern and a replacement
    template; a template with a backslash is outside the embedded part, and
    so is the empty pattern. *)
Definition re_subn (pattern repl line : text) : outcome (text * nat) :=
  match re_compile pattern with
  | BadEscape => Raised re_error
  | NotEmbedded => Unsupported
  | Literal [] => Unsupported
  | Literal l =>
    if mem_ascii backslash repl then Unsupported
    else Ok (re_sub (m_literal l) (fun _ => repl) line,
             re_count (m_literal l) line)
  end.

(** ** class PhraseNode

    [PhraseNode.phrases] maps a word to its node; a node keeps its word, the
    dict [parents] (predecessor word to count) and the [nd_] attributes, one
    per successor word. *)

Module PhraseNode.

Record node : Type := mk_node {
  _root : text;
  parents : list (text * nat);
  nd : list text
}.

Definition registry : Type := list (text * node).

(** Dicts keep insertion order: [d[k]], [k in d] and [d[k] = v]. *)
Fixpoint get {V : Type} (k : text) (d : list (text * V)) : option V :=
  match d with
  | [] => None
  | (k', v) :: d' => if text_eqb k k' then Some v else get k d'
  end.

Definition has {V : Type} (k : text) (d : list (text * V)) : bool :=
  match get k d with Some _ => true | None => false end.

Fixpoint set {V : Type} (k : text) (v : V) (d : list (text * V))
  : list (text * V) :=
  match d with
  | [] => [(k, v)]
  | (k', v') :: d' =>
    if text_eqb k k' then (k, v) :: d' else (k', v') :: set k v d'
  end.

(** [PhraseNode(rootword)]: registers a node on first sight. *)
Definition intern (rootword : text) (phrases : registry) : registry :=
  if has rootword phrases then phrases
  else set rootword (mk_node rootword [] []) phrases.

(** [self.add_node(node)] for the nodes registered under the keys [self]
    and [node]; returns the count of [self] among the parents of [node]. *)
Definition add_node (self node : text) (phrases : registry)
  : outcome (nat * registry) :=
  match get self phrases, get node phrases with
  | Some s, Some n =>
    let phrases1 :=
      if existsb (text_eqb (_root n)) (nd s) then phrases
      else set self (mk_node (_root s) (parents s) (nd s ++ [_root n])) phrases in
    match get node phrases1 with
    | Some n1 =>
      let count :=
        match get (_root s) (parents n1) with
        | Some c => c + 1
        | None => 1
        end in
      Ok (count,
          set node (mk_node (_root n1) (set (_root s) count (parents n1)) (nd n1))
              phrases1)
    | None => Raised KeyError
    end
  | _, _ => Raised KeyError
  end.

(** The count recorded for [pred] followed by [succ], 0 when absent. *)
Definition edge_count (pred succ : text) (phrases : registry) : nat :=
  match get succ phrases with
  | Some n => match get pred (parents n) with Some c => c | None => 0 end
  | None => 0
  end.

End PhraseNode.

(** ** RegExTuple *)

Module RegExTuple.

Record t : Type := mk { replaces : text; regex : text; token : text }.

End RegExTuple.

(** ** class RegExCompressor *)

Definition CHUNK_SIZE : nat := 25.

Module RegExCompressor.

Import PhraseNode.

(** The object state, together with the class attribute
    [PhraseNode.phrases] that its methods update. *)
Record t : Type := mk {
  phrases : registry;
  _expressions : list (text * RegExTuple.t);
  token : Token.t;
  compressed_output : option (list text)
}.

(** The word of [self.root]. *)
Definition root : text := [newline].

Definition init : t := mk (intern root []) [] Token.init None.

Definition with_phrases (self : t) (ph : registry) : t :=
  mk ph (_expressions self) (token self) (compressed_output self).

Definition with_output (self : t) (out : list text) : t :=
  mk (phrases self) (_expressions self) (token self) (Some out).

(** A catch-up entry: the new rule and the index of the line that made it. *)
Definition todo_list : Type := list (RegExTuple.t * nat).

Definition split_trailer (line : text) : text * text :=
  let trailer :=
    match re_search m_trailer (rstrip line) with
    | Some g => g
    | None => []
    end in
  let items := re_findall m_marked line in
  let newtraileritems := join (txt " ") items in
  let trailer :=
    match trailer, newtraileritems with
    | [], [] => trailer
    | _, _ => txt " {" ++ strip (trailer ++ txt " " ++ newtraileritems) ++ txt "}"
    end in
  (rstrip (clean_encoding line), trailer).

(** [gen_regex]: [None] in the result is the method's implicit return. *)
Definition gen_regex (self : t) (node1 node2 : text)
  : outcome (option RegExTuple.t * t) :=
  let replaces := node1 ++ txt " " ++ node2 in
  if has replaces (_expressions self) then Ok (None, self)
  else
    let regex := replaces in
    match Token.next (token self) with
    | None => Raised TokenError
    | Some (token, tk) =>
      let rule := RegExTuple.mk replaces regex token in
      Ok (Some rule,
          mk (phrases self) (set replaces rule (_expressions self)) tk
             (compressed_output self))
    end.

Definition apply_one (line : text) (regex : RegExTuple.t)
  : outcome (text * nat) :=
  re_subn (RegExTuple.regex regex) (RegExTuple.token regex) line.

(** The loop of [apply_regexes] over the items of the rule table. *)
Fixpoint apply_rules (rules : list (text * RegExTuple.t)) (line : text)
  (changes : nat) : outcome (text * nat) :=
  match rules with
  | [] => Ok (line, changes)
  | (_, regex) :: rest =>
    '(line', cdelta) <- apply_one line regex ;;
    apply_rules rest line' (changes + cdelta)
  end.

Definition apply_regexes (self : t) (line : text) : outcome (text * nat) :=
  apply_rules (_expressions self) line 0.

(** The loop of [map_nodes] over the words of the line.  [lastnode] is the
    word of the last node and [at_root] tells whether it is the object
    [self.root] itself, which [lastnode != self.root] compares by identity. *)
Fixpoint map_words (self : t) (lastnode : text) (at_root : bool)
  (words : list text) (index : nat) (todo : todo_list)
  : outcome (t * todo_list) :=
  match words with
  | [] => Ok (self, todo)
  | word :: rest =>
    match word with
    | [] => map_words self lastnode at_root rest index todo
    | _ =>
      '(count, ph) <- add_node lastnode word (intern word (phrases self)) ;;
      let self1 := with_phrases self ph in
      if (5 <=? count) && negb at_root then
        '(new_reg, self2) <- gen_regex self1 lastnode word ;;
        match new_reg with
        | Some r => map_words self2 word false rest index (todo ++ [(r, index)])
        | None => map_words self2 word false rest index todo
        end
      else map_words self1 word false rest index todo
    end
  end.

Definition map_nodes (self : t) (line : text) (index : nat) (todo : todo_list)
  : outcome (t * todo_list) :=
  map_words self root true (split line) index todo.

Definition encode (chunk : list text) : list text :=
  map encode_punct_and_digits chunk.

(** The first loop of [press_mainloop]: [chunk[index]] receives the result
    of [apply_regexes]; the local [line] stays the body that [split_trailer]
    returned and is what [map_nodes] receives; the final [line + trailer] is
    bound to the local only. *)
Fixpoint first_pass (self : t) (index : nat) (chunk : list text)
  (changes : nat) (todo : todo_list)
  : outcome (t * list text * nat * todo_list) :=
  match chunk with
  | [] => Ok (self, [], changes, todo)
  | line0 :: rest =>
    let '(line, trailer) := split_trailer line0 in
    '(new_line, changes_delta) <- apply_regexes self line ;;
    '(self1, todo1) <- map_nodes self line index todo ;;
    '(self2, rest', changes', todo') <-
       first_pass self1 (S index) rest (changes + changes_delta) todo1 ;;
    Ok (self2, new_line :: rest', changes', todo')
  end.

(** The inner loop of the catch-up over [enumerate(todo_list)] for one
    line.  [pos] is the position of the list iterator, [line] the text bound
    by the outer loop, [cur] the value of [chunk[index]].  [n] bounds the
    remaining iterations; the list never grows, so its length is enough. *)
Fixpoint todo_loop (n pos : nat) (todo : todo_list) (line cur : text)
  (changes : nat) : outcome (text * nat * todo_list) :=
  match n with
  | O => Ok (cur, changes, todo)
  | S n' =>
    match nth_error todo pos with
    | None => Ok (cur, changes, todo)
    | Some (regex, stopline) =>
      '(new_line, changes_delta) <- apply_one line regex ;;
      let todo' :=
        if (pos =? stopline) && negb (pos =? length todo - 1)
        then set_nth pos (last todo (regex, stopline)) (removelast todo)
        else todo in
      todo_loop n' (S pos) todo' line new_line (changes + changes_delta)
    end
  end.

(** The second loop of [press_mainloop]. *)
Fixpoint catch_up (chunk : list text) (changes : nat) (todo : todo_list)
  : outcome (list text * nat) :=
  match chunk with
  | [] => Ok ([], changes)
  | line :: rest =>
    '(cur, changes1, todo1) <- todo_loop (length todo) 0 todo line line changes ;;
    '(rest', changes2) <- catch_up rest changes1 todo1 ;;
    Ok (cur :: rest', changes2)
  end.

Definition press_mainloop (self : t) (chunk : list text)
  : outcome (nat * t * list text) :=
  '(self1, chunk1, changes1, todo) <- first_pass self 0 chunk 0 [] ;;
  '(chunk2, changes2) <- catch_up chunk1 changes1 todo ;;
  Ok (changes2, self1, chunk2).

(** [while changes: changes = self.press_mainloop(chunk)] *)
Fixpoint press_loop (fuel : nat) (self : t) (chunk : list text)
  : outcome (t * list text) :=
  match fuel with
  | O => OutOfFuel
  | S fuel' =>
    '(changes, self1, chunk1) <- press_mainloop self chunk ;;
    if changes =? 0 then Ok (self1, chunk1)
    else press_loop fuel' self1 chunk1
  end.

Definition press (fuel : nat) (self : t) (chunk : list text)
  : outcome (t * list text) :=
  press_loop fuel self (encode chunk).

(** The loop of [compress] over the lines that [readline] returns; the
    empty text is what [readline] returns at the end of the file. *)
Fixpoint compress_loop (fuel : nat) (self : t) (lines : list text)
  (chunk : list text) (line_counter : nat) (out : list text)
  : outcome (t * list text) :=
  match lines with
  | [] => Ok (self, out)
  | line :: rest =>
    match line with
    | [] => Ok (self, out)
    | _ =>
      let line_counter := line_counter + 1 in
      let chunk := chunk ++ [line] in
      if CHUNK_SIZE <=? line_counter then
        '(self1, pressed) <- press fuel self chunk ;;
        compress_loop fuel self1 rest [] 0 (out ++ pressed)
      else compress_loop fuel self rest chunk line_counter out
    end
  end.

(** [compress] on the lines of the file; [fuel] bounds the passes of each
    [press]. *)
Definition compress (fuel : nat) (self : t) (lines : list text)
  : outcome (list text * t) :=
  '(self1, out) <- compress_loop fuel self lines [] 0 [] ;;
  Ok (out, with_output self1 out).

Definition EXPRESSIONS : text :=
  [newline] ++ txt "## EXPRESSIONS ##" ++ [newline].

(** The lines that [cat_lines] yields before the marker. *)
Fixpoint cat_body (self : t) (lines : list text) : outcome (list text) :=
  match lines with
  | [] => Ok []
  | line0 :: rest =>
    let '(line, trailer) := split_trailer line0 in
    '(line1, _) <- apply_regexes self line ;;
    rest' <- cat_body self rest ;;
    Ok ((rstrip line1 ++ trailer) :: rest')
  end.

(** Everything [cat_lines] yields. *)
Definition cat_lines (self : t) : outcome (list text) :=
  match compressed_output self with
  | None => Raised TypeError
  | Some lines =>
    body <- cat_body self lines ;;
    Ok (body ++ [EXPRESSIONS; join (txt ", ") (map fst (_expressions self))])
  end.

End RegExCompressor.

(** ** Vocabulary of the statements *)

(** [self'] holds the rules of [self], in the same order, followed by new
    ones. *)
Definition extends (self self' : RegExCompressor.t) : Prop :=
  exists new,
    RegExCompressor._expressions self'
    = RegExCompressor._expressions self ++ new.

(** The body of a window line: what [split_trailer] returns first. *)
Definition body (line : text) : text := fst (RegExCompressor.split_trailer line).

(** [map_nodes] over a list of bodies, the first at line [index]. *)
Fixpoint walk_bodies (self : RegExCompressor.t) (index : nat)
  (bodies : list text) (todo : RegExCompressor.todo_list)
  : outcome (RegExCompressor.t * RegExCompressor.todo_list) :=
  match bodies with
  | [] => Ok (self, todo)
  | b :: rest =>
    '(self1, todo1) <- RegExCompressor.map_nodes self b index todo ;;
    walk_bodies self1 (S index) rest todo1
  end.

(** The first loop of the pass as the specification words it: the walk of
    a line receives the body as it stands after [apply_all]. *)
Fixpoint first_pass_walking_applied (self : RegExCompressor.t) (index : nat)
  (chunk : list text) (changes : nat) (todo : RegExCompressor.todo_list)
  : outcome (RegExCompressor.t * list text * nat * RegExCompressor.todo_list) :=
  match chunk with
  | [] => Ok (self, [], changes, todo)
  | line0 :: rest =>
    let '(line, trailer) := RegExCompressor.split_trailer line0 in
    '(new_line, changes_delta) <- RegExCompressor.apply_regexes self line ;;
    '(self1, todo1) <- RegExCompressor.map_nodes self new_line index todo ;;
    '(self2, rest', changes', todo') <-
       first_pass_walking_applied self1 (S index) rest
         (changes + changes_delta) todo1 ;;
    Ok (self2, new_line :: rest', changes', todo')
  end.

(** The registry after the first loop, as the code has it and as the
    specification words it. *)
Definition registry_after
  (pass : RegExCompressor.t -> nat -> list text -> nat ->
          RegExCompressor.todo_list ->
          outcome (RegExCompressor.t * list text * nat * RegExCompressor.todo_list))
  (chunk : list text) : option PhraseNode.registry :=
  match pass RegExCompressor.init 0 chunk 0 [] with
  | Ok (self, _, _, _) => Some (RegExCompressor.phrases self)
  | _ => None
  end.

(** *** The counter of the specification

    Digits are positions in the alphabet.  A counter is the list of its
    digits, least significant first.  [counter_carry] advances the first
    digit and, when it wraps, resets it and carries into the next one; it
    is [None] when the carry leaves the most significant digit, and then
    [counter_next] appends a digit, all digits standing at the first
    symbol. *)

Definition base : nat := length Token.chars.

Fixpoint counter_carry (l : list nat) : option (list nat) :=
  match l with
  | [] => None
  | d :: ds =>
    if S d <? base then Some (S d :: ds)
    else option_map (cons 0) (counter_carry ds)
  end.

Definition counter_next (l : list nat) : list nat :=
  match counter_carry l with
  | Some l' => l'
  | None => repeat 0 (S (length l))
  end.

(** The symbol of a digit and the digit of a symbol. *)
Definition digit_of (v : nat) : ascii := nth v Token.chars "0"%char.

Fixpoint index_in (c : ascii) (l : text) : nat :=
  match l with
  | [] => 0
  | c' :: l' => if Ascii.eqb c c' then 0 else S (index_in c l')
  end.

Definition value_of (c : ascii) : nat := index_in c Token.chars.

(** The order in which [__next__] visits the stored digits: index 0, then
    -1, -2, ... from the back.  [significance] lists stored digits least
    significant first; it is its own inverse, so it also lists the digits
    of a counter in storage order. *)
Definition significance {A : Type} (l : list A) : list A :=
  match l with
  | [] => []
  | d :: rest => d :: rev rest
  end.

(** The digits of an allocator as a counter. *)
Definition counter_of (tk : Token.t) : list nat :=
  significance (map value_of (Token.digits tk)).

(** The allocator whose stored digits are [vals]. *)
Definition embed (vals : list nat) : Token.t :=
  Token.mk (map S vals) (map digit_of vals).

(** The number of counters before a given one: all shorter ones, then the
    ones of the same length with a smaller value. *)
Fixpoint shorter (len : nat) : nat :=
  match len with
  | O => 0
  | S len' => shorter len' + base ^ len'
  end.

Fixpoint counter_value (l : list nat) : nat :=
  match l with
  | [] => 0
  | d :: ds => d + base * counter_value ds
  end.

Definition rank (l : list nat) : nat := shorter (length l) + counter_value l.

(** The reading under which the text of a token lists the digits of the
    counter most significant first. *)
Definition most_significant_first_claim : Prop :=
  forall n tk,
    Token.after n = Some tk ->
    Token.token tk
    = txt "<" ++ map digit_of (rev (counter_of tk)) ++ txt ">".

(** ** Inputs used in the statements below *)

(** A line as [readline] returns it. *)
Definition nl (s : string) : text := txt s ++ [newline].

Definition trailer_example : text := txt "Error 404 occurred {session=1}".

(** The reading of the trailer example under which the annotation survives
    whole: the body holds the placeholder instead of the digits and the
    trailer holds both literals. *)
Definition trailer_example_claim : Prop :=
  let '(body, trailer) :=
    RegExCompressor.split_trailer (encode_punct_and_digits trailer_example) in
  contains (txt "#") body = true /\ contains (txt "404") body = false /\
  contains (txt "404") trailer = true /\
  contains (txt "session=1") trailer = true.

(** Twenty-five lines with a digit run each. *)
Definition error_lines : list text := repeat (nl "Error 404 occurred") 25.

(** A window in which three phrases reach the threshold on one line. *)
Definition abcd_window : list text :=
  repeat (nl "a b c d") 5 ++ repeat (nl "z") 20.

(** Two windows; the words [a] and [b] are two spaces apart, so the phrase
    [a b] is counted and never found.  The pairs reach the threshold on the
    first line of the second window. *)
Definition two_windows : list text :=
  repeat (nl "a  b c") 4 ++ repeat (nl "z") 21
  ++ [nl "a  b c"] ++ repeat (nl "z") 24.

(** Twenty-five lines whose second word ends in a backslash. *)
Definition backslash_lines : list text := repeat (nl "a b\") 25.

(** The catch-up entries as (phrase, origin line). *)
Definition todo_phrases (todo : RegExCompressor.todo_list) : list (text * nat) :=
  map (fun e => (RegExTuple.replaces (fst e), snd e)) todo.

(** Twenty-five lines with the same two words. *)
Definition ab_lines : list text := repeat (nl "a b") 25.

(** *** Measures of a window *)

Definition total_spaces (chunk : list text) : nat :=
  list_sum (map count_space chunk).

Definition total_length (chunk : list text) : nat :=
  list_sum (map (@length ascii) chunk).

(** The phrases that [map_words] forms on a list of words. *)
Fixpoint phrases_from (lastnode : text) (words : list text) : list text :=
  match words with
  | [] => []
  | word :: rest =>
    match word with
    | [] => phrases_from lastnode rest
    | _ => (lastnode ++ txt " " ++ word) :: phrases_from word rest
    end
  end.

(** The phrases that the walks of one pass form on a window. *)
Definition candidates (chunk : list text) : list text :=
  flat_map (fun line => phrases_from RegExCompressor.root (split (body line)))
           chunk.

(** The number of distinct phrases of the window that have no rule yet. *)
Definition pending (self : RegExCompressor.t) (chunk : list text) : nat :=
  length (filter (fun p => negb (PhraseNode.has p (RegExCompressor._expressions self)))
                 (nodup (list_eq_dec ascii_dec) (candidates chunk))).

(** A rule whose pattern holds a space and whose token holds none. *)
Definition rule_ok (r : RegExTuple.t) : Prop :=
  1 <= count_space (RegExTuple.regex r) /\ ~ In space (RegExTuple.token r).

(** The rules of a compressor are of that kind and its allocator holds no
    space; this holds of a fresh compressor and is kept by every method. *)
Definition rules_ok (self : RegExCompressor.t) : Prop :=
  Forall (fun e => rule_ok (snd e)) (RegExCompressor._expressions self)
  /\ ~ In space (Token.digits (RegExCompressor.token self)).

Definition todo_ok (todo : RegExCompressor.todo_list) : Prop :=
  Forall (fun e => rule_ok (fst e)) todo.

(** A computation that has returned or raised. *)
Definition finished {A : Type} (o : outcome A) : Prop := o <> OutOfFuel.

Definition tab : ascii := ascii_of_nat 9.


(** A match never runs past the end of the text. *)
Definition bounded {X : Type} (m : matcher X) : Prop :=
  forall s n x, m s = Some (n, x) -> n <= length s.

(** A [Match] piece is a match of [m] at some position. *)
Definition matched_by {X : Type} (m : matcher X) (p : piece X) : Prop :=
  match p with
  | Char _ => True
  | Match mt x => exists s, m s = Some (length mt, x) /\ mt = firstn (length mt) s
                            /\ 1 <= length mt
  end.

(** An additive measure of texts: the length or the number of spaces. *)
Definition additive (mu : text -> nat) : Prop :=
  mu [] = 0 /\ forall a b, mu (a ++ b) = mu a + mu b.

(** What a function on texts must satisfy to shrink the measures. *)
Definition shrinking (f : text -> text) : Prop :=
  forall s, count_space (f s) <= count_space s
            /\ length (f s) <= length s
            /\ (length (f s) = length s -> f s = s).

(** ** Vocabulary of the further properties *)

(** *** Vocabulary of the encoder properties *)

(** The runs of class characters of a line, in order: what [re.findall]
    returns for the pattern of [encode_punct_and_digits]. *)
Definition runs (line : text) : list text := re_findall m_class line.

(** The line with every run of class characters replaced by one
    placeholder. *)
Definition abstract_runs (line : text) : text :=
  re_sub m_class (fun _ => txt "#") line.

(** The trailer that [split_trailer] assembles from the items alone. *)
Definition trailer_of (items : list text) : text :=
  match items with
  | [] => []
  | _ => txt " {" ++ join (txt " ") items ++ txt "}"
  end.

(** A piece of the scan for the class pattern: a character outside the
    class, or a non-empty run of class characters matched as itself. *)
Definition class_piece (p : piece text) : Prop :=
  match p with
  | Char c => in_class c = false
  | Match mt r => mt = r /\ r <> [] /\ forallb in_class r = true
  end.

(** The piece that the scan for the marker pattern makes of the wrapped
    form of a piece. *)
Definition wrapped (p : piece text) : piece text :=
  match p with
  | Char c => Char c
  | Match _ r => Match (marker ++ r ++ marker) r
  end.

Definition wrap (run : text) : text := marker ++ run ++ marker.
(** *** Vocabulary of the registry properties *)

(** Every node is registered under its own word. *)
Definition registry_ok (ph : PhraseNode.registry) : Prop :=
  Forall (fun e => PhraseNode._root (snd e) = fst e) ph.

(** The pairs (predecessor, word) that [map_words] records on a list of
    words. *)
Fixpoint pairs_from (lastnode : text) (words : list text) : list (text * text) :=
  match words with
  | [] => []
  | word :: rest =>
    match word with
    | [] => pairs_from lastnode rest
    | _ => (lastnode, word) :: pairs_from word rest
    end
  end.

Definition pair_eqb (p q : text * text) : bool :=
  text_eqb (fst p) (fst q) && text_eqb (snd p) (snd q).

(** The number of times [a] is recorded before [b]. *)
Definition count_pair (a b : text) (l : list (text * text)) : nat :=
  length (filter (pair_eqb (a, b)) l).
(** *** Vocabulary of the rule-table properties *)

(** A word as [split] returns it: not empty and without whitespace. *)
Definition word (w : text) : Prop :=
  w <> [] /\ forallb (fun c => negb (is_space c)) w = true.

(** What holds of a compressor from its construction on: the phrases of the
    table are distinct; every rule stands under its phrase and uses it as
    pattern; the k-th rule holds the k-th token issued and the allocator
    has issued exactly one token per rule; every phrase is made of two
    words whose pair has been counted five times or more; the registry
    holds every node under its own word and holds the line-start node. *)
Definition table_ok (self : RegExCompressor.t) : Prop :=
  let rules := RegExCompressor._expressions self in
  NoDup (map fst rules)
  /\ Forall (fun e => RegExTuple.replaces (snd e) = fst e
                      /\ RegExTuple.regex (snd e) = fst e) rules
  /\ Token.after (length rules) = Some (RegExCompressor.token self)
  /\ map (fun e => RegExTuple.token (snd e)) rules = Token.issued (length rules)
  /\ Forall (fun e => exists w1 w2,
                 fst e = w1 ++ txt " " ++ w2 /\ word w1 /\ word w2
                 /\ 5 <= PhraseNode.edge_count w1 w2 (RegExCompressor.phrases self))
            rules
  /\ registry_ok (RegExCompressor.phrases self)
  /\ PhraseNode.has RegExCompressor.root (RegExCompressor.phrases self) = true.
(** *** Vocabulary of the substitution properties *)

(** A character that a pattern takes as itself: no backslash and none of
    the characters with a meaning in a pattern. *)
Definition plain_char (c : ascii) : bool :=
  negb (Ascii.eqb c backslash) && negb (is_meta c).

Definition plain (p : text) : Prop := forallb plain_char p = true.
(** *** Vocabulary of the totality property *)

(** A rule that [re.subn] takes literally: its pattern is not empty and
    pattern and token are made of plain characters. *)
Definition rule_plain (r : RegExTuple.t) : Prop :=
  RegExTuple.regex r <> [] /\ plain (RegExTuple.regex r)
  /\ plain (RegExTuple.token r).

Definition table_plain (self : RegExCompressor.t) : Prop :=
  Forall (fun e => rule_plain (snd e)) (RegExCompressor._expressions self).

Definition todo_plain (todo : RegExCompressor.todo_list) : Prop :=
  Forall (fun e => rule_plain (fst e)) todo.

(** *** Vocabulary of the token properties *)

Definition bracket (c : ascii) : bool :=
  Ascii.eqb c "<" || Ascii.eqb c ">".

(** A text in which brackets occur only around the digits of a token of
    [toks]: characters other than brackets, and whole tokens. *)
Inductive tokened (toks : list text) : text -> Prop :=
| tokened_nil : tokened toks []
| tokened_char (c : ascii) (s : text) :
    bracket c = false -> tokened toks s -> tokened toks (c :: s)
| tokened_tok (d s : text) :
    In (txt "<" ++ d ++ txt ">") toks ->
    Forall (fun c => In c Token.chars) d ->
    tokened toks s -> tokened toks (txt "<" ++ d ++ txt ">" ++ s).

(** [.*?>]: the shortest run of characters other than the newline that is
    followed by a closing bracket. *)
Fixpoint lazy_close (s : text) : option text :=
  match s with
  | [] => None
  | c :: s' =>
    if Ascii.eqb c ">" then Some []
    else if Ascii.eqb c newline then None
    else option_map (cons c) (lazy_close s')
  end.

(** The pattern of [test_compress]: an opening bracket, a lazy group and a
    closing bracket, all in one group. *)
Definition m_token : matcher text :=
  fun s =>
    match s with
    | c :: s' =>
      if Ascii.eqb c "<" then
        match lazy_close s' with
        | Some g => Some (1 + length g + 1, txt "<" ++ g ++ txt ">")
        | None => None
        end
      else None
    | [] => None
    end.

(** The tokens of the rules, [[r.token for r in
    comp._expressions.values()]]. *)
Definition rule_tokens (self : RegExCompressor.t) : list text :=
  map (fun e => RegExTuple.token (snd e)) (RegExCompressor._expressions self).

(** A text without backslash and pattern characters whose brackets are
    those of tokens. *)
Definition clean (toks : list text) (s : text) : Prop :=
  plain s /\ tokened toks s.

(** A rule that keeps texts tokened. *)
Definition rule_tokened (toks : list text) (r : RegExTuple.t) : Prop :=
  rule_plain r /\ In space (RegExTuple.regex r)
  /\ tokened toks (RegExTuple.regex r) /\ tokened toks (RegExTuple.token r).

Definition table_tokened (self : RegExCompressor.t) : Prop :=
  Forall (fun e => rule_tokened (rule_tokens self) (snd e))
         (RegExCompressor._expressions self).

Definition todo_tokened (toks : list text) (todo : RegExCompressor.todo_list)
  : Prop :=
  Forall (fun e => rule_tokened toks (fst e)) todo.

(** What [test_compress] writes to its file: every text that [cat_lines]
    yields, followed by a newline. *)
Definition written (texts : list text) : text :=
  concat (map (fun cline => cline ++ [newline]) texts).

Definition carriage_return : ascii := ascii_of_nat 13.

(** Reading a text file back: a carriage return, with the newline after it
    if there is one, is read as one newline.  [cr] tells whether the last
    character was a carriage return. *)
Fixpoint universal_newlines (cr : bool) (s : text) : text :=
  match s with
  | [] => []
  | c :: s' =>
    if Ascii.eqb c carriage_return then newline :: universal_newlines true s'
    else if Ascii.eqb c newline then
      if cr then universal_newlines false s'
      else newline :: universal_newlines false s'
    else c :: universal_newlines false s'
  end.

(** [outtext] of [test_compress]. *)
Definition outtext (texts : list text) : text :=
  universal_newlines false (written texts).

(** ** PhraseNode.navigate

    The callback [func] is taken as an observer: the model returns the
    words of the nodes it is applied to, in order.  [already_visited] is
    the one set that all the calls share, threaded through them; the empty
    list stands for [None] and for an empty set alike, which both make the
    method start from a fresh set.  [depth] is a natural number. *)




(** The second loop of [navigate]: [n.navigate(depth - 1, ...)] for every
    node of [tree], all on the same set; [call] is the method at the depth
    below. *)
Section Each.

Variable call : text -> list text -> outcome (list text * list text).


End Each.


(** *** Vocabulary of the navigation properties *)

(** Every [nd_] attribute holds a registered node. *)
Definition closed (ph : PhraseNode.registry) : Prop :=
  Forall (fun e => Forall (fun n => PhraseNode.has n ph = true)
                          (PhraseNode.nd (snd e))) ph.

(** The [nd_] attributes agree with the counters: a node is among the
    subnodes of another exactly when the pair has been counted. *)
Definition linked (ph : PhraseNode.registry) : Prop :=
  forall a b,
    (exists s, PhraseNode.get a ph = Some s /\ In b (PhraseNode.nd s))
    <-> 1 <= PhraseNode.edge_count a b ph.

(** *** Vocabulary of the round trip *)

(** Undoing a rule: every occurrence of its token gives way to its
    phrase. *)
Definition undo_one (r : RegExTuple.t) (line : text) : text :=
  re_sub (m_literal (RegExTuple.token r)) (fun _ => RegExTuple.replaces r) line.

(** Undoing the rules of a table, the newest first. *)
Definition decompress (rules : list (text * RegExTuple.t)) (line : text)
  : text :=
  fold_left (fun l e => undo_one (snd e) l) (rev rules) line.

(** A text without trailing whitespace that [decompress] takes to [b]. *)
Definition faithful (rules : list (text * RegExTuple.t)) (line b : text)
  : Prop :=
  rstrip line = line /\ decompress rules line = b.

(** The entries of a catch-up list are rules of the table. *)
Definition todo_listed (rules : list (text * RegExTuple.t))
  (todo : RegExCompressor.todo_list) : Prop :=
  Forall (fun e => exists k, In (k, fst e) rules) todo.

(** [s'] is [s] with some occurrences of the phrase [p] replaced by the
    token [t], the rest standing as it is. *)
Inductive contract (toks : list text) (p t : text) : text -> text -> Prop :=
| contract_nil : contract toks p t [] []
| contract_char (c : ascii) (s s' : text) :
    bracket c = false -> contract toks p t s s' ->
    contract toks p t (c :: s) (c :: s')
| contract_tok (d s s' : text) :
    In (txt "<" ++ d ++ txt ">") toks ->
    Forall (fun c => In c Token.chars) d ->
    contract toks p t s s' ->
    contract toks p t (txt "<" ++ d ++ txt ">" ++ s)
                      (txt "<" ++ d ++ txt ">" ++ s')
| contract_block (s s' : text) :
    contract toks p t s s' -> contract toks p t (p ++ s) (t ++ s').

(** The tokens of a list of rules. *)
Definition tokens_of (rules : list (text * RegExTuple.t)) : list text :=
  map (fun e => RegExTuple.token (snd e)) rules.

(** A rule as [gen_regex] makes it, after the rules [pre]: its token is
    new, its phrase holds a space, is plain, holds tokens of [pre] only
    and does not end in whitespace. *)
Definition rule_over (pre : list (text * RegExTuple.t)) (r : RegExTuple.t)
  : Prop :=
  (exists d, RegExTuple.token r = txt "<" ++ d ++ txt ">"
             /\ Forall (fun c => In c Token.chars) d)
  /\ ~ In (RegExTuple.token r) (tokens_of pre)
  /\ RegExTuple.replaces r = RegExTuple.regex r
  /\ In space (RegExTuple.regex r)
  /\ plain (RegExTuple.regex r)
  /\ tokened (tokens_of pre) (RegExTuple.regex r)
  /\ is_space (last (RegExTuple.regex r) "x"%char) = false.

(** Every rule of the table is over the rules before it. *)
Definition layered (rules : list (text * RegExTuple.t)) : Prop :=
  forall pre e post, rules = pre ++ e :: post -> rule_over pre (snd e).

(** * Properties *)

Lemma text_eqb_eq (a b : text) : text_eqb a b = true <-> a = b.
Proof.
  unfold text_eqb. destruct (list_eq_dec ascii_dec a b); split; congruence.
Qed.

Lemma text_eqb_refl (a : text) : text_eqb a a = true.
Proof. now apply text_eqb_eq. Qed.

Lemma text_eqb_neq (a b : text) : text_eqb a b = false <-> a <> b.
Proof.
  unfold text_eqb. destruct (list_eq_dec ascii_dec a b); split; congruence.
Qed.

Lemma bind_ok {A B : Type} (x : outcome A) (f : A -> outcome B) (b : B) :
  bind x f = Ok b -> exists a, x = Ok a /\ f a = Ok b.
Proof.
  destruct x; simpl; try discriminate. intros H. now exists a.
Qed.

(** Splits a hypothesis [bind x f = Ok b] into its two halves. *)
Ltac bind_inv H :=
  let a := fresh "a" in
  let Ha := fresh "Hm" in
  apply bind_ok in H; destruct H as [a [Ha H]].

(** ** The trailer example *)

Example encode_trailer_example :
  encode_punct_and_digits trailer_example
  = txt "Error _$_404_$_ occurred _$_{_$_session_$_=1}_$_".
Proof. vm_compute. reflexivity. Qed.

(** C3, as stated: after encoding, the trailer of the example does not
    contain the literal [session=1]. *)
Lemma trailer_example_claim_fails : ~ trailer_example_claim.
Proof.
  unfold trailer_example_claim. vm_compute. intros [_ [_ [_ H]]]. discriminate.
Qed.

(** C3, amended: encoding and then splitting the example gives the body
    [Error # occurred #session#], with the digit run replaced by the
    placeholder, and the trailer [ {404 { =1}}], which holds the literal 404
    and the runs of the annotation that the encoder wrapped; the word
    [session] stays in the body. *)
Theorem trailer_example_split :
  RegExCompressor.split_trailer (encode_punct_and_digits trailer_example)
  = (txt "Error # occurred #session#", txt " {404 { =1}}")
  /\ contains (txt "404") (txt "Error # occurred #session#") = false
  /\ contains (txt "404") (txt " {404 { =1}}") = true
  /\ contains (txt "=1}") (txt " {404 { =1}}") = true
  /\ contains (txt "session") (txt "Error # occurred #session#") = true
  /\ contains (txt "session") (txt " {404 { =1}}") = false.
Proof. vm_compute. repeat split. Qed.

(** ** Window lengths *)

Section Lengths.

Import RegExCompressor.

Lemma first_pass_length self index chunk changes todo self' chunk' changes' todo' :
  first_pass self index chunk changes todo = Ok (self', chunk', changes', todo') ->
  length chunk' = length chunk.
Proof.
  revert self index changes todo self' chunk' changes' todo'.
  induction chunk as [|line0 rest IH]; intros self index changes todo
    self' chunk' changes' todo' H; simpl in H.
  - now inversion H.
  - destruct (split_trailer line0) as [line trailer].
    bind_inv H. destruct a as [new_line delta].
    bind_inv H. destruct a as [self1 todo1].
    bind_inv H. destruct a as [[[self2 rest'] c2] todo2].
    inversion H; subst. simpl. f_equal. eapply IH; eauto.
Qed.

Lemma catch_up_length chunk changes todo chunk' changes' :
  catch_up chunk changes todo = Ok (chunk', changes') ->
  length chunk' = length chunk.
Proof.
  revert changes todo chunk' changes'.
  induction chunk as [|line rest IH]; intros changes todo chunk' changes' H;
    simpl in H.
  - now inversion H.
  - bind_inv H. destruct a as [[cur c1] todo1].
    bind_inv H. destruct a as [rest' c2].
    inversion H; subst. simpl. f_equal. eapply IH; eauto.
Qed.

Lemma press_mainloop_length self chunk changes self' chunk' :
  press_mainloop self chunk = Ok (changes, self', chunk') ->
  length chunk' = length chunk.
Proof.
  unfold press_mainloop. intros H.
  bind_inv H. destruct a as [[[self1 chunk1] c1] todo].
  bind_inv H. destruct a as [chunk2 c2].
  inversion H; subst.
  apply catch_up_length in Hm0. apply first_pass_length in Hm. congruence.
Qed.

Lemma press_loop_length fuel self chunk self' chunk' :
  press_loop fuel self chunk = Ok (self', chunk') ->
  length chunk' = length chunk.
Proof.
  revert self chunk.
  induction fuel as [|fuel IH]; intros self chunk H; simpl in H.
  - discriminate.
  - bind_inv H. destruct a as [[changes self1] chunk1].
    apply press_mainloop_length in Hm.
    destruct (changes =? 0).
    + inversion H; subst. exact Hm.
    + apply IH in H. congruence.
Qed.

Lemma press_length fuel self chunk self' chunk' :
  press fuel self chunk = Ok (self', chunk') ->
  length chunk' = length chunk.
Proof.
  unfold press, encode. intros H. apply press_loop_length in H.
  now rewrite length_map in H.
Qed.

Lemma compress_loop_length fuel lines :
  forall self chunk out self' out',
    length chunk < CHUNK_SIZE ->
    Forall (fun line => line <> []) lines ->
    compress_loop fuel self lines chunk (length chunk) out = Ok (self', out') ->
    length out' =
    length out + CHUNK_SIZE * ((length chunk + length lines) / CHUNK_SIZE).
Proof.
  induction lines as [|line rest IH]; intros self chunk out self' out' Hc Hne H;
    cbn [compress_loop] in H.
  - inversion H; subst. rewrite Nat.add_0_r, Nat.div_small by exact Hc. lia.
  - inversion Hne as [|? ? Hline Hrest]; subst.
    destruct line as [|c line]; [congruence|].
    destruct (CHUNK_SIZE <=? length chunk + 1) eqn:E.
    + apply Nat.leb_le in E.
      bind_inv H. destruct a as [self1 pressed].
      apply press_length in Hm. rewrite length_app in Hm. simpl in Hm.
      apply (IH self1 [] (out ++ pressed)) in H;
        [|unfold CHUNK_SIZE; simpl; lia|exact Hrest].
      rewrite H, length_app, Hm. simpl length.
      assert (Hl : length chunk + 1 = CHUNK_SIZE) by lia.
      replace (length chunk + S (length rest))
        with (1 * CHUNK_SIZE + length rest) by lia.
      rewrite Nat.div_add_l by (unfold CHUNK_SIZE; lia).
      simpl (0 + length rest). lia.
    + apply Nat.leb_gt in E.
      replace (length chunk + 1) with (length (chunk ++ [c :: line])) in H
        by (rewrite length_app; reflexivity).
      apply IH in H; [|rewrite length_app; simpl; lia|exact Hrest].
      rewrite H, length_app. simpl length.
      replace (length chunk + 1 + length rest)
        with (length chunk + S (length rest)) by lia.
      reflexivity.
Qed.

End Lengths.

(** C1, on the code: [compress] keeps [CHUNK_SIZE] lines for every full
    window and nothing of a final partial window, so the number of
    compressed lines is the largest multiple of 25 below or at the number of
    input lines, and [cat_lines] yields exactly that many lines before the
    marker and the report. *)
Theorem compress_output_length fuel self lines out self' :
  Forall (fun line => line <> []) lines ->
  RegExCompressor.compress fuel self lines = Ok (out, self') ->
  length out = CHUNK_SIZE * (length lines / CHUNK_SIZE)
  /\ RegExCompressor.compressed_output self' = Some out
  /\ forall yielded, RegExCompressor.cat_lines self' = Ok yielded ->
       length yielded = CHUNK_SIZE * (length lines / CHUNK_SIZE) + 2.
Proof.
  intros Hne H. unfold RegExCompressor.compress in H.
  bind_inv H. destruct a as [self1 out1]. inversion H; subst. clear H.
  apply (compress_loop_length fuel lines self [] []) in Hm;
    [|unfold CHUNK_SIZE; simpl; lia|exact Hne].
  simpl in Hm. split; [exact Hm|]. split; [reflexivity|].
  intros yielded Hy. unfold RegExCompressor.cat_lines in Hy. simpl in Hy.
  bind_inv Hy. inversion Hy; subst. rewrite length_app. simpl.
  assert (Hb : forall ls body, RegExCompressor.cat_body
             (RegExCompressor.with_output self1 out) ls = Ok body ->
             length body = length ls).
  { induction ls as [|l ls IH]; intros body Hb; simpl in Hb.
    - now inversion Hb.
    - destruct (RegExCompressor.split_trailer l) as [line trailer].
      bind_inv Hb. destruct a0 as [line1 n]. bind_inv Hb.
      inversion Hb; subst. simpl. f_equal. now apply IH. }
  rewrite (Hb _ _ Hm0). lia.
Qed.

(** A one-line file: no compressed line is kept and [cat_lines] yields the
    marker and an empty report only. *)
Lemma compress_output_length_witness :
  Forall (fun line => line <> []) [nl "hello world"]
  /\ RegExCompressor.compress 1 RegExCompressor.init [nl "hello world"]
     = Ok ([], RegExCompressor.with_output RegExCompressor.init [])
  /\ length (@nil text) = CHUNK_SIZE * (length [nl "hello world"] / CHUNK_SIZE)
  /\ RegExCompressor.cat_lines
       (RegExCompressor.with_output RegExCompressor.init [])
     = Ok [RegExCompressor.EXPRESSIONS; []].
Proof.
  assert (Hne : Forall (fun line : text => line <> []) [nl "hello world"])
    by (constructor; [discriminate|constructor]).
  assert (Hc : RegExCompressor.compress 1 RegExCompressor.init [nl "hello world"]
               = Ok ([], RegExCompressor.with_output RegExCompressor.init []))
    by reflexivity.
  split; [exact Hne|]. split; [exact Hc|].
  split; [exact (proj1 (compress_output_length _ _ _ _ _ Hne Hc))|].
  reflexivity.
Defined.

(** ** The pipeline on concrete windows *)

(** C2, on the code: every line of [error_lines] has the trailer [ {404}]
    after encoding, yet the window that [press] returns and the lines that
    [cat_lines] yields carry no trailer: the digits 404 appear nowhere in
    the output. *)
Theorem pipeline_drops_trailer :
  Forall (fun line =>
            RegExCompressor.split_trailer (encode_punct_and_digits line)
            = (txt "Error # occurred", txt " {404}")) error_lines
  /\ exists self',
       RegExCompressor.compress 4 RegExCompressor.init error_lines
       = Ok (repeat (txt "<3>") 5 ++ repeat (txt "<4>") 20, self')
       /\ RegExCompressor.cat_lines self'
          = Ok (repeat (txt "<3>") 5 ++ repeat (txt "<4>") 20
                ++ [RegExCompressor.EXPRESSIONS;
                    txt "Error #, # occurred, Error <2>, <1> occurred"])
       /\ existsb (contains (txt "404"))
            (repeat (txt "<3>") 5 ++ repeat (txt "<4>") 20) = false.
Proof.
  split.
  - unfold error_lines. apply Forall_forall. intros line Hin.
    apply repeat_spec in Hin. subst. vm_compute. reflexivity.
  - eexists. split; [vm_compute; reflexivity|].
    split; vm_compute; reflexivity.
Qed.

(** C4, on the code.  In [abcd_window] the rules for [a b], [b c] and [c d]
    are enqueued on line 4; the catch-up counts fifteen substitutions and
    leaves only those of the last entry in the window, so the first five
    lines still contain the phrase [a b].  In [two_windows] the rules for
    [a b] and [b c] are enqueued on line 0 of the second window; the entry
    at position 0 is overwritten by the last one after the first line, the
    rule for [b c] is never applied to that line, the pass reports no
    change and the window is returned with [b c] still in it. *)
Theorem catch_up_keeps_enqueued_phrase :
  (exists self1 chunk1 changes1 todo,
     RegExCompressor.first_pass RegExCompressor.init 0
       (RegExCompressor.encode abcd_window) 0 []
     = Ok (self1, chunk1, changes1, todo)
     /\ todo_phrases todo = [(txt "a b", 4); (txt "b c", 4); (txt "c d", 4)]
     /\ chunk1 = repeat (txt "a b c d") 5 ++ repeat (txt "z") 20
     /\ RegExCompressor.catch_up chunk1 changes1 todo
        = Ok (repeat (txt "a b <3>") 5 ++ repeat (txt "z") 20, 15)
     /\ contains (txt "a b") (txt "a b <3>") = true)
  /\ (exists self',
        RegExCompressor.compress 1 RegExCompressor.init two_windows
        = Ok (repeat (txt "a  b c") 4 ++ repeat (txt "z") 21
              ++ [txt "a  b c"] ++ repeat (txt "z") 24, self')
        /\ map fst (RegExCompressor._expressions self') = [txt "a b"; txt "b c"]
        /\ contains (txt "b c") (txt "a  b c") = true).
Proof.
  split.
  - do 4 eexists. split; [vm_compute; reflexivity|].
    repeat split; vm_compute; reflexivity.
  - eexists. split; [vm_compute; reflexivity|].
    split; vm_compute; reflexivity.
Qed.

(** C6, on the code: the fifth line of [backslash_lines] induces the phrase
    made of [a] and of [b] followed by a backslash; as a pattern it ends in
    a lone backslash, and applying the rule to the next line raises
    [re.error], whatever the number of passes allowed. *)
Theorem backslash_phrase_raises (fuel : nat) :
  re_compile (txt "a b\") = BadEscape
  /\ RegExCompressor.compress (S fuel) RegExCompressor.init backslash_lines
     = Raised re_error.
Proof. split; vm_compute; reflexivity. Qed.

(** ** Dicts *)

Section Dicts.

Import PhraseNode.

Context {V : Type}.

Implicit Types (d : list (text * V)) (k : text) (v : V).

Lemma has_in k d : has k d = true <-> In k (map fst d).
Proof.
  unfold has. induction d as [|[k' v'] d IH]; simpl.
  - split; [discriminate|tauto].
  - destruct (text_eqb k k') eqn:E.
    + apply text_eqb_eq in E. subst. split; auto.
    + apply text_eqb_neq in E. rewrite IH. split; [auto|].
      intros [H|H]; [congruence|exact H].
Qed.

Lemma has_false_in k d : has k d = false <-> ~ In k (map fst d).
Proof.
  rewrite <- has_in. destruct (has k d); split; congruence.
Qed.

Lemma set_fresh k v d : has k d = false -> set k v d = d ++ [(k, v)].
Proof.
  unfold has. induction d as [|[k' v'] d IH]; simpl; [reflexivity|].
  destruct (text_eqb k k'); [discriminate|].
  intros H. now rewrite IH.
Qed.

Lemma has_app k d d' : has k d = true -> has k (d ++ d') = true.
Proof.
  rewrite !has_in, map_app, in_app_iff. tauto.
Qed.

End Dicts.

(** ** The rule table only grows *)

Section Rules.

Import PhraseNode RegExCompressor.

Lemma extends_refl self : extends self self.
Proof. exists []. now rewrite app_nil_r. Qed.

Lemma extends_trans a b c : extends a b -> extends b c -> extends a c.
Proof.
  intros [n1 H1] [n2 H2]. exists (n1 ++ n2). now rewrite H2, H1, app_assoc.
Qed.

Lemma extends_has a b k :
  extends a b -> has k (_expressions a) = true -> has k (_expressions b) = true.
Proof. intros [n H] Hk. rewrite H. now apply has_app. Qed.

Lemma gen_regex_extends self node1 node2 r self' :
  gen_regex self node1 node2 = Ok (r, self') -> extends self self'.
Proof.
  unfold gen_regex. intros H.
  destruct (has _ (_expressions self)) eqn:E.
  - inversion H; subst. apply extends_refl.
  - destruct (Token.next (token self)) as [[tok tk]|]; [|discriminate].
    inversion H; subst. eexists. simpl. now rewrite set_fresh.
Qed.

Lemma map_words_extends words :
  forall self lastnode at_root index todo self' todo',
    map_words self lastnode at_root words index todo = Ok (self', todo') ->
    extends self self'.
Proof.
  induction words as [|word rest IH]; intros self lastnode at_root index todo
    self' todo' H; cbn [map_words] in H.
  - inversion H; subst. apply extends_refl.
  - destruct word as [|c word]; [eauto|].
    bind_inv H. destruct a as [count ph].
    assert (E0 : extends self (with_phrases self ph))
      by (exists []; simpl; now rewrite app_nil_r).
    destruct ((5 <=? count) && negb at_root).
    + bind_inv H. destruct a as [new_reg self2].
      apply gen_regex_extends in Hm0.
      destruct new_reg; apply IH in H; eauto using extends_trans.
    + apply IH in H. eauto using extends_trans.
Qed.

Lemma first_pass_extends chunk :
  forall self index changes todo self' chunk' changes' todo',
    first_pass self index chunk changes todo = Ok (self', chunk', changes', todo') ->
    extends self self'.
Proof.
  induction chunk as [|line0 rest IH]; intros self index changes todo
    self' chunk' changes' todo' H; simpl in H.
  - inversion H; subst. apply extends_refl.
  - destruct (split_trailer line0) as [line trailer].
    bind_inv H. destruct a as [new_line delta].
    bind_inv H. destruct a as [self1 todo1].
    bind_inv H. destruct a as [[[self2 rest'] c2] todo2].
    inversion H; subst.
    apply map_words_extends in Hm0. apply IH in Hm1.
    eauto using extends_trans.
Qed.

Lemma press_mainloop_extends self chunk changes self' chunk' :
  press_mainloop self chunk = Ok (changes, self', chunk') -> extends self self'.
Proof.
  unfold press_mainloop. intros H.
  bind_inv H. destruct a as [[[self1 chunk1] c1] todo].
  bind_inv H. destruct a as [chunk2 c2]. inversion H; subst.
  eapply first_pass_extends; eauto.
Qed.

Lemma press_loop_extends fuel :
  forall self chunk self' chunk',
    press_loop fuel self chunk = Ok (self', chunk') -> extends self self'.
Proof.
  induction fuel as [|fuel IH]; intros self chunk self' chunk' H; simpl in H.
  - discriminate.
  - bind_inv H. destruct a as [[changes self1] chunk1].
    apply press_mainloop_extends in Hm.
    destruct (changes =? 0).
    + inversion H; subst. exact Hm.
    + apply IH in H. eauto using extends_trans.
Qed.

Lemma compress_loop_extends fuel lines :
  forall self chunk counter out self' out',
    compress_loop fuel self lines chunk counter out = Ok (self', out') ->
    extends self self'.
Proof.
  induction lines as [|line rest IH]; intros self chunk counter out self' out' H;
    cbn [compress_loop] in H.
  - inversion H; subst. apply extends_refl.
  - destruct line as [|c line]; [inversion H; subst; apply extends_refl|].
    destruct (CHUNK_SIZE <=? counter + 1).
    + bind_inv H. destruct a as [self1 pressed].
      apply press_loop_extends in Hm. apply IH in H.
      eauto using extends_trans.
    + eauto.
Qed.

End Rules.

(** C9: inducing a rule for a phrase that has one returns nothing and
    leaves the compressor as it is, so the table is unchanged and no token
    is drawn; after any induction the phrase has a rule, a second induction
    returns nothing, and a table without duplicate keys holds exactly one
    entry for the phrase; the rule is still there after any later window
    and any later file, where inducing it again returns nothing. *)
Theorem gen_regex_idempotent (self : RegExCompressor.t) (node1 node2 : text) :
  let phrase := node1 ++ txt " " ++ node2 in
  (PhraseNode.has phrase (RegExCompressor._expressions self) = true ->
   RegExCompressor.gen_regex self node1 node2 = Ok (None, self))
  /\ (forall r self1,
        RegExCompressor.gen_regex self node1 node2 = Ok (r, self1) ->
        PhraseNode.has phrase (RegExCompressor._expressions self1) = true
        /\ RegExCompressor.gen_regex self1 node1 node2 = Ok (None, self1)
        /\ (NoDup (map fst (RegExCompressor._expressions self)) ->
            NoDup (map fst (RegExCompressor._expressions self1))
            /\ count_occ (list_eq_dec ascii_dec)
                 (map fst (RegExCompressor._expressions self1)) phrase = 1)
        /\ (forall fuel chunk self2 chunk2,
              RegExCompressor.press fuel self1 chunk = Ok (self2, chunk2) ->
              RegExCompressor.gen_regex self2 node1 node2 = Ok (None, self2))
        /\ (forall fuel lines self2 out,
              RegExCompressor.compress fuel self1 lines = Ok (out, self2) ->
              RegExCompressor.gen_regex self2 node1 node2 = Ok (None, self2))).
Proof.
  intros phrase.
  assert (Hsecond : forall s,
             PhraseNode.has phrase (RegExCompressor._expressions s) = true ->
             RegExCompressor.gen_regex s node1 node2 = Ok (None, s)).
  { intros s Hs. unfold RegExCompressor.gen_regex. fold phrase. now rewrite Hs. }
  split; [apply Hsecond|].
  intros r self1 H.
  assert (Hin : PhraseNode.has phrase (RegExCompressor._expressions self1) = true).
  { unfold RegExCompressor.gen_regex in H. fold phrase in H.
    destruct (PhraseNode.has phrase (RegExCompressor._expressions self)) eqn:E.
    - inversion H; subst. exact E.
    - destruct (Token.next (RegExCompressor.token self)) as [[tok tk]|];
        [|discriminate].
      inversion H; subst. simpl. rewrite set_fresh by exact E.
      apply has_in. rewrite map_app, in_app_iff. right. simpl. auto. }
  split; [exact Hin|]. split; [now apply Hsecond|]. split.
  - intros Hnd.
    assert (Hnd1 : NoDup (map fst (RegExCompressor._expressions self1))).
    { unfold RegExCompressor.gen_regex in H. fold phrase in H.
      destruct (PhraseNode.has phrase (RegExCompressor._expressions self)) eqn:E.
      - inversion H; subst. exact Hnd.
      - destruct (Token.next (RegExCompressor.token self)) as [[tok tk]|];
          [|discriminate].
        inversion H; subst. simpl. rewrite set_fresh by exact E.
        rewrite map_app. simpl.
        apply NoDup_app; [exact Hnd|repeat constructor; simpl; tauto|].
        intros x Hx [Hy|[]]. subst x.
        apply has_false_in in E. contradiction. }
    split; [exact Hnd1|].
    apply has_in in Hin.
    apply (proj1 (NoDup_count_occ' (list_eq_dec ascii_dec) _) Hnd1 _ Hin).
  - split.
    + intros fuel chunk self2 chunk2 Hp. apply Hsecond.
      apply press_loop_extends in Hp. eapply extends_has; eauto.
    + intros fuel lines self2 out Hc. apply Hsecond.
      unfold RegExCompressor.compress in Hc. bind_inv Hc.
      destruct a as [s o]. inversion Hc; subst. simpl.
      apply compress_loop_extends in Hm. eapply extends_has; eauto.
Qed.

Lemma gen_regex_idempotent_witness :
  exists r self1,
    RegExCompressor.gen_regex RegExCompressor.init (txt "a") (txt "b")
    = Ok (Some r, self1)
    /\ RegExCompressor.gen_regex self1 (txt "a") (txt "b") = Ok (None, self1)
    /\ count_occ (list_eq_dec ascii_dec)
         (map fst (RegExCompressor._expressions self1)) (txt "a b") = 1.
Proof.
  do 2 eexists.
  assert (H : RegExCompressor.gen_regex RegExCompressor.init (txt "a") (txt "b")
              = Ok (Some (RegExTuple.mk (txt "a b") (txt "a b") (txt "<1>")),
                    RegExCompressor.mk
                      (RegExCompressor.phrases RegExCompressor.init)
                      [(txt "a b", RegExTuple.mk (txt "a b") (txt "a b") (txt "<1>"))]
                      (Token.mk [2] (txt "1")) None)) by reflexivity.
  split; [exact H|].
  destruct (proj2 (gen_regex_idempotent RegExCompressor.init (txt "a") (txt "b"))
              _ _ H) as [_ [H2 [H3 _]]].
  split; [exact H2|]. apply H3. constructor.
Defined.

(** ** Which body is walked *)

(** C5, as stated: on [ab_lines] the rule for [a b] exists from line 4 on
    and lines 5 to 24 are stored as the token; the code has still counted
    [a] before [b] on all 25 lines and has never met the token, while a walk
    of the rule-applied bodies counts the pair 5 times and the token after
    the line start 20 times. *)
Lemma walk_on_applied_body_fails :
  registry_after RegExCompressor.first_pass (RegExCompressor.encode ab_lines)
  <> registry_after first_pass_walking_applied (RegExCompressor.encode ab_lines)
  /\ option_map (PhraseNode.edge_count (txt "a") (txt "b"))
       (registry_after RegExCompressor.first_pass
          (RegExCompressor.encode ab_lines)) = Some 25
  /\ option_map (PhraseNode.has (txt "<1>"))
       (registry_after RegExCompressor.first_pass
          (RegExCompressor.encode ab_lines)) = Some false
  /\ option_map (PhraseNode.edge_count (txt "a") (txt "b"))
       (registry_after first_pass_walking_applied
          (RegExCompressor.encode ab_lines)) = Some 5
  /\ option_map (PhraseNode.edge_count RegExCompressor.root (txt "<1>"))
       (registry_after first_pass_walking_applied
          (RegExCompressor.encode ab_lines)) = Some 20.
Proof.
  split; [|repeat split; vm_compute; reflexivity].
  intros H.
  apply (f_equal (option_map (PhraseNode.edge_count (txt "a") (txt "b")))) in H.
  vm_compute in H. discriminate.
Qed.

(** C5, amended: in each pass the walk of a line is performed on the body
    that [split_trailer] returned, before the rule application of that
    pass: the registry, the rule table, the allocator and the catch-up list
    after the first loop are those of walking these bodies in order, and do
    not depend on what [apply_all] returned. *)
Theorem first_pass_walks_split_body self index chunk changes todo
  self' chunk' changes' todo' :
  RegExCompressor.first_pass self index chunk changes todo
  = Ok (self', chunk', changes', todo') ->
  walk_bodies self index (map body chunk) todo = Ok (self', todo').
Proof.
  revert self index changes todo self' chunk' changes' todo'.
  induction chunk as [|line0 rest IH]; intros self index changes todo
    self' chunk' changes' todo' H; cbn [RegExCompressor.first_pass] in H.
  - inversion H; subst. reflexivity.
  - cbn [map walk_bodies]. unfold body at 1.
    destruct (RegExCompressor.split_trailer line0) as [line trailer].
    bind_inv H. destruct a as [new_line delta].
    bind_inv H. destruct a as [self1 todo1].
    bind_inv H. destruct a as [[[self2 rest'] c2] todo2].
    inversion H; subst. cbn [fst]. rewrite Hm0. cbn [bind]. eapply IH; eauto.
Qed.

Lemma first_pass_walks_split_body_witness :
  exists self' chunk' changes' todo',
    RegExCompressor.first_pass RegExCompressor.init 0
      (RegExCompressor.encode ab_lines) 0 []
    = Ok (self', chunk', changes', todo')
    /\ walk_bodies RegExCompressor.init 0
         (map body (RegExCompressor.encode ab_lines)) []
       = Ok (self', todo')
    /\ chunk' = repeat (txt "a b") 5 ++ repeat (txt "<1>") 20
    /\ map body (RegExCompressor.encode ab_lines) = repeat (txt "a b") 25.
Proof.
  destruct (RegExCompressor.first_pass RegExCompressor.init 0
              (RegExCompressor.encode ab_lines) 0 [])
    as [[[[s c] n] t]| | |] eqn:H;
    [|vm_compute in H; discriminate ..].
  exists s, c, n, t. split; [reflexivity|].
  split; [exact (first_pass_walks_split_body _ _ _ _ _ _ _ _ _ H)|].
  vm_compute in H. inversion H. split; vm_compute; reflexivity.
Defined.
(** ** The token allocator *)

Lemma set_nth_app {A : Type} (l1 l2 : list A) (x y : A) :
  set_nth (length l1) y (l1 ++ x :: l2) = l1 ++ y :: l2.
Proof.
  unfold set_nth. induction l1 as [|a l1 IH]; simpl; [reflexivity|].
  f_equal. exact IH.
Qed.

Lemma py_index_back (len k : nat) :
  1 <= k <= len -> py_index len (- Z.of_nat k) = Some (len - k).
Proof.
  intros H. unfold py_index.
  replace ((0 <=? - Z.of_nat k)%Z) with false
    by (symmetry; apply Z.leb_gt; lia).
  simpl andb.
  replace ((- Z.of_nat len <=? - Z.of_nat k)%Z) with true
    by (symmetry; apply Z.leb_le; lia).
  replace ((- Z.of_nat k <? 0)%Z) with true
    by (symmetry; apply Z.ltb_lt; lia).
  simpl. f_equal. lia.
Qed.

Lemma py_index_front (len : nat) : 1 <= len -> py_index len 0 = Some 0.
Proof.
  intros H. unfold py_index.
  replace ((0 <? Z.of_nat len)%Z) with true by (symmetry; apply Z.ltb_lt; lia).
  reflexivity.
Qed.

Lemma base_62 : base = 62.
Proof. reflexivity. Qed.

Lemma gen_next_advance (v : nat) :
  S v < base -> Token.gen_next (S v) = Some (digit_of (S v), S (S v)).
Proof.
  intros H. unfold Token.gen_next, digit_of.
  destruct (nth_error Token.chars (S v)) as [c|] eqn:E.
  - now rewrite (nth_error_nth _ _ _ E).
  - apply nth_error_None in E. unfold base in H. lia.
Qed.

Lemma gen_next_stop (v : nat) : v < base -> ~ S v < base -> Token.gen_next (S v) = None.
Proof.
  intros H1 H2. unfold Token.gen_next.
  replace (nth_error Token.chars (S v)) with (@None ascii); [reflexivity|].
  symmetry. apply nth_error_None. unfold base in *. lia.
Qed.

Lemma gen_next_fresh : Token.gen_next Token.get_gen = Some (digit_of 0, 1).
Proof. reflexivity. Qed.

Lemma embed_split (l1 l2 : list nat) (x : nat) :
  embed (l1 ++ x :: l2)
  = Token.mk (map S l1 ++ S x :: map S l2) (map digit_of l1 ++ digit_of x :: map digit_of l2).
Proof. unfold embed. now rewrite !map_app. Qed.

Lemma repeat_middle {A : Type} (a : A) (n : nat) (l : list A) :
  repeat a n ++ a :: l = a :: repeat a n ++ l.
Proof. induction n; simpl; congruence. Qed.

Lemma embed_digits_length vals : length (Token.digits (embed vals)) = length vals.
Proof. unfold embed. simpl. apply length_map. Qed.

Lemma embed_generators_length vals : length (Token.generators (embed vals)) = length vals.
Proof. unfold embed. simpl. apply length_map. Qed.

Lemma embed_set (l1 l2 : list nat) (x y : nat) :
  Token.mk (set_nth (length l1) (S y) (Token.generators (embed (l1 ++ x :: l2))))
           (set_nth (length l1) (digit_of y) (Token.digits (embed (l1 ++ x :: l2))))
  = embed (l1 ++ y :: l2).
Proof.
  rewrite !embed_split. cbn [Token.generators Token.digits].
  rewrite <- (length_map S l1) at 1. rewrite set_nth_app.
  rewrite <- (length_map digit_of l1) at 1. rewrite set_nth_app.
  reflexivity.
Qed.

(** One iteration of the loop at a negative index. *)
Lemma next_loop_step (fuel : nat) (l1 l2 : list nat) (x : nat) :
  l1 <> [] -> x < base ->
  Token.next_loop (S fuel) (- Z.of_nat (S (length l2))) (embed (l1 ++ x :: l2))
  = if S x <? base then Some (embed (l1 ++ S x :: l2))
    else if length l1 =? 1 then Some (embed (l1 ++ 0 :: l2 ++ [0]))
    else Token.next_loop fuel (- Z.of_nat (S (S (length l2))))
           (embed (l1 ++ 0 :: l2)).
Proof.
  intros Hne Hx.
  assert (Hl1 : 1 <= length l1) by (destruct l1; [congruence|simpl; lia]).
  cbn [Token.next_loop].
  rewrite embed_digits_length, embed_generators_length.
  assert (Hlen : length (l1 ++ x :: l2) = length l1 + S (length l2))
    by (rewrite length_app; reflexivity).
  rewrite Hlen.
  replace ((0 - Z.of_nat (length l1 + S (length l2)) <? - Z.of_nat (S (length l2)))%Z)
    with true by (symmetry; apply Z.ltb_lt; lia).
  cbn [negb].
  rewrite py_index_back by lia.
  replace (length l1 + S (length l2) - S (length l2)) with (length l1) by lia.
  assert (Hnth : nth_error (Token.generators (embed (l1 ++ x :: l2))) (length l1)
                 = Some (S x)).
  { rewrite embed_split. cbn [Token.generators].
    rewrite nth_error_app2 by (rewrite length_map; lia).
    rewrite length_map, Nat.sub_diag. reflexivity. }
  rewrite Hnth.
  destruct (S x <? base) eqn:E.
  - apply Nat.ltb_lt in E. rewrite gen_next_advance by exact E.
    now rewrite embed_set.
  - apply Nat.ltb_ge in E. rewrite gen_next_stop by lia.
    rewrite gen_next_fresh. cbv zeta.
    rewrite embed_set.
    assert (Hd : length (set_nth (length l1) (digit_of 0)
                           (Token.digits (embed (l1 ++ x :: l2))))
                 = length l1 + S (length l2)).
    { rewrite embed_split. cbn [Token.digits].
      rewrite <- (length_map digit_of l1) at 1. rewrite set_nth_app.
      rewrite length_app. cbn [length]. now rewrite !length_map. }
    rewrite Hd.
    destruct (length l1 =? 1) eqn:E1.
    + apply Nat.eqb_eq in E1.
      replace ((- Z.of_nat (S (length l2)) - 1 =? -1 * Z.of_nat (length l1 + S (length l2)))%Z)
        with true by (symmetry; apply Z.eqb_eq; lia).
      rewrite !embed_split. cbn [Token.generators Token.digits].
      rewrite <- (length_map S l1) at 1. rewrite set_nth_app.
      rewrite <- (length_map digit_of l1) at 1. rewrite set_nth_app.
      unfold embed. rewrite ?map_app. cbn [map]. rewrite ?map_app. cbn [map].
      rewrite <- ?app_assoc. reflexivity.
    + apply Nat.eqb_neq in E1.
      replace ((- Z.of_nat (S (length l2)) - 1 =? -1 * Z.of_nat (length l1 + S (length l2)))%Z)
        with false by (symmetry; apply Z.eqb_neq; lia).
      f_equal. lia.
Qed.

(** The loop from index [-(S (length post))] on: the digits behind the
    visited one are [post], the digits before it, nearest first, are [q]. *)
Lemma counter_carry_cons (x : nat) (q : list nat) :
  counter_carry (x :: q)
  = if S x <? base then Some (S x :: q)
    else option_map (cons 0) (counter_carry q).
Proof. reflexivity. Qed.

Lemma next_loop_carry (q : list nat) :
  forall (x : nat) (post : list nat) (a : nat) (fuel : nat),
    length q < fuel -> x < base -> Forall (fun d => d < base) q ->
    Token.next_loop fuel (- Z.of_nat (S (length post)))
      (embed ((a :: rev q) ++ x :: post))
    = Some (embed (match counter_carry (x :: q) with
                   | Some l' => (a :: rev l') ++ post
                   | None => (a :: repeat 0 (S (length q))) ++ post ++ [0]
                   end)).
Proof.
  induction q as [|y q IH]; intros x post a fuel Hfuel Hx Hq;
    (destruct fuel as [|fuel]; [simpl in Hfuel; lia|]);
    rewrite next_loop_step by (try discriminate; exact Hx);
    rewrite counter_carry_cons; destruct (S x <? base) eqn:E.
  - cbn [rev app]. reflexivity.
  - cbn [rev app length Nat.eqb option_map repeat counter_carry]. reflexivity.
  - cbn [rev app]. rewrite <- ?app_assoc. cbn [app]. reflexivity.
  - inversion Hq as [|? ? Hy Hq']; subst.
    replace (length (a :: rev (y :: q)) =? 1) with false.
    2:{ symmetry. apply Nat.eqb_neq. cbn [length rev].
        rewrite length_app. cbn [length]. lia. }
    cbn [rev]. rewrite app_comm_cons, <- app_assoc. cbn [app].
    change (S (S (length post))) with (S (length (0 :: post))).
    change (a :: rev q ++ y :: 0 :: post) with ((a :: rev q) ++ y :: 0 :: post).
    rewrite IH by (try assumption; simpl in Hfuel; lia).
    f_equal. f_equal.
    destruct (counter_carry (y :: q)) as [l'|]; cbn [option_map].
    + cbn [rev app]. now rewrite <- !app_assoc.
    + cbn [length repeat app]. now rewrite repeat_middle.
Qed.

Lemma repeat_snoc {A : Type} (a : A) (n : nat) :
  repeat a n ++ [a] = repeat a (S n).
Proof. rewrite repeat_middle. simpl. now rewrite app_nil_r. Qed.

Lemma significance_repeat {A : Type} (a : A) (n : nat) :
  significance (repeat a n) = repeat a n.
Proof. destruct n; simpl; [reflexivity|]. now rewrite rev_repeat. Qed.

Lemma significance_involutive {A : Type} (l : list A) :
  significance (significance l) = l.
Proof. destruct l; simpl; [reflexivity|]. now rewrite rev_involutive. Qed.

Lemma significance_length {A : Type} (l : list A) :
  length (significance l) = length l.
Proof. destruct l; simpl; [reflexivity|]. now rewrite length_rev. Qed.

(** The first iteration of the loop, at index 0. *)
Lemma next_loop_first (fuel : nat) (a : nat) (rest : list nat) :
  a < base ->
  Token.next_loop (S fuel) 0 (embed (a :: rest))
  = if S a <? base then Some (embed (S a :: rest))
    else if length rest =? 0 then Some (embed [0; 0])
    else Token.next_loop fuel (-1) (embed (0 :: rest)).
Proof.
  intros Ha. cbn [Token.next_loop].
  rewrite embed_digits_length, embed_generators_length. cbn [length].
  replace ((0 - Z.of_nat (S (length rest)) <? 0)%Z) with true
    by (symmetry; apply Z.ltb_lt; lia).
  cbn [negb]. rewrite py_index_front by lia.
  unfold embed. cbn [Token.generators Token.digits map nth_error].
  unfold set_nth. cbn [firstn skipn app].
  destruct (S a <? base) eqn:E.
  - apply Nat.ltb_lt in E. now rewrite gen_next_advance by exact E.
  - apply Nat.ltb_ge in E. rewrite gen_next_stop by lia.
    rewrite gen_next_fresh. cbv zeta. cbn [length]. rewrite length_map.
    destruct rest as [|b rest]; [reflexivity|].
    cbn [length Nat.eqb].
    replace ((0 - 1 =? -1 * Z.of_nat (S (S (length rest))))%Z) with false
      by (symmetry; apply Z.eqb_neq; lia).
    reflexivity.
Qed.

(** [__next__] on an allocator with stored digits [vals] is the counter
    step on the digits in the order of significance. *)
Lemma next_embed (vals : list nat) :
  vals <> [] -> Forall (fun d => d < base) vals ->
  Token.next (embed vals)
  = let tk' := embed (significance (counter_next (significance vals))) in
    Some (Token.token tk', tk').
Proof.
  intros Hne Hall. destruct vals as [|a rest]; [congruence|]. clear Hne.
  inversion Hall as [|? ? Ha Hrest]; subst.
  unfold Token.next. rewrite embed_digits_length. cbn [length].
  rewrite next_loop_first by exact Ha.
  cbn [significance]. unfold counter_next. rewrite counter_carry_cons.
  destruct (S a <? base) eqn:E.
  - cbn [significance]. now rewrite rev_involutive.
  - destruct rest as [|b rest'] using rev_ind; [reflexivity|]. clear IHrest'.
    replace (length (rest' ++ [b]) =? 0) with false
      by (symmetry; apply Nat.eqb_neq; rewrite length_app; simpl; lia).
    apply Forall_app in Hrest. destruct Hrest as [Hr Hb].
    inversion Hb; subst.
    pose proof (next_loop_carry (rev rest') b [] 0 (length (rest' ++ [b]))) as Hloop.
    rewrite rev_involutive in Hloop. cbn [length app] in Hloop.
    change (- Z.of_nat 1)%Z with (-1)%Z in Hloop.
    rewrite Hloop;
      [|rewrite ?length_app, ?length_rev; simpl; lia|assumption
       |apply Forall_rev; assumption].
    rewrite rev_app_distr. cbn [rev app].
    destruct (counter_carry (b :: rev rest')) as [l'|]; cbn [option_map].
    + cbn [significance]. rewrite app_nil_r. reflexivity.
    + rewrite significance_repeat. cbn [length]. rewrite length_rev.
      change (0 :: repeat 0 (S (length rest')) ++ [0])
        with (repeat 0 (S (S (length rest'))) ++ [0]).
      now rewrite repeat_snoc.
Qed.

Lemma significance_Forall {A : Type} (P : A -> Prop) (l : list A) :
  Forall P l -> Forall P (significance l).
Proof.
  destruct l; simpl; [auto|]. intros H. inversion H; subst.
  constructor; [assumption|]. now apply Forall_rev.
Qed.

Lemma significance_nil {A : Type} (l : list A) : significance l = [] -> l = [].
Proof. destruct l; simpl; [auto|discriminate]. Qed.

(** *** The counter *)

Lemma counter_carry_some (l : list nat) :
  forall l', Forall (fun d => d < base) l -> counter_carry l = Some l' ->
    length l' = length l
    /\ counter_value l' = S (counter_value l)
    /\ Forall (fun d => d < base) l'.
Proof.
  induction l as [|d ds IH]; intros l' Hall H; [discriminate|].
  inversion Hall; subst.
  rewrite counter_carry_cons in H. destruct (S d <? base) eqn:E.
  - inversion H; subst. apply Nat.ltb_lt in E. repeat split.
    constructor; assumption.
  - apply Nat.ltb_ge in E.
    destruct (counter_carry ds) as [ds'|]; [|discriminate].
    inversion H; subst. destruct (IH ds' H3 eq_refl) as [Hl [Hv Hf]].
    cbn [length counter_value]. repeat split; [lia| |].
    + rewrite Hv, Nat.mul_succ_r. lia.
    + constructor; [rewrite base_62; lia|auto].
Qed.

Lemma counter_carry_none (l : list nat) :
  Forall (fun d => d < base) l -> counter_carry l = None ->
  S (counter_value l) = base ^ length l.
Proof.
  induction l as [|d ds IH]; intros Hall H; [reflexivity|].
  inversion Hall; subst.
  rewrite counter_carry_cons in H. destruct (S d <? base) eqn:E; [discriminate|].
  apply Nat.ltb_ge in E.
  destruct (counter_carry ds) as [ds'|]; [discriminate|].
  specialize (IH H3 eq_refl). cbn [length counter_value].
  rewrite Nat.pow_succ_r', <- IH, Nat.mul_succ_r. lia.
Qed.

Lemma counter_value_zeros (n : nat) : counter_value (repeat 0 n) = 0.
Proof. induction n; simpl; [reflexivity|]. rewrite IHn. lia. Qed.

Lemma counter_next_rank (l : list nat) :
  Forall (fun d => d < base) l -> rank (counter_next l) = S (rank l).
Proof.
  intros Hall. unfold counter_next, rank.
  destruct (counter_carry l) as [l'|] eqn:E.
  - destruct (counter_carry_some l l' Hall E) as [Hl [Hv _]]. rewrite Hl, Hv. lia.
  - apply counter_carry_none in E; [|assumption].
    rewrite repeat_length, counter_value_zeros. cbn [shorter]. lia.
Qed.

Lemma counter_next_Forall (l : list nat) :
  Forall (fun d => d < base) l -> Forall (fun d => d < base) (counter_next l).
Proof.
  intros Hall. unfold counter_next.
  destruct (counter_carry l) as [l'|] eqn:E.
  - now apply (counter_carry_some l l' Hall E).
  - apply Forall_forall. intros x Hx. apply repeat_spec in Hx. subst.
    rewrite base_62. lia.
Qed.

Lemma counter_next_nonempty (l : list nat) : counter_next l <> [].
Proof.
  unfold counter_next. destruct (counter_carry l) as [l'|] eqn:E.
  - destruct l as [|d ds]; [discriminate|].
    rewrite counter_carry_cons in E.
    destruct (S d <? base); [inversion E; discriminate|].
    destruct (counter_carry ds); inversion E. discriminate.
  - discriminate.
Qed.

(** *** Symbols *)

Lemma value_of_digit_of (v : nat) : v < base -> value_of (digit_of v) = v.
Proof.
  rewrite base_62. intros H.
  do 62 (destruct v as [|v]; [reflexivity|]). lia.
Qed.

Lemma values_of_digits (vals : list nat) :
  Forall (fun d => d < base) vals -> map value_of (map digit_of vals) = vals.
Proof.
  induction 1 as [|v vals Hv Hall IH]; simpl; [reflexivity|].
  now rewrite value_of_digit_of, IH.
Qed.

Lemma counter_of_embed (vals : list nat) :
  Forall (fun d => d < base) vals -> counter_of (embed vals) = significance vals.
Proof.
  intros H. unfold counter_of, embed. cbn [Token.digits].
  now rewrite values_of_digits.
Qed.

Lemma token_embed_inj (v1 v2 : list nat) :
  Forall (fun d => d < base) v1 -> Forall (fun d => d < base) v2 ->
  Token.token (embed v1) = Token.token (embed v2) -> v1 = v2.
Proof.
  intros H1 H2 H. unfold Token.token, embed in H. cbn [Token.digits] in H.
  apply app_inv_head in H. apply app_inv_tail in H.
  rewrite <- (values_of_digits v1 H1), <- (values_of_digits v2 H2).
  now rewrite H.
Qed.

(** *** Reachable allocators *)

Lemma after_embed (n : nat) :
  exists vals,
    Token.after n = Some (embed vals)
    /\ vals <> [] /\ Forall (fun d => d < base) vals
    /\ rank (significance vals) = S n.
Proof.
  induction n as [|n [vals [Ha [Hne [Hall Hr]]]]].
  - exists [0]. repeat split; [discriminate|].
    constructor; [rewrite base_62; lia|constructor].
  - exists (significance (counter_next (significance vals))).
    cbn [Token.after]. rewrite Ha, next_embed by assumption.
    cbn [option_map snd]. split; [reflexivity|].
    assert (Hs : Forall (fun d => d < base) (significance vals))
      by now apply significance_Forall.
    split.
    + intros H. apply significance_nil in H. now apply counter_next_nonempty in H.
    + split.
      * apply significance_Forall. now apply counter_next_Forall.
      * rewrite significance_involutive, counter_next_rank by assumption.
        now rewrite Hr.
Qed.

Lemma after_inj (i j : nat) (tk1 tk2 : Token.t) :
  Token.after i = Some tk1 -> Token.after j = Some tk2 ->
  Token.token tk1 = Token.token tk2 -> i = j.
Proof.
  intros H1 H2 H.
  destruct (after_embed i) as [v1 [Ha1 [_ [Hf1 Hr1]]]].
  destruct (after_embed j) as [v2 [Ha2 [_ [Hf2 Hr2]]]].
  rewrite Ha1 in H1. rewrite Ha2 in H2. inversion H1; inversion H2; subst.
  apply token_embed_inj in H; [|assumption..]. subst. congruence.
Qed.

Lemma issued_spec (n : nat) :
  length (Token.issued n) = n
  /\ forall s, In s (Token.issued n) ->
       exists i tk, 1 <= i <= n /\ Token.after i = Some tk /\ s = Token.token tk.
Proof.
  induction n as [|n [IHl IHs]]; [split; [reflexivity|intros s []]|].
  cbn [Token.issued].
  destruct (after_embed n) as [vals [Ha [Hne [Hall _]]]].
  rewrite Ha, next_embed by assumption. cbv zeta.
  split; [rewrite length_app; simpl; lia|].
  intros s Hin. apply in_app_iff in Hin. destruct Hin as [Hin|[Hin|[]]].
  - destruct (IHs s Hin) as [i [tk [Hi [Hai Hs]]]].
    exists i, tk. repeat split; [lia|lia|assumption|assumption].
  - exists (S n), (embed (significance (counter_next (significance vals)))).
    repeat split; [lia|lia| |now symmetry].
    cbn [Token.after]. now rewrite Ha, next_embed by assumption.
Qed.

Lemma issued_NoDup (n : nat) : NoDup (Token.issued n).
Proof.
  induction n as [|n IH]; [constructor|].
  cbn [Token.issued].
  destruct (after_embed n) as [vals [Ha [Hne [Hall _]]]].
  rewrite Ha, next_embed by assumption. cbv zeta.
  apply NoDup_app; [exact IH|repeat constructor; simpl; tauto|].
  intros s Hin [Hs|[]]. subst s.
  destruct (proj2 (issued_spec n) _ Hin) as [i [tk [Hi [Hai Hs]]]].
  assert (Hn : Token.after (S n)
               = Some (embed (significance (counter_next (significance vals))))).
  { cbn [Token.after]. now rewrite Ha, next_embed by assumption. }
  pose proof (after_inj _ _ _ _ Hn Hai Hs). lia.
Qed.


(** C8: a fresh allocator reads [<0>]; the first call of [__next__] returns
    [<1>] and the allocator then reads [<1>]; for every [n] the first [n]
    calls all return a token and the [n] tokens are pairwise distinct; any
    number of readings in a row returns the same text and leaves the
    allocator as it is. *)
Theorem token_sequence :
  Token.current Token.init = (txt "<0>", Token.init)
  /\ (exists tk1, Token.next Token.init = Some (txt "<1>", tk1)
                  /\ fst (Token.current tk1) = txt "<1>")
  /\ (forall n, length (Token.issued n) = n /\ NoDup (Token.issued n))
  /\ (forall tk k, Token.currents k tk = (repeat (Token.token tk) k, tk)).
Proof.
  split; [reflexivity|].
  split; [exists (Token.mk [2] (txt "1")); split; vm_compute; reflexivity|].
  split.
  - intros n. split; [apply issued_spec|apply issued_NoDup].
  - intros tk k. induction k as [|k IH]; [reflexivity|].
    cbn [Token.currents Token.current]. now rewrite IH.
Qed.

(** C7, as stated: after 63 calls the allocator reads [<10>]; its digits,
    most significant first, are 0 and 1. *)
Lemma most_significant_first_claim_fails : ~ most_significant_first_claim.
Proof.
  intros H.
  assert (Ha : Token.after 63 = Some (Token.mk [2; 1] (txt "10")))
    by (vm_compute; reflexivity).
  specialize (H 63 _ Ha). clear Ha. apply text_eqb_eq in H.
  vm_compute in H. discriminate H.
Qed.

(** C7, amended: on every allocator reachable from a fresh one [__next__]
    returns, and it is the step of the counter of the specification on the
    digits taken in the order index 0, -1, -2, ...: the least significant
    digit advances, a wrapped digit is reset and the carry moves on, and a
    carry past the last digit appends a digit at the first symbol.  The
    text returned is that of the new allocator: the stored digits between
    angle brackets, that is the least significant digit first, followed by
    the other digits from the most significant down. *)
Theorem next_is_counter_step (n : nat) :
  exists tk s tk',
    Token.after n = Some tk
    /\ Token.next tk = Some (s, tk')
    /\ counter_of tk' = counter_next (counter_of tk)
    /\ s = Token.token tk'
    /\ Token.token tk'
       = txt "<" ++ map digit_of (significance (counter_of tk')) ++ txt ">".
Proof.
  destruct (after_embed n) as [vals [Ha [Hne [Hall _]]]].
  pose proof (significance_Forall _ _ Hall) as Hs.
  pose proof (counter_next_Forall _ Hs) as Hn.
  pose proof (significance_Forall _ _ Hn) as Hsn.
  exists (embed vals). do 2 eexists.
  split; [exact Ha|]. split; [now apply next_embed|]. cbv zeta.
  rewrite !counter_of_embed by assumption.
  rewrite !significance_involutive.
  repeat split.
Qed.

(** ** Scanning *)

Section Scan.

Context {X : Type} (m : matcher X).

Lemma scan_source (s : text) :
  bounded m -> forall k, k <= length s ->
  concat (map source (scan m k s)) = skipn k s.
Proof.
  intros Hb. induction s as [|c s IH]; intros k Hk.
  - now destruct k.
  - destruct k as [|k]; cbn [scan].
    + destruct (m (c :: s)) as [[[|n] x]|] eqn:E.
      * cbn [map concat source]. rewrite IH by lia. reflexivity.
      * apply Hb in E. cbn [length] in E.
        cbn [map concat source]. rewrite IH by lia.
        cbn [firstn app skipn]. f_equal. apply firstn_skipn.
      * cbn [map concat source]. rewrite IH by lia. reflexivity.
    + cbn [skipn]. apply IH. simpl in Hk. lia.
Qed.

Lemma scan_matched (s : text) :
  bounded m -> forall k, Forall (matched_by m) (scan m k s).
Proof.
  intros Hb. induction s as [|c s IH]; intros k; [constructor|].
  destruct k as [|k]; cbn [scan]; [|apply IH].
  destruct (m (c :: s)) as [[[|n] x]|] eqn:E;
    constructor; try apply IH; try exact I.
  pose proof (Hb _ _ _ E) as Hn.
  assert (Hl : length (firstn (S n) (c :: s)) = S n)
    by (apply firstn_length_le; exact Hn).
  cbn [matched_by]. exists (c :: s). rewrite Hl.
  repeat split; [exact E|lia].
Qed.

Lemma re_sub_source (s : text) :
  bounded m -> concat (map source (scan m 0 s)) = s.
Proof. intros Hb. now rewrite scan_source by (assumption || lia). Qed.

(** Without a match the text is returned as it is. *)
Lemma re_sub_no_match (repl : X -> text) (s : text) :
  bounded m -> re_count m s = 0 -> re_sub m repl s = s.
Proof.
  intros Hb Hc. unfold re_sub, re_count in *.
  rewrite <- (re_sub_source s Hb) at 2. revert Hc.
  generalize (scan m 0 s) as ps.
  induction ps as [|p ps IH]; intros Hc; [reflexivity|].
  cbn [map concat filter] in *. destruct p as [c|mt x]; cbn [is_match] in Hc.
  - cbn [render source]. f_equal. now apply IH.
  - discriminate.
Qed.

End Scan.

Lemma additive_length : additive (@length ascii).
Proof. split; [reflexivity|apply length_app]. Qed.

Lemma additive_spaces : additive count_space.
Proof.
  split; [reflexivity|]. intros a b. unfold count_space. apply count_occ_app.
Qed.

Lemma additive_concat (mu : text -> nat) (l : list text) :
  additive mu -> mu (concat l) = list_sum (map mu l).
Proof.
  intros [H0 Happ]. induction l as [|a l IH]; simpl; [exact H0|].
  now rewrite Happ, IH.
Qed.

Section Shrink.

Context {X : Type} (m : matcher X) (repl : X -> text) (mu : text -> nat).
Hypothesis Hb : bounded m.
Hypothesis Hmu : additive mu.

(** If every replacement weighs no more than what it replaces, the result
    weighs no more than the text. *)
Lemma re_sub_le (s : text) :
  (forall p, matched_by m p -> mu (render repl p) <= mu (source p)) ->
  mu (re_sub m repl s) <= mu s.
Proof.
  intros Hp. unfold re_sub.
  replace (mu s) with (mu (concat (map source (scan m 0 s))))
    by now rewrite re_sub_source.
  pose proof (scan_matched m s Hb 0) as Hall.
  rewrite !additive_concat by assumption.
  revert Hall. generalize (scan m 0 s) as ps.
  induction 1 as [|p ps Hm Hall IH]; simpl; [lia|].
  specialize (Hp p Hm). lia.
Qed.

(** If every replacement weighs [d] less than what it replaces, the result
    weighs [d] less per match. *)
Lemma re_sub_exact (s : text) (w v : nat) :
  (forall mt x, matched_by m (Match mt x) -> mu mt = w /\ mu (repl x) = v) ->
  mu (re_sub m repl s) + re_count m s * w = mu s + re_count m s * v.
Proof.
  intros Hp. unfold re_sub, re_count.
  replace (mu s) with (mu (concat (map source (scan m 0 s))))
    by now rewrite re_sub_source.
  pose proof (scan_matched m s Hb 0) as Hall.
  rewrite !additive_concat by assumption.
  revert Hall. generalize (scan m 0 s) as ps.
  induction 1 as [|p ps Hm Hall IH]; simpl; [lia|].
  destruct p as [c|mt x]; cbn [is_match render source length].
  - lia.
  - destruct (Hp mt x Hm) as [H1 H2]. cbn [length]. rewrite H1, H2. lia.
Qed.

End Shrink.

(** If every replacement is shorter than what it replaces, the result is
    shorter than the text or is the text. *)
Lemma re_sub_shorter {X : Type} (m : matcher X) (repl : X -> text) (s : text) :
  bounded m ->
  (forall mt x, matched_by m (Match mt x) -> length (repl x) < length mt) ->
  length (re_sub m repl s) <= length s
  /\ (length (re_sub m repl s) = length s -> re_sub m repl s = s).
Proof.
  intros Hb Hp.
  assert (Hle : length (re_sub m repl s) <= length s).
  { apply re_sub_le; [assumption|apply additive_length|].
    intros [c|mt x] Hm; cbn [render source]; [lia|].
    specialize (Hp mt x Hm). lia. }
  split; [exact Hle|]. intros Heq.
  apply re_sub_no_match; [assumption|].
  destruct (re_count m s) as [|n] eqn:E; [reflexivity|exfalso].
  revert Heq E. unfold re_sub, re_count.
  replace (length s) with (length (concat (map source (scan m 0 s))))
    by now rewrite re_sub_source.
  pose proof (scan_matched m s Hb 0) as Hall.
  rewrite !additive_concat by apply additive_length.
  assert (Hgen : forall ps, Forall (matched_by m) ps ->
            list_sum (map (@length ascii) (map (render repl) ps))
            <= list_sum (map (@length ascii) (map source ps))
            /\ (length (filter is_match ps) <> 0 ->
                list_sum (map (@length ascii) (map (render repl) ps))
                < list_sum (map (@length ascii) (map source ps)))).
  { induction 1 as [|p ps Hm Hps [IH1 IH2]]; simpl; [split; [lia|congruence]|].
    destruct p as [c|mt x]; cbn [is_match render source length].
    - split; [lia|]. intros Hn. specialize (IH2 Hn). lia.
    - specialize (Hp mt x Hm). split; [lia|]. intros _. lia. }
  intros Heq E. destruct (Hgen _ Hall) as [_ H2].
  rewrite E in H2. specialize (H2 ltac:(discriminate)).
  apply Nat.lt_neq in H2. apply H2. exact Heq.
Qed.

(** ** The patterns of the module *)

Lemma starts_with_firstn (p s : text) :
  starts_with p s = true -> firstn (length p) s = p /\ length p <= length s.
Proof.
  revert s. induction p as [|a p IH]; intros s H; [split; [reflexivity|simpl; lia]|].
  destruct s as [|b s]; [discriminate|].
  cbn [starts_with] in H. apply andb_true_iff in H. destruct H as [Hab H].
  apply Ascii.eqb_eq in Hab. subst b.
  destruct (IH s H) as [H1 H2]. cbn [length firstn]. split; [now rewrite H1|lia].
Qed.

Lemma lazy_group_length (s g : text) :
  lazy_group s = Some g -> length g + 3 <= length s.
Proof.
  revert g. induction s as [|c s IH]; intros g H.
  - cbn in H. discriminate.
  - cbn [lazy_group] in H.
    destruct (starts_with marker (c :: s)) eqn:E.
    + inversion H; subst. apply starts_with_firstn in E.
      destruct E as [_ E]. exact E.
    + destruct (Ascii.eqb c newline); [discriminate|].
      destruct (lazy_group s) as [g'|]; [|discriminate].
      inversion H; subst. specialize (IH g' eq_refl). simpl. lia.
Qed.

Lemma greedy_group_length (s g : text) :
  greedy_group s = Some g -> length g + 1 <= length s.
Proof.
  revert g. induction s as [|c s IH]; intros g H; [discriminate|].
  cbn [greedy_group] in H.
  destruct (if Ascii.eqb c newline then None else greedy_group s) as [g'|] eqn:E.
  - inversion H; subst. destruct (Ascii.eqb c newline); [discriminate|].
    specialize (IH g' E). simpl. lia.
  - destruct (Ascii.eqb c "}" && at_dollar s); [|discriminate].
    inversion H; subst. simpl. lia.
Qed.

Lemma m_marked_length (s : text) (n : nat) (g : text) :
  m_marked s = Some (n, g) -> 6 <= n <= length s.
Proof.
  unfold m_marked. intros H.
  destruct (starts_with marker s) eqn:E; [|discriminate].
  destruct (lazy_group (skipn 3 s)) as [g'|] eqn:Eg; [|discriminate].
  inversion H; subst. apply lazy_group_length in Eg.
  rewrite length_skipn in Eg. lia.
Qed.

Lemma m_trailer_length (s : text) (n : nat) (g : text) :
  m_trailer s = Some (n, g) -> 3 <= n <= length s.
Proof.
  unfold m_trailer. intros H.
  destruct (starts_with (txt " {") s) eqn:E; [|discriminate].
  destruct (greedy_group (skipn 2 s)) as [g'|] eqn:Eg; [|discriminate].
  inversion H; subst. apply greedy_group_length in Eg.
  rewrite length_skipn in Eg. lia.
Qed.

Lemma m_literal_spec (l s : text) (n : nat) (x : unit) :
  m_literal l s = Some (n, x) ->
  n = length l /\ firstn n s = l /\ n <= length s.
Proof.
  unfold m_literal. intros H.
  destruct (starts_with l s) eqn:E; [|discriminate].
  inversion H; subst. apply starts_with_firstn in E. tauto.
Qed.

Lemma bounded_marked : bounded m_marked.
Proof. intros s n x H. now apply m_marked_length in H. Qed.

Lemma bounded_trailer : bounded m_trailer.
Proof. intros s n x H. now apply m_trailer_length in H. Qed.

Lemma bounded_literal (l : text) : bounded (m_literal l).
Proof. intros s n x H. now apply m_literal_spec in H. Qed.

Lemma matched_literal (l mt : text) (x : unit) :
  matched_by (m_literal l) (Match mt x) -> mt = l.
Proof.
  intros [s [Hm [Hmt _]]]. apply m_literal_spec in Hm.
  destruct Hm as [_ [Hf _]]. congruence.
Qed.

(** ** Bodies never grow *)

Lemma lstrip_suffix (s : text) : exists pre, s = pre ++ lstrip s.
Proof.
  induction s as [|c s [pre IH]]; [now exists []|].
  cbn [lstrip]. destruct (is_space c).
  - exists (c :: pre). simpl. now f_equal.
  - now exists [].
Qed.

Lemma rstrip_prefix (s : text) : exists tail, s = rstrip s ++ tail.
Proof.
  unfold rstrip. destruct (lstrip_suffix (rev s)) as [pre H].
  exists (rev pre). rewrite <- rev_app_distr, <- H. now rewrite rev_involutive.
Qed.

Lemma shrinking_rstrip : shrinking rstrip.
Proof.
  intros s. destruct (rstrip_prefix s) as [tail H].
  assert (Hl : length s = length (rstrip s) + length tail)
    by (rewrite H at 1; apply length_app).
  assert (Hc : count_space s = count_space (rstrip s) + count_space tail)
    by (rewrite H at 1; apply additive_spaces).
  repeat split; [lia|lia|].
  intros Heq. assert (tail = []) by (destruct tail; [reflexivity|simpl in Hl; lia]).
  subst tail. now rewrite app_nil_r in H.
Qed.

Lemma shrinking_compose (f g : text -> text) :
  shrinking f -> shrinking g -> shrinking (fun s => g (f s)).
Proof.
  intros Hf Hg s. destruct (Hf s) as [F1 [F2 F3]].
  destruct (Hg (f s)) as [G1 [G2 G3]].
  repeat split; [lia|lia|]. intros Heq.
  rewrite G3 by lia. apply F3. lia.
Qed.

Lemma shrinking_sub_marked : shrinking (re_sub m_marked (fun _ => txt "#")).
Proof.
  intros s. split.
  - apply re_sub_le; [apply bounded_marked|apply additive_spaces|].
    intros [c|mt x] _; cbn [render source]; [lia|]. cbn. lia.
  - apply re_sub_shorter; [apply bounded_marked|].
    intros mt x [s' [Hm _]]. apply m_marked_length in Hm. cbn. lia.
Qed.

Lemma shrinking_sub_trailer : shrinking (re_sub m_trailer (fun _ => [])).
Proof.
  intros s. split.
  - apply re_sub_le; [apply bounded_trailer|apply additive_spaces|].
    intros [c|mt x] _; cbn [render source]; [lia|]. cbn. lia.
  - apply re_sub_shorter; [apply bounded_trailer|].
    intros mt x [s' [Hm _]]. apply m_trailer_length in Hm. cbn. lia.
Qed.

Lemma shrinking_clean_encoding : shrinking clean_encoding.
Proof.
  intros s. destruct s as [|c s]; [cbn; repeat split; lia|].
  change (clean_encoding (c :: s))
    with ((fun s => re_sub m_trailer (fun _ => [])
                      (re_sub m_marked (fun _ => txt "#") s)) (c :: s)).
  apply (shrinking_compose _ _ shrinking_sub_marked shrinking_sub_trailer).
Qed.

Lemma shrinking_body : shrinking body.
Proof.
  intros s. unfold body, RegExCompressor.split_trailer. cbn [fst].
  apply (shrinking_compose _ _ shrinking_clean_encoding shrinking_rstrip).
Qed.

(** ** Rule application removes spaces *)

Lemma set_nth_In {A : Type} (i : nat) (x y : A) (l : list A) :
  In y (set_nth i x l) -> y = x \/ In y l.
Proof.
  unfold set_nth. revert l. induction i as [|i IH]; intros l H.
  - destruct l as [|a l]; simpl in H; destruct H as [H|H]; auto.
    right. now right.
  - destruct l as [|a l]; simpl in H.
    + destruct H as [H|[]]. auto.
    + destruct H as [H|H]; [right; now left|].
      destruct (IH l H); auto. right. now right.
Qed.

Lemma removelast_In {A : Type} (y : A) (l : list A) :
  In y (removelast l) -> In y l.
Proof.
  induction l as [|a l IH]; [auto|]. cbn [removelast].
  destruct l as [|b l]; [intros []|].
  intros [H|H]; [now left|right; auto].
Qed.

Lemma last_In {A : Type} (d : A) (l : list A) : l <> [] -> In (last l d) l.
Proof.
  induction l as [|a l IH]; [congruence|]. intros _. cbn [last].
  destruct l as [|b l]; [now left|]. right. apply IH. discriminate.
Qed.

Lemma count_space_cons (c : ascii) (s : text) :
  count_space (c :: s) = (if Ascii.eqb c space then 1 else 0) + count_space s.
Proof.
  unfold count_space. cbn [count_occ].
  destruct (ascii_dec c space) as [E|E].
  - subst. reflexivity.
  - apply Ascii.eqb_neq in E. now rewrite E.
Qed.

Lemma re_compile_spaces (n : nat) :
  forall p l, length p <= n -> re_compile p = Literal l ->
              count_space l = count_space p.
Proof.
  induction n as [|n IH]; intros p l Hn H.
  - destruct p; [|simpl in Hn; lia]. inversion H. reflexivity.
  - destruct p as [|c rest]; [inversion H; reflexivity|].
    cbn [re_compile] in H. destruct (Ascii.eqb c backslash) eqn:Ec.
    + apply Ascii.eqb_eq in Ec. subst c.
      destruct rest as [|d rest']; [discriminate|].
      destruct (is_digit d || is_ascii_letter d); [discriminate|].
      destruct (re_compile rest') as [l'| |] eqn:E; try discriminate.
      inversion H; subst. rewrite !count_space_cons.
      rewrite (IH rest' l') by (simpl in Hn; lia || assumption).
      reflexivity.
    + destruct (is_meta c); [discriminate|].
      destruct (re_compile rest) as [l'| |] eqn:E; try discriminate.
      inversion H; subst. rewrite !count_space_cons.
      rewrite (IH rest l') by (simpl in Hn; lia || assumption).
      reflexivity.
Qed.

Section Apply.

Import RegExCompressor.

Lemma apply_one_spaces (line : text) (r : RegExTuple.t) (line' : text) (c : nat) :
  rule_ok r -> apply_one line r = Ok (line', c) ->
  count_space line' + c <= count_space line /\ (c = 0 -> line' = line).
Proof.
  intros [Hsp Htok] H. unfold apply_one, re_subn in H.
  destruct (re_compile (RegExTuple.regex r)) as [l| |] eqn:E; try discriminate.
  destruct l as [|a l]; [discriminate|].
  destruct (mem_ascii backslash (RegExTuple.token r)); [discriminate|].
  inversion H; subst. clear H.
  apply (re_compile_spaces _ _ _ (Nat.le_refl _)) in E.
  apply (count_occ_not_In ascii_dec) in Htok. fold (count_space (RegExTuple.token r)) in Htok.
  split.
  - pose proof (re_sub_exact (m_literal (a :: l)) (fun _ => RegExTuple.token r)
                  count_space (bounded_literal _) additive_spaces line
                  (count_space (a :: l)) 0) as Hx.
    rewrite Nat.mul_0_r, Nat.add_0_r in Hx.
    assert (Hpieces : forall mt x, matched_by (m_literal (a :: l)) (Match mt x) ->
              count_space mt = count_space (a :: l)
              /\ count_space (RegExTuple.token r) = 0).
    { intros mt x Hm. apply matched_literal in Hm. now subst. }
    specialize (Hx Hpieces). rewrite E in Hx. nia.
  - intros Hc. apply re_sub_no_match; [apply bounded_literal|exact Hc].
Qed.

Lemma apply_rules_spaces (rules : list (text * RegExTuple.t)) :
  forall line c0 line' c,
    Forall (fun e => rule_ok (snd e)) rules ->
    apply_rules rules line c0 = Ok (line', c) ->
    c0 <= c /\ count_space line' + (c - c0) <= count_space line
    /\ (c = c0 -> line' = line).
Proof.
  induction rules as [|[k r] rules IH]; intros line c0 line' c Hall H;
    cbn [apply_rules] in H.
  - inversion H; subst. repeat split; lia.
  - inversion Hall as [|? ? Hr Hrest]; subst. cbn [snd] in Hr.
    bind_inv H. destruct a as [line1 d].
    destruct (apply_one_spaces _ _ _ _ Hr Hm) as [H1 H2].
    destruct (IH _ _ _ _ Hrest H) as [H3 [H4 H5]].
    repeat split; [lia|lia|].
    intros Hc. assert (d = 0) by lia. subst d.
    rewrite H5 by lia. now apply H2.
Qed.

End Apply.

(** ** Tokens hold no space *)

Lemma chars_no_space (c : ascii) : In c Token.chars -> c <> space.
Proof.
  intros Hin Hc. subst c. revert Hin. vm_compute. intuition discriminate.
Qed.

Lemma gen_next_no_space (g : nat) (c : ascii) (g' : nat) :
  Token.gen_next g = Some (c, g') -> c <> space.
Proof.
  unfold Token.gen_next. destruct (nth_error Token.chars g) as [c'|] eqn:E;
    [|discriminate].
  intros H. inversion H; subst. apply chars_no_space.
  eapply nth_error_In; eauto.
Qed.

Lemma set_nth_no_space (i : nat) (c : ascii) (l : text) :
  c <> space -> ~ In space l -> ~ In space (set_nth i c l).
Proof.
  intros Hc Hl Hin. apply set_nth_In in Hin. destruct Hin; congruence || auto.
Qed.

Lemma next_loop_no_space (fuel : nat) :
  forall index tk tk',
    ~ In space (Token.digits tk) ->
    Token.next_loop fuel index tk = Some tk' ->
    ~ In space (Token.digits tk').
Proof.
  induction fuel as [|fuel IH]; intros index tk tk' Hd H; cbn [Token.next_loop] in H.
  - destruct (negb _); [inversion H; now subst|discriminate].
  - destruct (negb _); [inversion H; now subst|].
    destruct (py_index (length (Token.generators tk)) index) as [gi|]; [|discriminate].
    destruct (nth_error (Token.generators tk) gi) as [g|]; [|discriminate].
    destruct (Token.gen_next g) as [[c g']|] eqn:Eg.
    + destruct (py_index (length (Token.digits tk)) index) as [di|]; [|discriminate].
      inversion H; subst. cbn [Token.digits].
      apply set_nth_no_space; [eapply gen_next_no_space; eauto|assumption].
    + destruct (Token.gen_next Token.get_gen) as [[c g']|] eqn:Ef; [|discriminate].
      destruct (py_index (length (Token.digits tk)) index) as [di|]; [|discriminate].
      cbv zeta in H.
      assert (Hs : ~ In space (set_nth di c (Token.digits tk)))
        by (apply set_nth_no_space; [eapply gen_next_no_space; eauto|assumption]).
      destruct (_ =? _)%Z.
      * inversion H; subst. cbn [Token.digits]. intros Hin.
        apply in_app_iff in Hin. destruct Hin as [Hin|[Hin|[]]]; [auto|].
        apply gen_next_no_space in Ef. congruence.
      * eapply IH; [|exact H]. exact Hs.
Qed.

Lemma next_no_space (tk : Token.t) (s : text) (tk' : Token.t) :
  ~ In space (Token.digits tk) -> Token.next tk = Some (s, tk') ->
  ~ In space (Token.digits tk') /\ ~ In space s.
Proof.
  unfold Token.next. intros Hd H.
  destruct (Token.next_loop _ _ tk) as [tk1|] eqn:E; [|discriminate].
  inversion H; subst. apply next_loop_no_space in E; [|assumption].
  split; [assumption|]. unfold Token.token. intros Hin.
  apply in_app_iff in Hin. destruct Hin as [[Hin|[]]|Hin]; [discriminate|].
  apply in_app_iff in Hin. destruct Hin as [Hin|[Hin|[]]]; [auto|discriminate].
Qed.

(** ** One pass *)

Section Pass.

Import PhraseNode RegExCompressor.

Lemma rules_ok_with_phrases (self : t) (ph : registry) :
  rules_ok self -> rules_ok (with_phrases self ph).
Proof. intros H. exact H. Qed.

Lemma gen_regex_ok (self : t) (node1 node2 : text) (r : option RegExTuple.t)
  (self' : t) :
  rules_ok self -> gen_regex self node1 node2 = Ok (r, self') ->
  rules_ok self'
  /\ forall rule, r = Some rule ->
       rule_ok rule
       /\ has (node1 ++ txt " " ++ node2) (_expressions self) = false
       /\ has (node1 ++ txt " " ++ node2) (_expressions self') = true.
Proof.
  intros [Hrules Htok] H. unfold gen_regex in H.
  destruct (has _ (_expressions self)) eqn:E.
  - inversion H; subst. split; [split; assumption|discriminate].
  - destruct (Token.next (token self)) as [[tok tk]|] eqn:En; [|discriminate].
    inversion H; subst. clear H.
    destruct (next_no_space _ _ _ Htok En) as [Hd Hs].
    assert (Hr : rule_ok (RegExTuple.mk (node1 ++ txt " " ++ node2)
                            (node1 ++ txt " " ++ node2) tok)).
    { split; [|exact Hs]. cbn [RegExTuple.regex].
      destruct additive_spaces as [_ Happ]. rewrite !Happ. cbn. lia. }
    split.
    + split; [|exact Hd]. cbn [_expressions]. rewrite set_fresh by exact E.
      apply Forall_app. split; [assumption|]. constructor; [exact Hr|constructor].
    + intros rule Hrule. inversion Hrule; subst.
      split; [exact Hr|]. split; [reflexivity|].
      cbn [_expressions]. rewrite set_fresh by exact E.
      apply has_in. rewrite map_app, in_app_iff. right. now left.
Qed.

Lemma has_extends_false (a b : t) (p : text) :
  extends a b -> has p (_expressions b) = false -> has p (_expressions a) = false.
Proof.
  intros He Hb. destruct (has p (_expressions a)) eqn:E; [|reflexivity].
  rewrite (extends_has _ _ _ He E) in Hb. discriminate.
Qed.

(** What the walk of some words leaves behind: well-formed rules and
    entries, and a new entry only together with a new rule for one of the
    phrases of the words. *)
Lemma map_words_spec (words : list text) :
  forall self lastnode at_root index todo self' todo',
    rules_ok self -> todo_ok todo ->
    map_words self lastnode at_root words index todo = Ok (self', todo') ->
    rules_ok self' /\ todo_ok todo'
    /\ (todo' = todo
        \/ exists p, In p (phrases_from lastnode words)
                     /\ has p (_expressions self) = false
                     /\ has p (_expressions self') = true).
Proof.
  induction words as [|word rest IH]; intros self lastnode at_root index todo
    self' todo' Hok Htodo H; cbn [map_words] in H.
  - inversion H; subst. auto.
  - destruct word as [|c word]; [apply IH in H; assumption|].
    cbn [phrases_from].
    bind_inv H. destruct a as [count ph].
    pose proof (rules_ok_with_phrases self ph Hok) as Hok1.
    destruct ((5 <=? count) && negb at_root).
    + bind_inv H. destruct a as [new_reg self2].
      pose proof (gen_regex_extends _ _ _ _ _ Hm0) as Hext.
      destruct (gen_regex_ok _ _ _ _ _ Hok1 Hm0) as [Hok2 Hnew].
      destruct new_reg as [r|].
      * destruct (Hnew r eq_refl) as [Hr [Hf Ht]].
        pose proof (map_words_extends _ _ _ _ _ _ _ _ H) as Hext2.
        apply IH in H; [|assumption|].
        2:{ apply Forall_app. split; [assumption|].
            constructor; [exact Hr|constructor]. }
        destruct H as [Hok' [Htodo' _]].
        split; [assumption|]. split; [assumption|]. right.
        exists (lastnode ++ txt " " ++ c :: word).
        split; [now left|]. split; [exact Hf|].
        eapply extends_has; eauto.
      * apply IH in H; [|assumption..].
        destruct H as [Hok' [Htodo' [Hsame|[p [Hin [Hf Ht]]]]]];
          (split; [assumption|]; split; [assumption|]); [now left|].
        right. exists p. split; [now right|]. split; [|assumption].
        eapply (has_extends_false (with_phrases self ph)); eauto.
    + apply IH in H; [|assumption..].
      destruct H as [Hok' [Htodo' [Hsame|[p [Hin [Hf Ht]]]]]];
        (split; [assumption|]; split; [assumption|]); [now left|].
      right. exists p. split; [now right|]. split; assumption.
Qed.

Lemma total_spaces_cons (l : text) (chunk : list text) :
  total_spaces (l :: chunk) = count_space l + total_spaces chunk.
Proof. reflexivity. Qed.

(** What the first loop leaves behind. *)
Lemma first_pass_spec (chunk : list text) :
  forall self index changes todo self' chunk' changes' todo',
    rules_ok self -> todo_ok todo ->
    first_pass self index chunk changes todo
    = Ok (self', chunk', changes', todo') ->
    rules_ok self' /\ todo_ok todo'
    /\ (todo' = todo
        \/ exists p, In p (candidates chunk)
                     /\ has p (_expressions self) = false
                     /\ has p (_expressions self') = true)
    /\ changes <= changes'
    /\ total_spaces chunk' + (changes' - changes) <= total_spaces chunk
    /\ (changes' = changes -> chunk' = map body chunk).
Proof.
  induction chunk as [|line0 rest IH]; intros self index changes todo
    self' chunk' changes' todo' Hok Htodo H; cbn [first_pass] in H.
  - inversion H; subst. split; [assumption|]. split; [assumption|].
    split; [now left|]. split; [lia|]. split; [cbn; lia|reflexivity].
  - pose proof (shrinking_body line0) as [Hsp _].
    unfold candidates. cbn [flat_map map]. fold (candidates rest).
    unfold body in Hsp |- *.
    destruct (split_trailer line0) as [line trailer]. cbn [fst] in *.
    bind_inv H. destruct a as [new_line delta].
    bind_inv H. destruct a as [self1 todo1].
    bind_inv H. destruct a as [[[self2 rest'] c2] todo2].
    inversion H; subst. clear H.
    destruct Hok as [Hrules Htok].
    destruct (apply_rules_spaces _ _ _ _ _ Hrules Hm) as [_ [Ha1 Ha2]].
    pose proof (map_words_extends _ _ _ _ _ _ _ _ Hm0) as Hext1.
    pose proof (first_pass_extends _ _ _ _ _ _ _ _ _ Hm1) as Hext2.
    apply map_words_spec in Hm0; [|split; assumption|assumption].
    destruct Hm0 as [Hok1 [Htodo1 Hnew1]].
    apply IH in Hm1; [|assumption..].
    destruct Hm1 as [Hok2 [Htodo2 [Hnew2 [Hc [Hs Hb]]]]].
    split; [assumption|]. split; [assumption|]. split.
    + destruct Hnew2 as [Hsame2|[p [Hin [Hf Ht]]]].
      * subst todo'. destruct Hnew1 as [Hsame1|[p [Hin [Hf Ht]]]]; [now left|].
        right. exists p. split; [apply in_app_iff; now left|].
        split; [assumption|]. eapply extends_has; eauto.
      * right. exists p. split; [apply in_app_iff; now right|].
        split; [|assumption]. eapply has_extends_false; eauto.
    + split; [lia|]. rewrite !total_spaces_cons. split; [lia|].
      intros Heq. assert (delta = 0) by lia. subst delta.
      rewrite Ha2 by lia. f_equal. apply Hb. lia.
Qed.

Lemma todo_loop_spec (n : nat) :
  forall pos todo line cur changes cur' changes' todo',
    todo_ok todo ->
    todo_loop n pos todo line cur changes = Ok (cur', changes', todo') ->
    todo_ok todo' /\ changes <= changes'
    /\ (cur' = cur \/ cur' = line \/ count_space cur' < count_space line)
    /\ (todo = [] -> changes' = changes /\ cur' = cur /\ todo' = []).
Proof.
  induction n as [|n IH]; intros pos todo line cur changes cur' changes' todo'
    Htodo H; cbn [todo_loop] in H.
  - inversion H; subst. repeat split; auto.
  - destruct (nth_error todo pos) as [[regex stopline]|] eqn:E.
    2:{ inversion H; subst. repeat split; auto. }
    pose proof (nth_error_In _ _ E) as Hin.
    assert (Hr : rule_ok regex).
    { unfold todo_ok in Htodo. rewrite Forall_forall in Htodo.
      exact (Htodo _ Hin). }
    bind_inv H. destruct a as [new_line delta].
    destruct (apply_one_spaces _ _ _ _ Hr Hm) as [Ha1 Ha2].
    apply IH in H.
    + destruct H as [Htodo' [Hc [Hcur _]]].
      split; [assumption|]. split; [lia|]. split.
      * destruct Hcur as [Hcur|[Hcur|Hcur]]; [|auto|auto].
        subst cur'. destruct delta as [|d]; [right; left; now apply Ha2|].
        right. right. lia.
      * intros Hnil. subst todo. destruct pos; discriminate.
    + destruct (_ && _); [|assumption].
      unfold todo_ok in *. rewrite Forall_forall in *. intros e He.
      apply set_nth_In in He. destruct He as [He|He].
      * subst e. apply Htodo. apply last_In. intros Hnil. rewrite Hnil in Hin.
        contradiction.
      * apply Htodo. now apply removelast_In.
Qed.

(** What the catch-up leaves behind: every line is kept or loses spaces. *)
Lemma catch_up_spec (chunk : list text) :
  forall changes todo chunk' changes',
    todo_ok todo ->
    catch_up chunk changes todo = Ok (chunk', changes') ->
    changes <= changes'
    /\ Forall2 (fun l l' => l' = l \/ count_space l' < count_space l) chunk chunk'
    /\ (todo = [] -> changes' = changes /\ chunk' = chunk).
Proof.
  induction chunk as [|line rest IH]; intros changes todo chunk' changes'
    Htodo H; cbn [catch_up] in H.
  - inversion H; subst. repeat split; auto.
  - bind_inv H. destruct a as [[cur c1] todo1].
    bind_inv H. destruct a as [rest' c2]. inversion H; subst. clear H.
    apply todo_loop_spec in Hm; [|assumption].
    destruct Hm as [Htodo1 [Hc1 [Hcur Hnil1]]].
    apply IH in Hm0; [|assumption].
    destruct Hm0 as [Hc2 [Hall Hnil2]].
    split; [lia|]. split.
    + constructor; [|assumption]. destruct Hcur as [H|[H|H]]; auto.
    + intros Hnil. destruct (Hnil1 Hnil) as [E1 [E2 E3]].
      destruct (Hnil2 E3) as [E4 E5]. subst. split; reflexivity.
Qed.

End Pass.

(** ** The measure of a window decreases *)

Lemma forall2_spaces (chunk chunk' : list text) :
  Forall2 (fun l l' => l' = l \/ count_space l' < count_space l) chunk chunk' ->
  total_spaces chunk' <= total_spaces chunk
  /\ (total_spaces chunk' = total_spaces chunk -> chunk' = chunk).
Proof.
  induction 1 as [|l l' chunk chunk' Hl Hall [IH1 IH2]];
    [split; [lia|reflexivity]|].
  rewrite !total_spaces_cons. destruct Hl as [Hl|Hl].
  - subst l'. split; [lia|]. intros Heq. f_equal. apply IH2. lia.
  - split; [lia|]. intros Heq. lia.
Qed.

Lemma total_length_cons (l : text) (chunk : list text) :
  total_length (l :: chunk) = length l + total_length chunk.
Proof. reflexivity. Qed.

Lemma total_length_body (chunk : list text) :
  total_length (map body chunk) <= total_length chunk
  /\ (total_length (map body chunk) = total_length chunk -> map body chunk = chunk).
Proof.
  induction chunk as [|l chunk [IH1 IH2]]; [split; [cbn; lia|reflexivity]|].
  destruct (shrinking_body l) as [_ [H1 H2]].
  cbn [map]. rewrite !total_length_cons.
  split; [lia|]. intros Heq. rewrite H2 by lia. f_equal. apply IH2. lia.
Qed.

Lemma total_spaces_body (chunk : list text) :
  total_spaces (map body chunk) <= total_spaces chunk.
Proof.
  induction chunk as [|l chunk IH]; [cbn; lia|].
  destruct (shrinking_body l) as [H1 _].
  cbn [map]. rewrite !total_spaces_cons. lia.
Qed.

Lemma filter_length_lt {A : Type} (f g : A -> bool) (l : list A) (x : A) :
  (forall y, g y = true -> f y = true) ->
  In x l -> f x = true -> g x = false ->
  length (filter g l) < length (filter f l).
Proof.
  intros Hgf. induction l as [|a l IH]; intros Hin Hf Hg; [contradiction|].
  assert (Hle : forall l', length (filter g l') <= length (filter f l')).
  { induction l' as [|b l' IH']; [simpl; lia|]. simpl.
    destruct (g b) eqn:Eg; [rewrite (Hgf _ Eg); simpl; lia|].
    destruct (f b); simpl; lia. }
  simpl. destruct Hin as [Hin|Hin].
  - subst a. rewrite Hf, Hg. simpl. specialize (Hle l). lia.
  - specialize (IH Hin Hf Hg).
    destruct (g a) eqn:Eg; [rewrite (Hgf _ Eg); simpl; lia|].
    destruct (f a); simpl; lia.
Qed.

Section Measure.

Import PhraseNode RegExCompressor.

Lemma pending_decreases (self self' : t) (chunk : list text) (p : text) :
  extends self self' -> In p (candidates chunk) ->
  has p (_expressions self) = false -> has p (_expressions self') = true ->
  pending self' chunk < pending self chunk.
Proof.
  intros Hext Hin Hf Ht. unfold pending.
  apply (filter_length_lt _ _ _ p).
  - intros y Hy. apply negb_true_iff in Hy. apply negb_true_iff.
    eapply has_extends_false; eauto.
  - now apply nodup_In.
  - now rewrite Hf.
  - now rewrite Ht.
Qed.

(** A pass keeps the rules well formed and never adds a space; a pass that
    reports changes removes a space, or else only strips the lines, or else
    leaves the window as it is and gives a rule to one of its phrases. *)
Lemma press_mainloop_decreases (self : t) (chunk : list text) (changes : nat)
  (self' : t) (chunk' : list text) :
  rules_ok self ->
  press_mainloop self chunk = Ok (changes, self', chunk') ->
  rules_ok self'
  /\ total_spaces chunk' <= total_spaces chunk
  /\ (changes <> 0 ->
      total_spaces chunk' < total_spaces chunk
      \/ (total_spaces chunk' = total_spaces chunk
          /\ total_length chunk' < total_length chunk)
      \/ (chunk' = chunk /\ pending self' chunk < pending self chunk)).
Proof.
  intros Hok H. unfold press_mainloop in H.
  bind_inv H. destruct a as [[[self1 chunk1] c1] todo].
  bind_inv H. destruct a as [chunk2 c2]. inversion H; subst. clear H.
  pose proof (first_pass_extends _ _ _ _ _ _ _ _ _ Hm) as Hext.
  apply first_pass_spec in Hm; [|assumption|constructor].
  destruct Hm as [Hok1 [Htodo [Hnew [_ [Hs1 Hb1]]]]].
  rewrite Nat.sub_0_r in Hs1.
  apply catch_up_spec in Hm0; [|assumption].
  destruct Hm0 as [Hc [Hall Hnil]].
  destruct (forall2_spaces _ _ Hall) as [Hs2 Hsame].
  split; [assumption|]. split; [lia|]. intros Hchanges.
  destruct (Nat.eq_dec (total_spaces chunk') (total_spaces chunk)) as [Heq|Hne];
    [|left; lia].
  right. assert (c1 = 0) by lia. subst c1.
  rewrite Hsame, Hb1 in * by lia.
  destruct (total_length_body chunk) as [Hl1 Hl2].
  destruct (Nat.eq_dec (total_length (map body chunk)) (total_length chunk))
    as [Hleq|Hlne]; [|left; split; [assumption|lia]].
  right. split; [now apply Hl2|].
  destruct Hnew as [Hnone|[p [Hin [Hf Ht]]]].
  - subst todo. destruct (Hnil eq_refl) as [E _]. lia.
  - eapply pending_decreases; eauto.
Qed.

(** The methods below [press] run no unbounded loop. *)
Lemma finished_bind {A B : Type} (x : outcome A) (f : A -> outcome B) :
  finished x -> (forall a, finished (f a)) -> finished (bind x f).
Proof.
  intros Hx Hf. destruct x; simpl; [apply Hf|discriminate|discriminate|].
  now elim Hx.
Qed.

Lemma finished_apply_one (line : text) (r : RegExTuple.t) :
  finished (apply_one line r).
Proof.
  unfold apply_one, re_subn.
  destruct (re_compile _) as [[|a l]| |]; try discriminate.
  destruct (mem_ascii _ _); discriminate.
Qed.

Lemma finished_apply_rules (rules : list (text * RegExTuple.t)) :
  forall line c, finished (apply_rules rules line c).
Proof.
  induction rules as [|[k r] rules IH]; intros line c; cbn [apply_rules];
    [discriminate|].
  apply finished_bind; [apply finished_apply_one|]. intros [l d]. apply IH.
Qed.

Lemma finished_add_node (a b : text) (ph : registry) : finished (add_node a b ph).
Proof.
  unfold add_node. destruct (get a ph); [|discriminate].
  destruct (get b ph); [|discriminate].
  destruct (get b _); discriminate.
Qed.

Lemma finished_gen_regex (self : t) (a b : text) : finished (gen_regex self a b).
Proof.
  unfold gen_regex. destruct (has _ _); [discriminate|].
  destruct (Token.next _) as [[s tk]|]; discriminate.
Qed.

Lemma finished_map_words (words : list text) :
  forall self lastnode at_root index todo,
    finished (map_words self lastnode at_root words index todo).
Proof.
  induction words as [|word rest IH]; intros self lastnode at_root index todo;
    cbn [map_words]; [discriminate|].
  destruct word as [|c word]; [apply IH|].
  apply finished_bind; [apply finished_add_node|]. intros [count ph].
  destruct (_ && _); [|apply IH].
  apply finished_bind; [apply finished_gen_regex|]. intros [[r|] self2]; apply IH.
Qed.

Lemma finished_first_pass (chunk : list text) :
  forall self index changes todo,
    finished (first_pass self index chunk changes todo).
Proof.
  induction chunk as [|line0 rest IH]; intros self index changes todo;
    cbn [first_pass]; [discriminate|].
  destruct (split_trailer line0) as [line trailer].
  apply finished_bind; [apply finished_apply_rules|]. intros [l d].
  apply finished_bind; [apply finished_map_words|]. intros [self1 todo1].
  apply finished_bind; [apply IH|]. intros [[[s r] c] t]. discriminate.
Qed.

Lemma finished_todo_loop (n : nat) :
  forall pos todo line cur changes,
    finished (todo_loop n pos todo line cur changes).
Proof.
  induction n as [|n IH]; intros pos todo line cur changes; cbn [todo_loop];
    [discriminate|].
  destruct (nth_error todo pos) as [[regex stopline]|]; [|discriminate].
  apply finished_bind; [apply finished_apply_one|]. intros [l d]. apply IH.
Qed.

Lemma finished_catch_up (chunk : list text) :
  forall changes todo, finished (catch_up chunk changes todo).
Proof.
  induction chunk as [|line rest IH]; intros changes todo; cbn [catch_up];
    [discriminate|].
  apply finished_bind; [apply finished_todo_loop|]. intros [[cur c1] todo1].
  apply finished_bind; [apply IH|]. intros [r c]. discriminate.
Qed.

Lemma finished_press_mainloop (self : t) (chunk : list text) :
  finished (press_mainloop self chunk).
Proof.
  unfold press_mainloop.
  apply finished_bind; [apply finished_first_pass|]. intros [[[s c] n] t].
  apply finished_bind; [apply finished_catch_up|]. intros [c2 n2]. discriminate.
Qed.

(** The loop of [press] stops: by induction on the number of spaces, then
    on the length of the window, then on the number of pending phrases. *)
Lemma press_loop_terminates (s : nat) :
  forall l u self chunk,
    rules_ok self ->
    total_spaces chunk = s -> total_length chunk = l -> pending self chunk = u ->
    exists fuel, finished (press_loop fuel self chunk).
Proof.
  induction s as [s IHs] using lt_wf_ind. intros l.
  induction l as [l IHl] using lt_wf_ind. intros u.
  induction u as [u IHu] using lt_wf_ind.
  intros self chunk Hok Hs Hl Hu.
  destruct (press_mainloop self chunk) as [[[changes self1] chunk1]|e| |] eqn:E.
  - destruct (press_mainloop_decreases _ _ _ _ _ Hok E) as [Hok1 [_ Hdec]].
    destruct (changes =? 0) eqn:Ec.
    + exists 1. cbn [press_loop]. rewrite E. cbn [bind]. rewrite Ec. discriminate.
    + apply Nat.eqb_neq in Ec.
      assert (Hrec : exists fuel, finished (press_loop fuel self1 chunk1)).
      { destruct (Hdec Ec) as [Hlt|[[Heq Hlt]|[Heq Hlt]]].
        - eapply (IHs (total_spaces chunk1)); eauto. lia.
        - eapply (IHl (total_length chunk1)); eauto; lia.
        - subst chunk1. eapply (IHu (pending self1 chunk)); eauto. lia. }
      destruct Hrec as [fuel Hfuel]. exists (S fuel).
      cbn [press_loop]. rewrite E. cbn [bind].
      apply Nat.eqb_neq in Ec. rewrite Ec. exact Hfuel.
  - exists 1. cbn [press_loop]. rewrite E. discriminate.
  - exists 1. cbn [press_loop]. rewrite E. discriminate.
  - now pose proof (finished_press_mainloop self chunk E).
Qed.



End Measure.

(** ** The fixpoint loop *)




(** ** Bounds of the embedded loops *)

Lemma set_nth_length {A : Type} (i : nat) (x : A) (l : list A) :
  i < length l -> length (set_nth i x l) = length l.
Proof.
  intros H. unfold set_nth.
  rewrite length_app, firstn_length_le by lia. cbn [length].
  rewrite length_skipn. lia.
Qed.

Lemma todo_loop_S (n pos : nat) (todo : RegExCompressor.todo_list)
  (line cur : text) (changes : nat) :
  RegExCompressor.todo_loop (S n) pos todo line cur changes
  = match nth_error todo pos with
    | None => Ok (cur, changes, todo)
    | Some (regex, stopline) =>
      '(new_line, changes_delta) <- RegExCompressor.apply_one line regex ;;
      let todo' :=
        if (pos =? stopline) && negb (pos =? length todo - 1)
        then set_nth pos (last todo (regex, stopline)) (removelast todo)
        else todo in
      RegExCompressor.todo_loop n (S pos) todo' line new_line
        (changes + changes_delta)
    end.
Proof. reflexivity. Qed.

(** The bound of [todo_loop] is never what stops it: once the bound covers
    the entries from [pos] on, a larger bound gives the same result. *)
Lemma todo_loop_bound (n : nat) :
  forall pos todo line cur changes,
    length todo <= pos + n ->
    RegExCompressor.todo_loop (S n) pos todo line cur changes
    = RegExCompressor.todo_loop n pos todo line cur changes.
Proof.
  induction n as [|n IH]; intros pos todo line cur changes Hlen.
  - rewrite todo_loop_S. cbn [RegExCompressor.todo_loop].
    replace (nth_error todo pos) with (@None (RegExTuple.t * nat));
      [reflexivity|].
    symmetry. apply nth_error_None. lia.
  - rewrite (todo_loop_S (S n)), (todo_loop_S n).
    destruct (nth_error todo pos) as [[regex stopline]|] eqn:E; [|reflexivity].
    destruct (RegExCompressor.apply_one line regex) as [[l d]| | |];
      cbn [bind]; try reflexivity.
    cbv zeta. apply IH.
    assert (Hpos : pos < length todo) by (apply nth_error_Some; congruence).
    destruct (pos =? stopline); cbn [andb]; [|lia].
    destruct (pos =? length todo - 1) eqn:Ep; cbn [negb]; [lia|].
    apply Nat.eqb_neq in Ep.
    rewrite set_nth_length; rewrite removelast_firstn_len, firstn_length_le; lia.
Qed.

(** ** Small runs of the embedded functions *)

Example token_after_62 :
  option_map Token.token (Token.after 62) = Some (txt "<00>").
Proof. vm_compute. reflexivity. Qed.

Example token_after_63 :
  option_map Token.token (Token.after 63) = Some (txt "<10>").
Proof. vm_compute. reflexivity. Qed.

Example token_after_3906 :
  option_map Token.token (Token.after (62 + 62 * 62)) = Some (txt "<000>").
Proof. vm_compute. reflexivity. Qed.

Example token_after_3969 :
  option_map Token.token (Token.after (62 + 62 * 62 + 63)) = Some (txt "<101>").
Proof. vm_compute. reflexivity. Qed.

Example punct_members_count : length punct_members = 29 /\ NoDup punct_members.
Proof.
  split; [reflexivity|]. repeat constructor; simpl; intuition discriminate.
Qed.

Example backslash_not_in_class :
  in_class backslash = false /\ in_class "-"%char = false
  /\ in_class "_"%char = false /\ in_class "]"%char = true.
Proof. repeat split. Qed.

Example split_trailer_raw :
  RegExCompressor.split_trailer trailer_example
  = (txt "Error 404 occurred", txt " {session=1}").
Proof. vm_compute. reflexivity. Qed.

Example clean_encoding_annotation :
  clean_encoding (nl "a {x} {y}}") = nl "a".
Proof. vm_compute. reflexivity. Qed.

Example split_words :
  split (txt "  a b" ++ [tab] ++ txt "c" ++ [newline])
  = [txt "a"; txt "b"; txt "c"].
Proof. vm_compute. reflexivity. Qed.

Example re_subn_literal :
  re_subn (txt "a b") (txt "<1>") (txt "xa b a ba b")
  = Ok (txt "x<1> <1><1>", 3).
Proof. vm_compute. reflexivity. Qed.

Example re_subn_escaped_space :
  re_subn (txt "a\ b") (txt "<1>") (txt "a b") = Ok (txt "<1>", 1).
Proof. vm_compute. reflexivity. Qed.

(** * Further properties of the code *)

(** ** The encoder, the cleaner and the trailer *)

Lemma scan_skip {X : Type} (m : matcher X) (a b : text) :
  scan m (length a) (a ++ b) = scan m 0 b.
Proof. induction a as [|c a IH]; [reflexivity|exact IH]. Qed.

Lemma starts_with_app (p s : text) : starts_with p (p ++ s) = true.
Proof.
  induction p as [|a p IH]; [reflexivity|]. cbn [app starts_with].
  now rewrite Ascii.eqb_refl, IH.
Qed.

Lemma starts_with_cons (a b : ascii) (p s : text) :
  starts_with (a :: p) (b :: s) = Ascii.eqb a b && starts_with p s.
Proof. reflexivity. Qed.

Lemma firstn_class_run (s : text) :
  firstn (length (class_run s)) s = class_run s.
Proof.
  induction s as [|c s IH]; [reflexivity|]. cbn [class_run].
  destruct (in_class c); [|reflexivity]. cbn [length firstn]. now rewrite IH.
Qed.

Lemma class_run_class (s : text) : forallb in_class (class_run s) = true.
Proof.
  induction s as [|c s IH]; [reflexivity|]. cbn [class_run].
  destruct (in_class c) eqn:E; [|reflexivity]. cbn [forallb]. now rewrite E, IH.
Qed.

Lemma scan_class_pieces (s : text) :
  forall k, Forall class_piece (scan m_class k s).
Proof.
  induction s as [|c s IH]; intros k; [constructor|].
  destruct k as [|k]; cbn [scan]; [|apply IH].
  unfold m_class. cbn [class_run]. destruct (in_class c) eqn:E.
  - cbn [length]. constructor; [|apply IH].
    cbn [class_piece firstn]. rewrite firstn_class_run.
    split; [reflexivity|]. split; [discriminate|].
    cbn [forallb]. now rewrite E, class_run_class.
  - constructor; [exact E|apply IH].
Qed.

(** Class characters are no whitespace, no underscore and no newline. *)
Lemma class_not_space (c : ascii) : in_class c = true -> is_space c = false.
Proof.
  destruct c as [[] [] [] [] [] [] [] []]; vm_compute; congruence.
Qed.

Lemma class_not_underscore (c : ascii) :
  in_class c = true -> Ascii.eqb c "_" = false /\ Ascii.eqb c newline = false.
Proof.
  destruct c as [[] [] [] [] [] [] [] []]; vm_compute; intuition congruence.
Qed.

Lemma lazy_group_run (r rest : text) :
  forallb in_class r = true ->
  lazy_group (r ++ marker ++ rest) = Some r.
Proof.
  induction r as [|c r IH]; intros H.
  - cbn [app]. change (marker ++ rest) with (txt "_$_" ++ rest).
    destruct (txt "_$_" ++ rest) eqn:E; [discriminate|].
    cbn [lazy_group]. rewrite <- E. unfold marker. now rewrite starts_with_app.
  - cbn [forallb] in H. apply andb_true_iff in H. destruct H as [Hc Hr].
    destruct (class_not_underscore c Hc) as [H1 H2].
    cbn [app lazy_group]. unfold marker at 1. cbn [txt list_ascii_of_string starts_with].
    rewrite Ascii.eqb_sym, H1. cbn [andb]. rewrite H2, IH by assumption.
    reflexivity.
Qed.

(** The head of an encoded text is never a dollar sign or a brace. *)
Lemma encoded_head (ps : list (piece text)) :
  Forall class_piece ps ->
  starts_with (txt "$_") (concat (map (render wrap) ps)) = false
  /\ starts_with (txt "{") (concat (map (render wrap) ps)) = false.
Proof.
  intros H. destruct H as [|p ps Hp Hps]; [split; reflexivity|].
  destruct p as [c|mt r]; cbn [map concat render class_piece] in *.
  - cbn [app txt list_ascii_of_string starts_with].
    destruct (Ascii.eqb "$" c) eqn:E1.
    { apply Ascii.eqb_eq in E1. subst c. discriminate. }
    destruct (Ascii.eqb "{" c) eqn:E2.
    { apply Ascii.eqb_eq in E2. subst c. discriminate. }
    split; reflexivity.
  - split; reflexivity.
Qed.

Lemma scan_marked_wrapped (ps : list (piece text)) :
  Forall class_piece ps ->
  scan m_marked 0 (concat (map (render wrap) ps)) = map wrapped ps.
Proof.
  induction 1 as [|p ps Hp Hps IH]; [reflexivity|].
  destruct (encoded_head ps Hps) as [Hd _].
  destruct p as [c|mt r]; cbn [map concat render wrapped class_piece] in *.
  - cbn [app scan]. unfold m_marked at 1.
    replace (starts_with marker (c :: concat (map (render wrap) ps))) with false.
    + now rewrite IH.
    + symmetry. change marker with ("_"%char :: txt "$_").
      rewrite starts_with_cons, Hd. apply andb_false_r.
  - destruct Hp as [-> [Hne Hr]].
    set (rest := concat (map (render wrap) ps)) in *.
    assert (Hm : m_marked (wrap r ++ rest) = Some (3 + length r + 3, r)).
    { unfold m_marked, wrap. rewrite <- !app_assoc, starts_with_app.
      change (skipn 3 (marker ++ r ++ marker ++ rest)) with (r ++ marker ++ rest).
      now rewrite lazy_group_run. }
    assert (Hw : wrap r ++ rest
                 = "_"%char :: (txt "$_" ++ r ++ marker) ++ rest).
    { unfold wrap, marker. cbn [txt list_ascii_of_string app].
      now rewrite <- !app_assoc. }
    rewrite Hw in *. cbn [scan]. rewrite Hm. cbn [Nat.add].
    f_equal.
    + f_equal. rewrite <- Hw. unfold wrap.
      replace (S (S (S (length r + 3)))) with (length (marker ++ r ++ marker))
        by (rewrite !length_app; cbn; lia).
      rewrite <- !app_assoc.
      replace (marker ++ r ++ marker ++ rest) with ((marker ++ r ++ marker) ++ rest)
        by now rewrite <- !app_assoc.
      rewrite firstn_app, firstn_all, Nat.sub_diag. cbn [firstn].
      now rewrite app_nil_r.
    + replace (S (S (length r + 3))) with (length (txt "$_" ++ r ++ marker))
        by (rewrite !length_app; cbn; lia).
      rewrite scan_skip. exact IH.
Qed.


Lemma encode_pieces (line : text) :
  encode_punct_and_digits line
  = concat (map (render wrap) (scan m_class 0 line)).
Proof. reflexivity. Qed.

Lemma scan_marked_encode (line : text) :
  scan m_marked 0 (encode_punct_and_digits line)
  = map wrapped (scan m_class 0 line).
Proof.
  rewrite encode_pieces. apply scan_marked_wrapped. apply scan_class_pieces.
Qed.

Lemma sub_marked_encode (line : text) :
  re_sub m_marked (fun _ => txt "#") (encode_punct_and_digits line)
  = abstract_runs line.
Proof.
  unfold re_sub, abstract_runs, re_sub. rewrite scan_marked_encode, map_map.
  f_equal. apply map_ext. now intros [c|mt r].
Qed.

Lemma findall_marked_encode (line : text) :
  re_findall m_marked (encode_punct_and_digits line) = runs line.
Proof.
  unfold runs, re_findall. rewrite scan_marked_encode.
  induction (scan m_class 0 line) as [|[c|mt r] ps IH]; cbn; congruence.
Qed.

(** A text without an opening brace has no annotation to remove. *)
Lemma sub_trailer_no_brace (repl : text -> text) (s : text) :
  ~ In "{"%char s -> re_sub m_trailer repl s = s.
Proof.
  intros H. apply re_sub_no_match; [apply bounded_trailer|].
  unfold re_count. induction s as [|c s IH]; [reflexivity|].
  cbn [scan]. unfold m_trailer at 1.
  replace (starts_with (txt " {") (c :: s)) with false.
  - cbn [filter is_match]. apply IH. intros Hin. apply H. now right.
  - symmetry. destruct s as [|d s]; [apply andb_false_r|].
    cbn [txt list_ascii_of_string]. rewrite !starts_with_cons.
    destruct (Ascii.eqb "{" d) eqn:E; [|now rewrite andb_false_r].
    apply Ascii.eqb_eq in E. subst d. exfalso. apply H. right. now left.
Qed.

Lemma abstract_runs_chars (line : text) (c : ascii) :
  In c (abstract_runs line) -> in_class c = false \/ c = "#"%char.
Proof.
  unfold abstract_runs, re_sub.
  pose proof (scan_class_pieces line 0) as H. revert H.
  generalize (scan m_class 0 line) as ps.
  induction 1 as [|p ps Hp Hps IH]; [intros []|].
  cbn [map concat]. intros Hin. apply in_app_iff in Hin.
  destruct Hin as [Hin|Hin]; [|auto].
  destruct p as [d|mt r]; cbn [render class_piece] in *.
  - destruct Hin as [<-|[]]. now left.
  - destruct Hin as [<-|[]]. now right.
Qed.

Lemma clean_encoding_subs (line : text) :
  clean_encoding line
  = re_sub m_trailer (fun _ => []) (re_sub m_marked (fun _ => txt "#") line).
Proof. now destruct line. Qed.

(** Space and brace never meet in an encoded line. *)
Lemma contains_no_space (a b : text) :
  ~ In space a -> contains (txt " {") (a ++ b) = contains (txt " {") b.
Proof.
  intros H. induction a as [|c a IH]; [reflexivity|].
  cbn [app contains]. rewrite IH by (intros Hin; apply H; now right).
  replace (starts_with (txt " {") (c :: a ++ b)) with false; [reflexivity|].
  symmetry. cbn [txt list_ascii_of_string]. rewrite starts_with_cons.
  destruct (Ascii.eqb " " c) eqn:E; [|reflexivity].
  apply Ascii.eqb_eq in E. subst c. exfalso. apply H. now left.
Qed.

Lemma encoded_no_space_brace (ps : list (piece text)) :
  Forall class_piece ps ->
  contains (txt " {") (concat (map (render wrap) ps)) = false.
Proof.
  induction 1 as [|p ps Hp Hps IH]; [reflexivity|].
  destruct (encoded_head ps Hps) as [_ Hb].
  destruct p as [c|mt r]; cbn [map concat render class_piece] in *.
  - cbn [app contains]. rewrite IH, orb_false_r.
    cbn [txt list_ascii_of_string] in *.
    rewrite starts_with_cons, Hb. apply andb_false_r.
  - destruct Hp as [-> [_ Hr]]. rewrite contains_no_space; [exact IH|].
    unfold wrap. intros Hin. apply in_app_iff in Hin.
    destruct Hin as [Hin|Hin]; [revert Hin; vm_compute; intuition discriminate|].
    apply in_app_iff in Hin.
    destruct Hin as [Hin|Hin]; [|revert Hin; vm_compute; intuition discriminate].
    rewrite forallb_forall in Hr. specialize (Hr _ Hin). discriminate.
Qed.

Lemma contains_prefix (needle a b : text) :
  contains needle (a ++ b) = false -> contains needle a = false.
Proof.
  induction a as [|c a IH]; cbn [app]; intros H.
  - destruct needle as [|n needle]; [|reflexivity].
    destruct b; discriminate.
  - cbn [contains] in *. apply orb_false_iff in H. destruct H as [H1 H2].
    rewrite (IH H2), orb_false_r.
    destruct (starts_with needle (c :: a)) eqn:E; [|reflexivity].
    assert (Hs : forall p s t, starts_with p s = true -> starts_with p (s ++ t) = true).
    { induction p as [|x p IHp]; intros s t Hp; [reflexivity|].
      destruct s as [|y s]; [discriminate|].
      cbn [app]. rewrite starts_with_cons in *.
      apply andb_true_iff in Hp. destruct Hp as [Hx Hp].
      now rewrite Hx, (IHp _ _ Hp). }
    specialize (Hs _ _ b E). cbn [app] in Hs. congruence.
Qed.

Lemma search_trailer_none (s : text) :
  contains (txt " {") s = false -> re_search m_trailer s = None.
Proof.
  induction s as [|c s IH]; intros H; [reflexivity|].
  cbn [contains] in H. apply orb_false_iff in H. destruct H as [H1 H2].
  cbn [re_search]. unfold m_trailer at 1. rewrite H1. now apply IH.
Qed.

(** The joined items begin and end with a class character. *)
Lemma join_runs_ends (r : text) (rs : list text) :
  Forall (fun r => r <> [] /\ forallb in_class r = true) (r :: rs) ->
  exists c1 j1 j2 c2,
    join (txt " ") (r :: rs) = c1 :: j1
    /\ join (txt " ") (r :: rs) = j2 ++ [c2]
    /\ in_class c1 = true /\ in_class c2 = true.
Proof.
  revert r. induction rs as [|r' rs IH]; intros r H.
  - inversion H as [|? ? [Hne Hr] _]; subst. cbn [join].
    destruct r as [|c r]; [congruence|].
    destruct (exists_last Hne) as [j2 [c2 E]].
    exists c, r, j2, c2. split; [reflexivity|]. split; [exact E|].
    rewrite forallb_forall in Hr. split; apply Hr.
    + now left.
    + rewrite E. apply in_app_iff. right. now left.
  - inversion H as [|? ? [Hne Hr] Hrest]; subst.
    destruct (IH r' Hrest) as [c1 [j1 [j2 [c2 [E1 [E2 [H1 H2]]]]]]].
    change (join (txt " ") (r :: r' :: rs))
      with (r ++ txt " " ++ join (txt " ") (r' :: rs)).
    destruct r as [|c r]; [congruence|].
    exists c, (r ++ txt " " ++ join (txt " ") (r' :: rs)),
      ((c :: r) ++ txt " " ++ j2), c2.
    split; [reflexivity|]. split; [rewrite E2; now rewrite <- !app_assoc|].
    split; [|exact H2]. rewrite forallb_forall in Hr. apply Hr. now left.
Qed.

Lemma strip_joined (j2 : text) (c1 c2 : ascii) (j1 : text) :
  c1 :: j1 = j2 ++ [c2] -> in_class c1 = true -> in_class c2 = true ->
  strip (txt " " ++ c1 :: j1) = c1 :: j1.
Proof.
  intros E H1 H2. apply class_not_space in H1. apply class_not_space in H2.
  unfold strip. cbn [txt list_ascii_of_string app lstrip].
  change (is_space " ") with true. cbn iota. rewrite H1.
  unfold rstrip. rewrite E, rev_app_distr. cbn [rev app lstrip]. rewrite H2.
  change (c2 :: rev j2) with (rev [c2] ++ rev j2).
  now rewrite <- rev_app_distr, rev_involutive.
Qed.

Lemma runs_class (line : text) :
  Forall (fun r => r <> [] /\ forallb in_class r = true) (runs line).
Proof.
  unfold runs, re_findall.
  pose proof (scan_class_pieces line 0) as H. revert H.
  generalize (scan m_class 0 line) as ps.
  induction 1 as [|p ps Hp Hps IH]; [constructor|].
  destruct p as [c|mt r]; cbn [flat_map app class_piece] in *; [exact IH|].
  constructor; [tauto|exact IH].
Qed.


Lemma clean_encoding_abstract (line : text) :
  clean_encoding (encode_punct_and_digits line) = abstract_runs line.
Proof.
  rewrite clean_encoding_subs, sub_marked_encode.
  apply sub_trailer_no_brace. intros Hin.
  apply abstract_runs_chars in Hin. destruct Hin; discriminate.
Qed.

Lemma meta_in_class (c : ascii) : in_class c = false -> is_meta c = false.
Proof. destruct c as [[] [] [] [] [] [] [] []]; vm_compute; congruence. Qed.

(** X1: cleaning an encoded line replaces every run of class characters by
    one placeholder, for every line; the cleaned line then holds no class
    character besides the placeholder, so none of the operators of the
    regular-expression syntax. *)
Theorem clean_encoding_encode (line : text) :
  clean_encoding (encode_punct_and_digits line) = abstract_runs line
  /\ forall c, In c (clean_encoding (encode_punct_and_digits line)) ->
       (in_class c = false \/ c = "#"%char) /\ is_meta c = false.
Proof.
  split; [apply clean_encoding_abstract|]. rewrite clean_encoding_abstract.
  intros c Hin. apply abstract_runs_chars in Hin. split; [exact Hin|].
  destruct Hin as [Hc| ->]; [now apply meta_in_class|reflexivity].
Qed.

(** X2: splitting an encoded line gives the cleaned line without its
    trailing whitespace and a trailer that lists the runs of class
    characters of the line in order, separated by spaces, between braces;
    the trailer is empty when the line has no class character.  A brace
    annotation of the raw line is never recognised after encoding. *)
Theorem split_trailer_encode (line : text) :
  RegExCompressor.split_trailer (encode_punct_and_digits line)
  = (rstrip (abstract_runs line), trailer_of (runs line)).
Proof.
  unfold RegExCompressor.split_trailer.
  rewrite clean_encoding_abstract, findall_marked_encode.
  f_equal.
  replace (re_search m_trailer (rstrip (encode_punct_and_digits line)))
    with (@None text).
  - pose proof (runs_class line) as Hr.
    destruct (runs line) as [|r rs]; [reflexivity|].
    destruct (join_runs_ends r rs Hr) as [c1 [j1 [j2 [c2 [E1 [E2 [H1 H2]]]]]]].
    unfold trailer_of. rewrite E1. cbn [app].
    rewrite (strip_joined j2 c1 c2 j1) by congruence. reflexivity.
  - symmetry. apply search_trailer_none.
    destruct (rstrip_prefix (encode_punct_and_digits line)) as [tail E].
    apply (contains_prefix _ _ tail). rewrite <- E, encode_pieces.
    apply encoded_no_space_brace, scan_class_pieces.
Qed.

Lemma bounded_class : bounded m_class.
Proof.
  intros s n x H. unfold m_class in H.
  assert (Hl : length (class_run s) <= length s)
    by (rewrite <- (firstn_class_run s), length_firstn; lia).
  destruct (class_run s) as [|c r]; [discriminate|].
  inversion H; subst. exact Hl.
Qed.

Lemma filter_concat {A : Type} (f : A -> bool) (l : list (list A)) :
  filter f (concat l) = concat (map (filter f) l).
Proof.
  induction l as [|a l IH]; [reflexivity|]. cbn. now rewrite filter_app, IH.
Qed.

Lemma filter_all {A : Type} (f : A -> bool) (l : list A) :
  forallb f l = true -> filter f l = l.
Proof.
  induction l as [|a l IH]; [reflexivity|]. cbn. intros H.
  apply andb_true_iff in H. destruct H as [Ha Hl]. now rewrite Ha, IH.
Qed.

Lemma filter_none {A : Type} (f : A -> bool) (l : list A) :
  forallb f l = true -> filter (fun x => negb (f x)) l = [].
Proof.
  induction l as [|a l IH]; [reflexivity|]. cbn. intros H.
  apply andb_true_iff in H. destruct H as [Ha Hl]. now rewrite Ha, IH.
Qed.

Lemma class_pieces_filter (ps : list (piece text)) :
  Forall class_piece ps ->
  concat (flat_map (fun p => match p with Char _ => [] | Match _ g => [g] end) ps)
  = filter in_class (concat (map source ps))
  /\ filter (fun c => negb (Ascii.eqb c "#"))
       (concat (map (render (fun _ => txt "#")) ps))
     = filter (fun c => negb (in_class c)) (concat (map source ps)).
Proof.
  induction 1 as [|p ps Hp Hps [IH1 IH2]]; [split; reflexivity|].
  cbn [flat_map map concat]. rewrite !filter_app, <- IH1, <- IH2.
  destruct p as [c|mt r]; cbn [render source class_piece app] in *.
  - cbn [filter]. rewrite Hp. cbn [negb].
    replace (Ascii.eqb c "#") with false; [split; reflexivity|].
    symmetry. apply Ascii.eqb_neq. intros ->. discriminate.
  - destruct Hp as [-> [_ Hr]].
    rewrite (filter_all in_class r Hr), (filter_none in_class r Hr).
    split; reflexivity.
Qed.

(** X3: encoding loses and invents nothing.  The runs, put end to end, are
    the class characters of the line in their order; the cleaned line
    without its placeholders is the rest of the line in its order. *)
Theorem runs_keep_class_characters (line : text) :
  concat (runs line) = filter in_class line
  /\ filter (fun c => negb (Ascii.eqb c "#")) (abstract_runs line)
     = filter (fun c => negb (in_class c)) line.
Proof.
  pose proof (class_pieces_filter _ (scan_class_pieces line 0)) as H.
  rewrite (re_sub_source m_class line bounded_class) in H. exact H.
Qed.


(** ** The registry of nodes *)

Section Registry.

Import PhraseNode.

Lemma get_set_same {V : Type} (k : text) (v : V) (d : list (text * V)) :
  get k (set k v d) = Some v.
Proof.
  induction d as [|[k' v'] d IH]; cbn [set get].
  - now rewrite text_eqb_refl.
  - destruct (text_eqb k k') eqn:E; cbn [get]; rewrite ?text_eqb_refl, ?E; auto.
Qed.

Lemma get_set_other {V : Type} (k k' : text) (v : V) (d : list (text * V)) :
  k' <> k -> get k' (set k v d) = get k' d.
Proof.
  intros Hne. induction d as [|[k0 v0] d IH]; cbn [set get].
  - replace (text_eqb k' k) with false; [reflexivity|].
    symmetry. now apply text_eqb_neq.
  - destruct (text_eqb k k0) eqn:E; cbn [get].
    + apply text_eqb_eq in E. subst k0.
      replace (text_eqb k' k) with false; [reflexivity|].
      symmetry. now apply text_eqb_neq.
    + now rewrite IH.
Qed.

Lemma has_set {V : Type} (k k' : text) (v : V) (d : list (text * V)) :
  has k' (set k v d) = has k' d || text_eqb k' k.
Proof.
  unfold has. destruct (text_eqb k' k) eqn:E.
  - apply text_eqb_eq in E. subst. rewrite get_set_same. now rewrite orb_true_r.
  - apply text_eqb_neq in E. rewrite get_set_other by assumption.
    now rewrite orb_false_r.
Qed.

Lemma set_keys_present {V : Type} (k : text) (v : V) (d : list (text * V)) :
  has k d = true -> map fst (set k v d) = map fst d.
Proof.
  unfold has. induction d as [|[k0 v0] d IH]; cbn [set get map]; [discriminate|].
  destruct (text_eqb k k0) eqn:E; cbn [map fst].
  - apply text_eqb_eq in E. now subst.
  - intros H. now rewrite IH.
Qed.

Lemma registry_ok_get (ph : registry) (k : text) (n : node) :
  registry_ok ph -> get k ph = Some n -> _root n = k.
Proof.
  induction 1 as [|[k0 n0] ph H0 Hph IH]; cbn [get]; [discriminate|].
  destruct (text_eqb k k0) eqn:E; [|exact IH].
  apply text_eqb_eq in E. intros H. inversion H; subst. exact H0.
Qed.

Lemma registry_ok_set (ph : registry) (k : text) (n : node) :
  registry_ok ph -> _root n = k -> registry_ok (set k n ph).
Proof.
  intros Hph Hn. induction Hph as [|[k0 n0] ph H0 Hph IH]; cbn [set].
  - constructor; [exact Hn|constructor].
  - destruct (text_eqb k k0); constructor; auto.
Qed.

Lemma edge_count_set (ph : registry) (k : text) (n : node) (a b : text) :
  edge_count a b (set k n ph)
  = if text_eqb b k
    then match get a (parents n) with Some c => c | None => 0 end
    else edge_count a b ph.
Proof.
  unfold edge_count. destruct (text_eqb b k) eqn:E.
  - apply text_eqb_eq in E. subst. now rewrite get_set_same.
  - apply text_eqb_neq in E. now rewrite get_set_other.
Qed.

End Registry.

Lemma add_node_spec (self node : text) (ph : PhraseNode.registry) :
  registry_ok ph ->
  PhraseNode.has self ph = true -> PhraseNode.has node ph = true ->
  exists ph',
    PhraseNode.add_node self node ph
    = Ok (PhraseNode.edge_count self node ph + 1, ph')
    /\ registry_ok ph'
    /\ map fst ph' = map fst ph
    /\ (forall a b, PhraseNode.edge_count a b ph'
                    = PhraseNode.edge_count a b ph
                      + (if text_eqb a self && text_eqb b node then 1 else 0))
    /\ exists s, PhraseNode.get self ph' = Some s /\ In node (PhraseNode.nd s).
Proof.
  intros Hok Hs Hn. unfold PhraseNode.has in Hs, Hn.
  destruct (PhraseNode.get self ph) as [s|] eqn:Es; [|discriminate].
  destruct (PhraseNode.get node ph) as [n|] eqn:En; [|discriminate].
  pose proof (registry_ok_get _ _ _ Hok Es) as Hrs.
  pose proof (registry_ok_get _ _ _ Hok En) as Hrn.
  unfold PhraseNode.add_node. rewrite Es, En, Hrs, Hrn.
  set (s1 := if existsb (text_eqb node) (PhraseNode.nd s) then s
             else PhraseNode.mk_node self (PhraseNode.parents s)
                    (PhraseNode.nd s ++ [node])).
  set (ph1 := if existsb (text_eqb node) (PhraseNode.nd s) then ph
              else PhraseNode.set self
                     (PhraseNode.mk_node self (PhraseNode.parents s)
                        (PhraseNode.nd s ++ [node])) ph).
  assert (Hs1 : PhraseNode.get self ph1 = Some s1
                /\ PhraseNode._root s1 = self
                /\ PhraseNode.parents s1 = PhraseNode.parents s
                /\ In node (PhraseNode.nd s1)).
  { unfold ph1, s1. destruct (existsb (text_eqb node) (PhraseNode.nd s)) eqn:Ex.
    - repeat split; try assumption. apply existsb_exists in Ex.
      destruct Ex as [x [Hx Hxe]]. apply text_eqb_eq in Hxe. now subst.
    - rewrite get_set_same. repeat split. apply in_app_iff. right. now left. }
  destruct Hs1 as [Hg1 [Hr1 [Hp1 Hnd1]]].
  assert (Hother : forall k, k <> self -> PhraseNode.get k ph1 = PhraseNode.get k ph).
  { intros k Hk. unfold ph1. destruct (existsb _ _); [reflexivity|].
    now apply get_set_other. }
  assert (Hok1 : registry_ok ph1).
  { unfold ph1. destruct (existsb _ _); [assumption|].
    now apply registry_ok_set. }
  assert (Hkeys1 : map fst ph1 = map fst ph).
  { unfold ph1. destruct (existsb _ _); [reflexivity|].
    apply set_keys_present. unfold PhraseNode.has. now rewrite Es. }
  assert (Hn1 : exists n1, PhraseNode.get node ph1 = Some n1
                           /\ PhraseNode._root n1 = node
                           /\ PhraseNode.parents n1 = PhraseNode.parents n
                           /\ (node = self -> PhraseNode.nd n1 = PhraseNode.nd s1)).
  { destruct (list_eq_dec ascii_dec node self) as [E|E].
    - exists s1. assert (n = s) by congruence. subst n.
      repeat split; congruence.
    - exists n. rewrite (Hother _ E). repeat split; try assumption. congruence. }
  destruct Hn1 as [n1 [Hgn1 [Hrn1 [Hpn1 Hndn1]]]].
  fold ph1. rewrite Hgn1, Hrn1, Hpn1.
  assert (Hcount : match PhraseNode.get self (PhraseNode.parents n) with
                   | Some c => c + 1
                   | None => 1
                   end = PhraseNode.edge_count self node ph + 1).
  { unfold PhraseNode.edge_count. rewrite En.
    now destruct (PhraseNode.get self (PhraseNode.parents n)). }
  rewrite Hcount. eexists. split; [reflexivity|].
  split; [apply registry_ok_set; [assumption|reflexivity]|].
  split.
  { rewrite set_keys_present; [exact Hkeys1|].
    unfold PhraseNode.has. now rewrite Hgn1. }
  split.
  - intros a b. rewrite edge_count_set. cbn [PhraseNode.parents].
    destruct (text_eqb b node) eqn:Eb.
    + apply text_eqb_eq in Eb. subst b.
      destruct (text_eqb a self) eqn:Ea; cbn [andb].
      * apply text_eqb_eq in Ea. subst a. now rewrite get_set_same.
      * apply text_eqb_neq in Ea. rewrite get_set_other by assumption.
        unfold PhraseNode.edge_count. rewrite En, Nat.add_0_r. reflexivity.
    + rewrite andb_false_r, Nat.add_0_r.
      unfold PhraseNode.edge_count.
      destruct (list_eq_dec ascii_dec b self) as [E|E].
      * subst b. now rewrite Hg1, Es, Hp1.
      * now rewrite (Hother _ E).
  - destruct (list_eq_dec ascii_dec node self) as [E|E].
    + eexists. split.
      * transitivity (PhraseNode.get node
                        (PhraseNode.set node
                           (PhraseNode.mk_node node
                              (PhraseNode.set self
                                 (PhraseNode.edge_count self node ph + 1)
                                 (PhraseNode.parents n))
                              (PhraseNode.nd n1)) ph1));
          [now rewrite E|apply get_set_same].
      * cbn [PhraseNode.nd]. now rewrite (Hndn1 E).
    + rewrite get_set_other by congruence. exists s1. now split.
Qed.

(** X4: on a registry whose nodes stand under their own words, [add_node]
    between two registered nodes returns the count of the pair raised by
    one and stores it: afterwards the pair has that count, every other pair
    has the count it had, the same words are registered, and the successor
    is among the [nd_] attributes of the predecessor. *)
Theorem add_node_counts (self node : text) (ph : PhraseNode.registry) :
  registry_ok ph ->
  PhraseNode.has self ph = true -> PhraseNode.has node ph = true ->
  exists ph',
    PhraseNode.add_node self node ph
    = Ok (PhraseNode.edge_count self node ph + 1, ph')
    /\ registry_ok ph'
    /\ map fst ph' = map fst ph
    /\ (forall a b, PhraseNode.edge_count a b ph'
                    = PhraseNode.edge_count a b ph
                      + (if text_eqb a self && text_eqb b node then 1 else 0))
    /\ exists s, PhraseNode.get self ph' = Some s /\ In node (PhraseNode.nd s).
Proof.
  exact (add_node_spec self node ph).
Qed.

Lemma add_node_counts_witness :
  exists ph',
    PhraseNode.add_node RegExCompressor.root (txt "a")
      (PhraseNode.intern (txt "a") (PhraseNode.intern RegExCompressor.root []))
    = Ok (0 + 1, ph')
    /\ PhraseNode.edge_count RegExCompressor.root (txt "a") ph' = 1.
Proof.
  assert (Hok : registry_ok
            (PhraseNode.intern (txt "a") (PhraseNode.intern RegExCompressor.root [])))
    by (repeat constructor).
  destruct (add_node_counts RegExCompressor.root (txt "a") _ Hok eq_refl eq_refl)
    as [ph' [H1 [_ [_ [H2 _]]]]].
  exists ph'. split; [exact H1|]. rewrite H2. reflexivity.
Defined.


Lemma intern_spec (w : text) (ph : PhraseNode.registry) :
  registry_ok ph ->
  registry_ok (PhraseNode.intern w ph)
  /\ PhraseNode.has w (PhraseNode.intern w ph) = true
  /\ (forall k, PhraseNode.has k (PhraseNode.intern w ph)
                = PhraseNode.has k ph || text_eqb k w)
  /\ (forall a b, PhraseNode.edge_count a b (PhraseNode.intern w ph)
                  = PhraseNode.edge_count a b ph)
  /\ PhraseNode.intern w (PhraseNode.intern w ph) = PhraseNode.intern w ph
  /\ (PhraseNode.has w ph = true -> PhraseNode.intern w ph = ph)
  /\ (NoDup (map fst ph) -> NoDup (map fst (PhraseNode.intern w ph))).
Proof.
  intros Hok.
  assert (Hhas : forall k, PhraseNode.has k (PhraseNode.intern w ph)
                           = PhraseNode.has k ph || text_eqb k w).
  { intros k. unfold PhraseNode.intern.
    destruct (PhraseNode.has w ph) eqn:E; [|apply has_set].
    destruct (text_eqb k w) eqn:Ek; [|now rewrite orb_false_r].
    apply text_eqb_eq in Ek. subst. now rewrite E. }
  assert (Hw : PhraseNode.has w (PhraseNode.intern w ph) = true)
    by (rewrite Hhas, text_eqb_refl; apply orb_true_r).
  split.
  { unfold PhraseNode.intern. destruct (PhraseNode.has w ph); [assumption|].
    now apply registry_ok_set. }
  split; [exact Hw|]. split; [exact Hhas|]. split.
  { intros a b. unfold PhraseNode.intern.
    destruct (PhraseNode.has w ph) eqn:E; [reflexivity|].
    rewrite edge_count_set. destruct (text_eqb b w) eqn:Eb; [|reflexivity].
    apply text_eqb_eq in Eb. subst b. unfold PhraseNode.edge_count.
    unfold PhraseNode.has in E. now destruct (PhraseNode.get w ph). }
  split.
  { unfold PhraseNode.intern at 1. now rewrite Hw. }
  split.
  { intros E. unfold PhraseNode.intern. now rewrite E. }
  intros Hnd. unfold PhraseNode.intern.
  destruct (PhraseNode.has w ph) eqn:E; [assumption|].
  rewrite set_fresh, map_app by assumption.
  apply NoDup_app; [assumption|repeat constructor; simpl; tauto|].
  intros x Hx [<-|[]]. apply has_false_in in E. contradiction.
Qed.

(** X5: [PhraseNode(word)] registers one node per word.  Interning keeps
    the nodes under their own words, makes the word registered, registers
    nothing else, changes no count, does nothing the second time or when
    the word is already registered, and keeps the registered words
    distinct. *)
Theorem intern_once (w : text) (ph : PhraseNode.registry) :
  registry_ok ph ->
  registry_ok (PhraseNode.intern w ph)
  /\ PhraseNode.has w (PhraseNode.intern w ph) = true
  /\ (forall k, PhraseNode.has k (PhraseNode.intern w ph)
                = PhraseNode.has k ph || text_eqb k w)
  /\ (forall a b, PhraseNode.edge_count a b (PhraseNode.intern w ph)
                  = PhraseNode.edge_count a b ph)
  /\ PhraseNode.intern w (PhraseNode.intern w ph) = PhraseNode.intern w ph
  /\ (PhraseNode.has w ph = true -> PhraseNode.intern w ph = ph)
  /\ (NoDup (map fst ph) -> NoDup (map fst (PhraseNode.intern w ph))).
Proof.
  exact (intern_spec w ph).
Qed.

Lemma intern_once_witness :
  registry_ok (PhraseNode.intern (txt "a") [])
  /\ PhraseNode.intern (txt "a") (PhraseNode.intern (txt "a") [])
     = PhraseNode.intern (txt "a") [].
Proof.
  assert (Hok : registry_ok []) by constructor.
  destruct (intern_once (txt "a") [] Hok) as [H1 [_ [_ [_ [H2 _]]]]].
  split; assumption.
Defined.

Section Walk.

Import PhraseNode RegExCompressor.

Lemma gen_regex_phrases (self : t) (a b : text) (r : option RegExTuple.t)
  (self' : t) :
  gen_regex self a b = Ok (r, self') -> phrases self' = phrases self.
Proof.
  unfold gen_regex. destruct (has _ _); [intros H; now inversion H|].
  destruct (Token.next _) as [[s tk]|]; [|discriminate].
  intros H. now inversion H.
Qed.

Lemma count_pair_cons (a b x y : text) (l : list (text * text)) :
  count_pair a b ((x, y) :: l)
  = (if text_eqb a x && text_eqb b y then 1 else 0) + count_pair a b l.
Proof.
  unfold count_pair. cbn [filter]. unfold pair_eqb at 1. cbn [fst snd].
  now destruct (text_eqb a x && text_eqb b y).
Qed.

Lemma map_words_counts (words : list text) :
  forall self lastnode at_root index todo self' todo',
    registry_ok (phrases self) -> has lastnode (phrases self) = true ->
    map_words self lastnode at_root words index todo = Ok (self', todo') ->
    registry_ok (phrases self')
    /\ (forall k, has k (phrases self) = true -> has k (phrases self') = true)
    /\ forall a b, edge_count a b (phrases self')
                   = edge_count a b (phrases self)
                     + count_pair a b (pairs_from lastnode words).
Proof.
  induction words as [|word rest IH]; intros self lastnode at_root index todo
    self' todo' Hok Hlast H; cbn [map_words] in H.
  - inversion H; subst. split; [assumption|]. split; [auto|].
    intros a b. cbn. lia.
  - destruct word as [|c word]; [now apply IH in H|].
    cbn [pairs_from]. set (w := c :: word) in *.
    destruct (intern_spec w (phrases self) Hok) as [Hok0 [Hw [Hhas0 [Hec0 _]]]].
    assert (Hlast0 : has lastnode (intern w (phrases self)) = true)
      by (rewrite Hhas0, Hlast; reflexivity).
    destruct (add_node_spec lastnode w _ Hok0 Hlast0 Hw)
      as [ph' [Hadd [Hok1 [Hkeys [Hec1 _]]]]].
    rewrite Hadd in H. cbn [bind] in H.
    assert (Hhas1 : forall k, has k ph' = has k (intern w (phrases self))).
    { intros k. destruct (has k ph') eqn:E1.
      - apply has_in in E1. rewrite Hkeys in E1. apply has_in in E1. now rewrite E1.
      - apply has_false_in in E1. rewrite Hkeys in E1. apply has_false_in in E1.
        now rewrite E1. }
    assert (Hstep : forall self2,
              phrases self2 = ph' ->
              map_words self2 w false rest index todo = Ok (self', todo') \/
              (exists r, map_words self2 w false rest index (todo ++ [(r, index)])
                         = Ok (self', todo')) ->
              registry_ok (phrases self')
              /\ (forall k, has k (phrases self) = true -> has k (phrases self') = true)
              /\ forall a b, edge_count a b (phrases self')
                   = edge_count a b (phrases self)
                     + count_pair a b ((lastnode, w) :: pairs_from w rest)).
    { intros self2 Hph2 Hrec.
      assert (Hrec' : exists todo2, map_words self2 w false rest index todo2
                                    = Ok (self', todo'))
        by (destruct Hrec as [Hr|[r Hr]]; eauto).
      destruct Hrec' as [todo2 Hr]. apply IH in Hr.
      - destruct Hr as [Hok' [Hhas' Hec']]. rewrite Hph2 in *.
        split; [assumption|]. split.
        + intros k Hk. apply Hhas'. rewrite Hhas1, Hhas0, Hk. reflexivity.
        + intros a b. rewrite Hec', Hec1, Hec0, count_pair_cons. lia.
      - now rewrite Hph2.
      - rewrite Hph2, Hhas1. exact Hw. }
    destruct ((5 <=? edge_count lastnode w (intern w (phrases self)) + 1)
              && negb at_root).
    + bind_inv H. destruct a as [new_reg self2].
      apply gen_regex_phrases in Hm. cbn [with_phrases phrases] in Hm.
      apply (Hstep self2 Hm). destruct new_reg as [r|]; eauto.
    + apply (Hstep (with_phrases self ph') eq_refl). now left.
Qed.

End Walk.

(** X6: the walk of a line records every adjacent pair once.  On a
    registry whose nodes stand under their own words and that holds the
    line-start node, after [map_nodes] the count of every pair is its count
    before plus the number of times the pair occurs among the consecutive
    words of the line, the line start counting as the word before the
    first; no word is unregistered. *)
Theorem map_nodes_counts (self : RegExCompressor.t) (line : text) (index : nat)
  (todo : RegExCompressor.todo_list) (self' : RegExCompressor.t)
  (todo' : RegExCompressor.todo_list) :
  registry_ok (RegExCompressor.phrases self) ->
  PhraseNode.has RegExCompressor.root (RegExCompressor.phrases self) = true ->
  RegExCompressor.map_nodes self line index todo = Ok (self', todo') ->
  registry_ok (RegExCompressor.phrases self')
  /\ PhraseNode.has RegExCompressor.root (RegExCompressor.phrases self') = true
  /\ forall a b,
       PhraseNode.edge_count a b (RegExCompressor.phrases self')
       = PhraseNode.edge_count a b (RegExCompressor.phrases self)
         + count_pair a b (pairs_from RegExCompressor.root (split line)).
Proof.
  intros Hok Hroot H. unfold RegExCompressor.map_nodes in H.
  apply map_words_counts in H; [|assumption..].
  destruct H as [H1 [H2 H3]]. auto.
Qed.

Lemma map_nodes_counts_witness :
  exists self' todo',
    RegExCompressor.map_nodes RegExCompressor.init (txt "a b a b") 0 []
    = Ok (self', todo')
    /\ PhraseNode.edge_count (txt "a") (txt "b") (RegExCompressor.phrases self')
       = 0 + 2.
Proof.
  destruct (RegExCompressor.map_nodes RegExCompressor.init (txt "a b a b") 0 [])
    as [[self' todo']| | |] eqn:E; [|vm_compute in E; discriminate ..].
  exists self', todo'. split; [reflexivity|].
  assert (Hok : registry_ok (RegExCompressor.phrases RegExCompressor.init))
    by (repeat constructor).
  destruct (map_nodes_counts _ _ _ _ _ _ Hok eq_refl E) as [_ [_ H]].
  rewrite H. reflexivity.
Defined.


(** ** The rule table *)

Lemma split_from_words (s : text) :
  forall cur, forallb (fun c => negb (is_space c)) cur = true ->
              Forall word (split_from cur s).
Proof.
  induction s as [|c s IH]; intros cur Hcur; cbn [split_from].
  - destruct cur; constructor; [|constructor]. split; [discriminate|assumption].
  - destruct (is_space c) eqn:E.
    + destruct cur as [|d cur]; [now apply IH|].
      constructor; [split; [discriminate|assumption]|now apply IH].
    + apply IH. rewrite forallb_app, Hcur. cbn. now rewrite E.
Qed.

Lemma split_words_ok (s : text) : Forall word (split s).
Proof. now apply split_from_words. Qed.

Section Table.

Import PhraseNode RegExCompressor.

Lemma table_ok_init : table_ok init.
Proof.
  unfold table_ok. cbn [_expressions init map length].
  split; [constructor|]. split; [constructor|]. split; [reflexivity|].
  split; [reflexivity|]. split; [constructor|].
  split; [repeat constructor|reflexivity].
Qed.

Lemma table_ok_with_phrases (self : t) (ph : registry) :
  table_ok self -> registry_ok ph -> has root ph = true ->
  (forall a b, edge_count a b (phrases self) <= edge_count a b ph) ->
  table_ok (with_phrases self ph).
Proof.
  intros [H1 [H2 [H3 [H4 [H5 [H6 H7]]]]]] Hok Hroot Hle.
  unfold table_ok. cbn [_expressions with_phrases token phrases].
  repeat split; try assumption.
  eapply Forall_impl; [|exact H5]. intros e [w1 [w2 [E [Hw1 [Hw2 Hc]]]]].
  exists w1, w2. repeat split; try assumption; try apply Hw1; try apply Hw2.
  specialize (Hle w1 w2). lia.
Qed.

Lemma table_ok_gen_regex (self : t) (a b : text) (r : option RegExTuple.t)
  (self' : t) :
  table_ok self -> word a -> word b ->
  5 <= edge_count a b (phrases self) ->
  gen_regex self a b = Ok (r, self') -> table_ok self'.
Proof.
  intros Hok Ha Hb Hc H. unfold gen_regex in H.
  destruct (has _ (_expressions self)) eqn:E; [inversion H; now subst|].
  destruct (Token.next (token self)) as [[tok tk]|] eqn:En; [|discriminate].
  inversion H; subst. clear H.
  destruct Hok as [H1 [H2 [H3 [H4 [H5 [H6 H7]]]]]].
  unfold table_ok. cbn [_expressions token phrases].
  rewrite set_fresh by exact E. rewrite !map_app, length_app. cbn [map length fst snd].
  replace (length (_expressions self) + 1) with (S (length (_expressions self)))
    by lia.
  split.
  { apply NoDup_app; [assumption|repeat constructor; simpl; tauto|].
    intros x Hx [<-|[]]. apply has_false_in in E. contradiction. }
  split.
  { apply Forall_app. split; [assumption|]. repeat constructor. }
  split.
  { cbn [Token.after]. rewrite H3, En. reflexivity. }
  split.
  { cbn [Token.issued]. rewrite H3, En, H4. reflexivity. }
  split; [|split; assumption].
  apply Forall_app. split; [assumption|]. constructor; [|constructor].
  exists a, b. cbn [fst]. repeat split; try apply Ha; try apply Hb; assumption.
Qed.

Lemma map_words_table (words : list text) :
  forall self lastnode at_root index todo self' todo',
    table_ok self -> Forall word words ->
    has lastnode (phrases self) = true ->
    (at_root = false -> word lastnode) ->
    map_words self lastnode at_root words index todo = Ok (self', todo') ->
    table_ok self'.
Proof.
  induction words as [|w rest IH]; intros self lastnode at_root index todo
    self' todo' Hok Hwords Hlast Hword H; cbn [map_words] in H.
  - inversion H; now subst.
  - inversion Hwords as [|? ? Hw Hrest]; subst.
    destruct w as [|c w0]; [destruct Hw; congruence|]. set (w := c :: w0) in *.
    pose proof Hok as [_ [_ [_ [_ [_ [Hreg Hroot]]]]]].
    destruct (intern_spec w (phrases self) Hreg) as [Hok0 [Hhw [Hhas0 [Hec0 _]]]].
    assert (Hlast0 : has lastnode (intern w (phrases self)) = true)
      by (rewrite Hhas0, Hlast; reflexivity).
    destruct (add_node_spec lastnode w _ Hok0 Hlast0 Hhw)
      as [ph' [Hadd [Hok1 [Hkeys [Hec1 _]]]]].
    rewrite Hadd in H. cbn [bind] in H.
    assert (Hhas1 : forall k, has k ph' = has k (intern w (phrases self))).
    { intros k. destruct (has k ph') eqn:E1.
      - apply has_in in E1. rewrite Hkeys in E1. apply has_in in E1. now rewrite E1.
      - apply has_false_in in E1. rewrite Hkeys in E1. apply has_false_in in E1.
        now rewrite E1. }
    assert (Hok' : table_ok (with_phrases self ph')).
    { apply table_ok_with_phrases; try assumption.
      - rewrite Hhas1, Hhas0, Hroot. reflexivity.
      - intros a b. rewrite Hec1, Hec0. lia. }
    assert (Hw' : has w (phrases (with_phrases self ph')) = true)
      by (cbn [with_phrases phrases]; now rewrite Hhas1).
    destruct ((5 <=? edge_count lastnode w (intern w (phrases self)) + 1)
              && negb at_root) eqn:Ec.
    + apply andb_true_iff in Ec. destruct Ec as [Ec Er].
      apply Nat.leb_le in Ec. apply negb_true_iff in Er.
      bind_inv H. destruct a as [new_reg self2].
      pose proof (gen_regex_phrases _ _ _ _ _ Hm) as Hph.
      apply table_ok_gen_regex in Hm; [|auto..].
      2:{ cbn [with_phrases phrases]. rewrite Hec1, !text_eqb_refl. cbn [andb].
          lia. }
      assert (Hw2 : has w (phrases self2) = true) by now rewrite Hph.
      destruct new_reg as [r|]; eapply IH in H; eauto.
    + eapply IH in H; eauto.
Qed.

Lemma first_pass_table (chunk : list text) :
  forall self index changes todo self' chunk' changes' todo',
    table_ok self ->
    first_pass self index chunk changes todo = Ok (self', chunk', changes', todo') ->
    table_ok self'.
Proof.
  induction chunk as [|line0 rest IH]; intros self index changes todo
    self' chunk' changes' todo' Hok H; cbn [first_pass] in H.
  - inversion H; now subst.
  - destruct (split_trailer line0) as [line trailer].
    bind_inv H. destruct a as [new_line delta].
    bind_inv H. destruct a as [self1 todo1].
    bind_inv H. destruct a as [[[self2 rest'] c2] todo2].
    inversion H; subst. clear H.
    apply map_words_table in Hm0; [eauto|assumption|apply split_words_ok| |].
    + apply Hok.
    + discriminate.
Qed.

Lemma press_loop_table (fuel : nat) :
  forall self chunk self' chunk',
    table_ok self -> press_loop fuel self chunk = Ok (self', chunk') ->
    table_ok self'.
Proof.
  induction fuel as [|fuel IH]; intros self chunk self' chunk' Hok H;
    cbn [press_loop] in H; [discriminate|].
  bind_inv H. destruct a as [[changes self1] chunk1].
  unfold press_mainloop in Hm.
  bind_inv Hm. destruct a as [[[s1 c1] n1] t1].
  bind_inv Hm. destruct a as [c2 n2]. inversion Hm; subst.
  apply first_pass_table in Hm0; [|assumption].
  destruct (changes =? 0); [inversion H; now subst|eauto].
Qed.

Lemma compress_loop_table (fuel : nat) (lines : list text) :
  forall self chunk counter out self' out',
    table_ok self ->
    compress_loop fuel self lines chunk counter out = Ok (self', out') ->
    table_ok self'.
Proof.
  induction lines as [|line rest IH]; intros self chunk counter out self' out'
    Hok H; cbn [compress_loop] in H.
  - inversion H; now subst.
  - destruct line as [|c line]; [inversion H; now subst|].
    destruct (CHUNK_SIZE <=? counter + 1).
    + bind_inv H. destruct a as [self1 pressed].
      apply press_loop_table in Hm; eauto.
    + eauto.
Qed.

Lemma compress_table (fuel : nat) (self : t) (lines out : list text) (self' : t) :
  table_ok self -> compress fuel self lines = Ok (out, self') -> table_ok self'.
Proof.
  intros Hok H. unfold compress in H. bind_inv H. destruct a as [s o].
  inversion H; subst. apply compress_loop_table in Hm; [|assumption].
  exact Hm.
Qed.

End Table.


Lemma word_no_space (w : text) : word w -> count_space w = 0 /\ ~ In newline w.
Proof.
  intros [_ H]. rewrite forallb_forall in H. split.
  - apply (count_occ_not_In ascii_dec). intros Hin. specialize (H _ Hin).
    discriminate.
  - intros Hin. specialize (H _ Hin). discriminate.
Qed.

Lemma split_from_word (w : text) :
  forall cur rest,
    forallb (fun c => negb (is_space c)) w = true ->
    split_from cur (w ++ rest) = split_from (cur ++ w) rest.
Proof.
  induction w as [|c w IH]; intros cur rest H; [now rewrite app_nil_r|].
  cbn [forallb] in H. apply andb_true_iff in H. destruct H as [Hc Hw].
  apply negb_true_iff in Hc. cbn [app split_from]. rewrite Hc, IH by assumption.
  now rewrite <- app_assoc.
Qed.

Lemma split_two_words (w1 w2 : text) :
  word w1 -> word w2 -> split (w1 ++ txt " " ++ w2) = [w1; w2].
Proof.
  intros [Hn1 H1] [Hn2 H2]. unfold split.
  rewrite split_from_word by assumption. cbn [app txt list_ascii_of_string split_from].
  change (is_space " ") with true. cbn iota.
  destruct w1 as [|c w1]; [congruence|].
  rewrite <- (app_nil_r w2), split_from_word by assumption.
  cbn [app split_from]. destruct w2; [congruence|now rewrite app_nil_r].
Qed.

Lemma issued_not_first (n : nat) : ~ In (txt "<0>") (Token.issued n).
Proof.
  intros Hin. destruct (proj2 (issued_spec n) _ Hin) as [i [tk [Hi [Ha Hs]]]].
  assert (H0 : Token.after 0 = Some Token.init) by reflexivity.
  assert (E : Token.token Token.init = Token.token tk) by exact Hs.
  pose proof (after_inj _ _ _ _ H0 Ha E). lia.
Qed.

(** X7: tokens and rules correspond one to one.  From a well-formed
    compressor (a fresh one is), after [compress] the k-th rule of the table
    holds the k-th token that the allocator has issued, the allocator has
    issued exactly as many tokens as there are rules, no two rules share a
    token or a phrase, the token of a fresh allocator is used by no rule,
    and every rule stands under its own phrase and uses it as its pattern;
    the compressor is well formed again. *)
Theorem rules_hold_issued_tokens (fuel : nat) (self : RegExCompressor.t)
  (lines out : list text) (self' : RegExCompressor.t) :
  table_ok self ->
  RegExCompressor.compress fuel self lines = Ok (out, self') ->
  let rules := RegExCompressor._expressions self' in
  let tokens := map (fun e => RegExTuple.token (snd e)) rules in
  table_ok self'
  /\ tokens = Token.issued (length rules)
  /\ Token.after (length rules) = Some (RegExCompressor.token self')
  /\ NoDup tokens
  /\ ~ In (txt "<0>") tokens
  /\ NoDup (map fst rules)
  /\ Forall (fun e => RegExTuple.replaces (snd e) = fst e
                      /\ RegExTuple.regex (snd e) = fst e) rules.
Proof.
  intros Hok H. cbv zeta. pose proof (compress_table _ _ _ _ _ Hok H) as Hok'.
  split; [exact Hok'|].
  destruct Hok' as [H1 [H2 [H3 [H4 _]]]].
  split; [exact H4|]. split; [exact H3|].
  split; [rewrite H4; apply issued_NoDup|].
  split; [rewrite H4; apply issued_not_first|].
  split; assumption.
Qed.

Lemma rules_hold_issued_tokens_witness :
  table_ok RegExCompressor.init
  /\ exists self',
       RegExCompressor.compress 4 RegExCompressor.init error_lines
       = Ok (repeat (txt "<3>") 5 ++ repeat (txt "<4>") 20, self')
       /\ NoDup (map (fun e => RegExTuple.token (snd e))
                     (RegExCompressor._expressions self')).
Proof.
  split; [exact table_ok_init|].
  destruct (RegExCompressor.compress 4 RegExCompressor.init error_lines)
    as [[out self']| | |] eqn:E; [|vm_compute in E; discriminate ..].
  exists self'.
  pose proof (rules_hold_issued_tokens _ _ _ _ _ table_ok_init E) as H.
  cbv zeta in H. split; [|apply H].
  vm_compute in E. inversion E. reflexivity.
Defined.

(** X8: every rule is for a two-word phrase seen five times.  From a
    well-formed compressor, after [compress] every phrase of the table is a
    word, one space and a word; it holds no other whitespace, so never the
    line-start sentinel, and the registry counts the second word after the
    first five times or more. *)
Theorem rule_phrases_are_counted_pairs (fuel : nat) (self : RegExCompressor.t)
  (lines out : list text) (self' : RegExCompressor.t) :
  table_ok self ->
  RegExCompressor.compress fuel self lines = Ok (out, self') ->
  Forall (fun e =>
            count_space (fst e) = 1 /\ ~ In newline (fst e)
            /\ exists w1 w2,
                 fst e = w1 ++ txt " " ++ w2 /\ split (fst e) = [w1; w2]
                 /\ 5 <= PhraseNode.edge_count w1 w2
                           (RegExCompressor.phrases self'))
         (RegExCompressor._expressions self').
Proof.
  intros Hok H. pose proof (compress_table _ _ _ _ _ Hok H) as Hok'.
  destruct Hok' as [_ [_ [_ [_ [H5 _]]]]].
  eapply Forall_impl; [|exact H5].
  intros e [w1 [w2 [E [Hw1 [Hw2 Hc]]]]]. cbv beta.
  destruct (word_no_space _ Hw1) as [Hs1 Hn1].
  destruct (word_no_space _ Hw2) as [Hs2 Hn2].
  destruct e as [k r]. cbn [fst] in *. subst k.
  destruct additive_spaces as [_ Happ]. rewrite !Happ, Hs1, Hs2.
  split; [reflexivity|]. split.
  - intros Hin. apply in_app_iff in Hin. destruct Hin as [Hin|Hin]; [auto|].
    apply in_app_iff in Hin. destruct Hin as [[Hin|[]]|Hin]; [discriminate|auto].
  - exists w1, w2. split; [reflexivity|]. split; [|exact Hc].
    apply split_two_words; assumption.
Qed.


(** ** Substitution of a plain phrase *)

Lemma re_compile_plain (p : text) : plain p -> re_compile p = Literal p.
Proof.
  unfold plain. induction p as [|c p IH]; intros H; [reflexivity|].
  cbn [forallb] in H. apply andb_true_iff in H. destruct H as [Hc Hp].
  unfold plain_char in Hc. apply andb_true_iff in Hc. destruct Hc as [Hb Hm].
  apply negb_true_iff in Hb, Hm. cbn [re_compile]. rewrite Hb, Hm, (IH Hp).
  reflexivity.
Qed.

Lemma starts_with_nil_r (l : text) : l <> [] -> starts_with l [] = false.
Proof. destruct l; [congruence|reflexivity]. Qed.

Lemma re_count_literal_zero (l s : text) :
  l <> [] -> (re_count (m_literal l) s = 0 <-> contains l s = false).
Proof.
  intros Hl. unfold re_count. induction s as [|c s IH].
  - cbn [scan filter length contains]. rewrite starts_with_nil_r by assumption.
    tauto.
  - cbn [scan contains]. unfold m_literal at 1.
    destruct (starts_with l (c :: s)) eqn:E.
    + destruct l as [|a l]; [congruence|]. cbn [length filter is_match orb].
      split; discriminate.
    + cbn [filter is_match orb]. exact IH.
Qed.

Lemma apply_one_plain (line : text) (r : RegExTuple.t) :
  RegExTuple.regex r <> [] -> plain (RegExTuple.regex r) ->
  mem_ascii backslash (RegExTuple.token r) = false ->
  RegExCompressor.apply_one line r
  = Ok (re_sub (m_literal (RegExTuple.regex r)) (fun _ => RegExTuple.token r) line,
        re_count (m_literal (RegExTuple.regex r)) line).
Proof.
  intros Hne Hp Ht. unfold RegExCompressor.apply_one, re_subn.
  rewrite (re_compile_plain _ Hp), Ht.
  destruct (RegExTuple.regex r); [congruence|reflexivity].
Qed.

(** X9: what one substitution does.  For a rule whose phrase is not empty
    and holds no backslash and no pattern character, and whose token holds
    no backslash, [apply_one] returns; the count it reports is zero exactly
    when the phrase does not occur in the line, and then the line comes back
    as it was; and every counted substitution has changed the length of the
    line by the length of the token less that of the phrase. *)
Theorem apply_one_replaces_occurrences (line : text) (r : RegExTuple.t) :
  RegExTuple.regex r <> [] -> plain (RegExTuple.regex r) ->
  mem_ascii backslash (RegExTuple.token r) = false ->
  exists line' c,
    RegExCompressor.apply_one line r = Ok (line', c)
    /\ (c = 0 <-> contains (RegExTuple.regex r) line = false)
    /\ (c = 0 -> line' = line)
    /\ length line' + c * length (RegExTuple.regex r)
       = length line + c * length (RegExTuple.token r).
Proof.
  intros Hne Hp Ht. do 2 eexists. split; [now apply apply_one_plain|].
  split; [now apply re_count_literal_zero|]. split.
  - intros Hc. apply re_sub_no_match; [apply bounded_literal|exact Hc].
  - apply (re_sub_exact (m_literal (RegExTuple.regex r))
             (fun _ => RegExTuple.token r) (@length ascii)
             (bounded_literal _) additive_length).
    intros mt x Hm. apply matched_literal in Hm. now subst.
Qed.

Lemma apply_one_replaces_occurrences_witness :
  exists line' c,
    RegExCompressor.apply_one (txt "a b a b a")
      (RegExTuple.mk (txt "a b") (txt "a b") (txt "<1>")) = Ok (line', c)
    /\ (c = 0 <-> contains (txt "a b") (txt "a b a b a") = false)
    /\ (c = 0 -> line' = txt "a b a b a")
    /\ length line' + c * 3 = 9 + c * 3.
Proof.
  apply (apply_one_replaces_occurrences (txt "a b a b a")
           (RegExTuple.mk (txt "a b") (txt "a b") (txt "<1>")));
    [discriminate|reflexivity|reflexivity].
Defined.


(** ** The length of a token *)

Lemma shorter_closed (len : nat) : 61 * shorter len + 1 = 62 ^ len.
Proof.
  induction len as [|len IH]; [reflexivity|].
  cbn [shorter]. rewrite base_62. rewrite Nat.pow_succ_r'. lia.
Qed.

Lemma counter_value_lt (l : list nat) :
  Forall (fun d => d < base) l -> counter_value l < 62 ^ length l.
Proof.
  rewrite base_62. induction 1 as [|d l Hd Hall IH]; [simpl; lia|].
  cbn [counter_value length]. rewrite Nat.pow_succ_r', base_62. nia.
Qed.

(** X10: how long tokens get.  After [n] calls of [__next__] on a fresh
    allocator the allocator holds as many generators as digits, every digit
    is a character of [Token.chars], the token is the digits and the two
    brackets, and the number [len] of digits is the one with
    [62 ^ len <= 61 * n + 62 < 62 ^ (len + 1)]: one digit for the first 62
    tokens, two for the next 3844, and so on. *)
Theorem token_length (n : nat) :
  exists tk,
    Token.after n = Some tk
    /\ length (Token.generators tk) = length (Token.digits tk)
    /\ Forall (fun c => In c Token.chars) (Token.digits tk)
    /\ length (Token.token tk) = length (Token.digits tk) + 2
    /\ 62 ^ length (Token.digits tk) <= 61 * n + 62
       < 62 ^ S (length (Token.digits tk)).
Proof.
  destruct (after_embed n) as [vals [Ha [Hne [Hall Hr]]]].
  exists (embed vals). split; [exact Ha|].
  rewrite embed_generators_length, embed_digits_length.
  split; [reflexivity|]. split.
  - unfold embed. cbn [Token.digits]. apply Forall_map.
    eapply Forall_impl; [|exact Hall]. intros v Hv. apply nth_In. exact Hv.
  - split.
    + unfold Token.token. rewrite !length_app, embed_digits_length. simpl. lia.
    + pose proof (counter_value_lt _ (significance_Forall _ _ Hall)) as Hlt.
      unfold rank in Hr. rewrite significance_length in *.
      pose proof (shorter_closed (length vals)) as Hc.
      rewrite Nat.pow_succ_r'. lia.
Qed.


(** ** Plain texts *)

Lemma plain_In (p : text) : plain p <-> forall c, In c p -> plain_char c = true.
Proof. unfold plain. apply forallb_forall. Qed.

Lemma plain_app (a b : text) : plain (a ++ b) <-> plain a /\ plain b.
Proof. unfold plain. rewrite forallb_app. apply andb_true_iff. Qed.

Lemma plain_no_backslash (p : text) : plain p -> mem_ascii backslash p = false.
Proof.
  unfold plain, mem_ascii. induction p as [|c p IH]; [reflexivity|].
  cbn [forallb existsb]. intros H. apply andb_true_iff in H. destruct H as [Hc Hp].
  rewrite (IH Hp), orb_false_r. unfold plain_char in Hc.
  apply andb_true_iff in Hc. destruct Hc as [Hc _]. apply negb_true_iff in Hc.
  rewrite Ascii.eqb_sym. exact Hc.
Qed.

Lemma scan_chars {X : Type} (m : matcher X) (repl : X -> text) (c : ascii)
  (s : text) :
  forall k, In c (concat (map (render repl) (scan m k s))) ->
            In c s \/ exists x, In c (repl x).
Proof.
  induction s as [|c0 s IH]; intros k H; [destruct H|].
  destruct k as [|k]; cbn [scan] in H.
  - destruct (m (c0 :: s)) as [[[|n] x]|]; cbn [map concat render] in H;
      apply in_app_iff in H; destruct H as [H|H].
    + destruct H as [H|[]]. left. now left.
    + apply IH in H. destruct H; [left; now right|now right].
    + right. now exists x.
    + apply IH in H. destruct H; [left; now right|now right].
    + destruct H as [H|[]]. left. now left.
    + apply IH in H. destruct H; [left; now right|now right].
  - apply IH in H. destruct H; [left; now right|now right].
Qed.

Lemma re_sub_chars {X : Type} (m : matcher X) (repl : X -> text) (c : ascii)
  (s : text) :
  In c (re_sub m repl s) -> In c s \/ exists x, In c (repl x).
Proof. apply scan_chars. Qed.

Lemma rstrip_chars (s : text) (c : ascii) : In c (rstrip s) -> In c s.
Proof.
  intros H. destruct (rstrip_prefix s) as [tail E]. rewrite E.
  apply in_app_iff. now left.
Qed.

Lemma body_chars (line : text) (c : ascii) :
  In c (body line) -> In c line \/ c = "#"%char.
Proof.
  unfold body, RegExCompressor.split_trailer. cbn [fst]. intros H.
  apply rstrip_chars in H. rewrite clean_encoding_subs in H.
  apply re_sub_chars in H. destruct H as [H|[x []]].
  apply re_sub_chars in H. destruct H as [H|[x [H|[]]]]; [now left|].
  right. now symmetry.
Qed.

Lemma body_plain (line : text) : plain line -> plain (body line).
Proof.
  rewrite !plain_In. intros H c Hc. apply body_chars in Hc.
  destruct Hc as [Hc| ->]; [now apply H|reflexivity].
Qed.

Lemma body_encode_plain (line : text) :
  ~ In backslash line -> plain (body (encode_punct_and_digits line)).
Proof.
  intros Hb. unfold body, RegExCompressor.split_trailer. cbn [fst].
  rewrite clean_encoding_abstract. apply plain_In. intros c Hc.
  apply rstrip_chars in Hc. pose proof (abstract_runs_chars _ _ Hc) as Hcl.
  apply re_sub_chars in Hc.
  destruct Hcl as [Hcl| ->]; [|reflexivity].
  destruct Hc as [Hc|[x [Hc|[]]]]; [|now subst].
  unfold plain_char. rewrite (meta_in_class _ Hcl).
  destruct (Ascii.eqb c backslash) eqn:E; [|reflexivity].
  apply Ascii.eqb_eq in E. subst. contradiction.
Qed.

(** ** Tokens are plain *)

Lemma chars_plain : plain Token.chars.
Proof. vm_compute. reflexivity. Qed.

Lemma after_chars (n : nat) (tk : Token.t) :
  Token.after n = Some tk ->
  Forall (fun c => In c Token.chars) (Token.digits tk).
Proof.
  intros H. destruct (after_embed n) as [vals [Ha [_ [Hall _]]]].
  rewrite Ha in H. inversion H; subst. unfold embed. cbn [Token.digits].
  apply Forall_map. eapply Forall_impl; [|exact Hall].
  intros v Hv. apply nth_In. exact Hv.
Qed.

Lemma after_token_plain (n : nat) (tk : Token.t) :
  Token.after n = Some tk -> plain (Token.token tk).
Proof.
  intros H. apply after_chars in H. unfold Token.token.
  apply plain_app. split; [reflexivity|]. apply plain_app. split; [|reflexivity].
  apply plain_In. intros c Hc. rewrite Forall_forall in H.
  apply (proj1 (plain_In _) chars_plain). now apply H.
Qed.

Lemma after_next_plain (n : nat) (tk : Token.t) :
  Token.after n = Some tk ->
  exists tok tk', Token.next tk = Some (tok, tk') /\ plain tok.
Proof.
  intros H. destruct (after_embed n) as [vals [Ha [Hne [Hall _]]]].
  assert (Hs : Token.after (S n)
               = Some (embed (significance (counter_next (significance vals)))))
    by (cbn [Token.after]; now rewrite Ha, next_embed by assumption).
  rewrite Ha in H. inversion H; subst. rewrite next_embed by assumption.
  cbv zeta. do 2 eexists. split; [reflexivity|].
  eapply after_token_plain. exact Hs.
Qed.


(** ** Every step returns on plain texts *)

Section Returns.

Import PhraseNode RegExCompressor.

Lemma apply_one_returns (line : text) (r : RegExTuple.t) :
  rule_plain r ->
  exists line' c,
    apply_one line r = Ok (line', c) /\ (plain line -> plain line').
Proof.
  intros [Hne [Hp Ht]]. do 2 eexists.
  split; [apply apply_one_plain; auto using plain_no_backslash|].
  rewrite !plain_In. intros Hl c Hc. apply re_sub_chars in Hc.
  destruct Hc as [Hc|[_ Hc]]; [now apply Hl|].
  now apply (proj1 (plain_In _) Ht).
Qed.

Lemma apply_rules_returns (rules : list (text * RegExTuple.t)) :
  forall line c0,
    Forall (fun e => rule_plain (snd e)) rules -> plain line ->
    exists line' c, apply_rules rules line c0 = Ok (line', c) /\ plain line'.
Proof.
  induction rules as [|[k r] rules IH]; intros line c0 Hall Hl;
    cbn [apply_rules].
  - now exists line, c0.
  - inversion Hall as [|? ? Hr Hrest]; subst. cbn [snd] in Hr.
    destruct (apply_one_returns line r Hr) as [line1 [d [E Hp]]].
    rewrite E. cbn [bind]. apply IH; auto.
Qed.

Lemma gen_regex_returns (self : t) (a b : text) :
  table_ok self -> table_plain self -> plain a -> plain b ->
  exists r self',
    gen_regex self a b = Ok (r, self') /\ table_plain self'
    /\ forall x, r = Some x -> rule_plain x.
Proof.
  intros Hok Hpl Ha Hb. unfold gen_regex.
  destruct (has _ (_expressions self)) eqn:E.
  - exists None, self. split; [reflexivity|]. split; [assumption|discriminate].
  - destruct Hok as [_ [_ [Haft _]]].
    destruct (after_next_plain _ _ Haft) as [tok [tk [En Htok]]].
    rewrite En.
    assert (Hr : rule_plain (RegExTuple.mk (a ++ txt " " ++ b) (a ++ txt " " ++ b) tok)).
    { unfold rule_plain. cbn [RegExTuple.regex RegExTuple.token].
      split; [destruct a; discriminate|]. split; [|exact Htok].
      apply plain_app. split; [exact Ha|]. apply plain_app. now split. }
    do 2 eexists. split; [reflexivity|]. split.
    + unfold table_plain. cbn [_expressions]. rewrite set_fresh by exact E.
      apply Forall_app. split; [exact Hpl|]. constructor; [exact Hr|constructor].
    + intros x Hx. inversion Hx; subst. exact Hr.
Qed.

Lemma todo_plain_snoc (todo : todo_list) (r : RegExTuple.t) (index : nat) :
  todo_plain todo -> rule_plain r -> todo_plain (todo ++ [(r, index)]).
Proof.
  intros Ht Hr. apply Forall_app. split; [exact Ht|]. constructor; [exact Hr|constructor].
Qed.

Lemma map_words_returns (words : list text) :
  forall self lastnode at_root index todo,
    table_ok self -> table_plain self -> todo_plain todo ->
    Forall word words -> Forall plain words ->
    has lastnode (phrases self) = true ->
    (at_root = false -> word lastnode /\ plain lastnode) ->
    exists self' todo',
      map_words self lastnode at_root words index todo = Ok (self', todo')
      /\ table_ok self' /\ table_plain self' /\ todo_plain todo'.
Proof.
  induction words as [|w rest IH]; intros self lastnode at_root index todo
    Hok Hpl Htodo Hwords Hplain Hlast Hword; cbn [map_words].
  - now exists self, todo.
  - inversion Hwords as [|? ? Hw Hrest]; subst.
    inversion Hplain as [|? ? Hpw Hprest]; subst.
    destruct w as [|c w0]; [destruct Hw; congruence|]. set (w := c :: w0) in *.
    pose proof Hok as [_ [_ [_ [_ [_ [Hreg Hroot]]]]]].
    destruct (intern_spec w (phrases self) Hreg) as [Hok0 [Hhw [Hhas0 [Hec0 _]]]].
    assert (Hlast0 : has lastnode (intern w (phrases self)) = true)
      by (rewrite Hhas0, Hlast; reflexivity).
    destruct (add_node_spec lastnode w _ Hok0 Hlast0 Hhw)
      as [ph' [Hadd [Hok1 [Hkeys [Hec1 _]]]]].
    rewrite Hadd. cbn [bind].
    assert (Hhas1 : forall k, has k ph' = has k (intern w (phrases self))).
    { intros k. destruct (has k ph') eqn:E1.
      - apply has_in in E1. rewrite Hkeys in E1. apply has_in in E1. now rewrite E1.
      - apply has_false_in in E1. rewrite Hkeys in E1. apply has_false_in in E1.
        now rewrite E1. }
    assert (Hok' : table_ok (with_phrases self ph')).
    { apply table_ok_with_phrases; try assumption.
      - rewrite Hhas1, Hhas0, Hroot. reflexivity.
      - intros a b. rewrite Hec1, Hec0. lia. }
    assert (Hpl' : table_plain (with_phrases self ph')) by exact Hpl.
    assert (Hw' : has w (phrases (with_phrases self ph')) = true)
      by (cbn [with_phrases phrases]; now rewrite Hhas1).
    destruct ((5 <=? edge_count lastnode w (intern w (phrases self)) + 1)
              && negb at_root) eqn:Ec.
    + apply andb_true_iff in Ec. destruct Ec as [Ec Er].
      apply Nat.leb_le in Ec. apply negb_true_iff in Er.
      destruct (Hword Er) as [Hwl Hpll].
      destruct (gen_regex_returns (with_phrases self ph') lastnode w
                  Hok' Hpl' Hpll Hpw) as [new_reg [self2 [Eg [Hpl2 Hnew]]]].
      rewrite Eg. cbn [bind].
      pose proof (gen_regex_phrases _ _ _ _ _ Eg) as Hph.
      assert (Hok2 : table_ok self2).
      { eapply table_ok_gen_regex; [exact Hok'|exact Hwl|exact Hw| |exact Eg].
        cbn [with_phrases phrases]. rewrite Hec1, !text_eqb_refl. cbn [andb].
        lia. }
      assert (Hw2 : has w (phrases self2) = true) by now rewrite Hph.
      destruct new_reg as [r|]; apply IH; auto.
      apply todo_plain_snoc; auto.
    + apply IH; auto.
Qed.

Lemma split_from_plain (s : text) :
  forall cur, plain cur -> plain s -> Forall plain (split_from cur s).
Proof.
  induction s as [|c s IH]; intros cur Hcur Hs; cbn [split_from].
  - destruct cur; constructor; [assumption|constructor].
  - assert (Hc : plain_char c = true /\ plain s).
    { unfold plain in *. cbn [forallb] in Hs. now apply andb_true_iff in Hs. }
    destruct Hc as [Hc Hs'].
    destruct (is_space c).
    + destruct cur as [|d cur]; [now apply IH|].
      constructor; [assumption|now apply IH].
    + apply IH; [|assumption]. apply plain_app. split; [assumption|].
      unfold plain. cbn [forallb]. now rewrite Hc.
Qed.

Lemma first_pass_returns (chunk : list text) :
  forall self index changes todo,
    table_ok self -> table_plain self -> todo_plain todo ->
    Forall (fun line => plain (body line)) chunk ->
    exists self' chunk' changes' todo',
      first_pass self index chunk changes todo
      = Ok (self', chunk', changes', todo')
      /\ table_ok self' /\ table_plain self' /\ todo_plain todo'
      /\ Forall plain chunk'.
Proof.
  induction chunk as [|line0 rest IH]; intros self index changes todo
    Hok Hpl Htodo Hall; cbn [first_pass].
  - exists self, [], changes, todo. split; [reflexivity|]. auto.
  - inversion Hall as [|? ? Hb Hrest]; subst. unfold body in Hb.
    destruct (split_trailer line0) as [line trailer]. cbn [fst] in Hb.
    destruct (apply_rules_returns _ line 0 Hpl Hb) as [new_line [delta [Ea Hn]]].
    unfold apply_regexes. rewrite Ea. cbn [bind].
    destruct (map_words_returns (split line) self root true index todo)
      as [self1 [todo1 [Em [Hok1 [Hpl1 Htodo1]]]]]; auto.
    { apply split_words_ok. }
    { apply split_from_plain; [reflexivity|assumption]. }
    { apply Hok. }
    { discriminate. }
    unfold map_nodes. rewrite Em. cbn [bind].
    destruct (IH self1 (S index) (changes + delta) todo1 Hok1 Hpl1 Htodo1 Hrest)
      as [self2 [rest' [c2 [todo2 [E2 [Hok2 [Hpl2 [Htodo2 Hrest2]]]]]]]].
    rewrite E2. cbn [bind].
    exists self2, (new_line :: rest'), c2, todo2. split; [reflexivity|]. auto.
Qed.

Lemma todo_loop_returns (n : nat) :
  forall pos todo line cur changes,
    todo_plain todo -> plain line -> plain cur ->
    exists cur' changes' todo',
      todo_loop n pos todo line cur changes = Ok (cur', changes', todo')
      /\ todo_plain todo' /\ plain cur'.
Proof.
  induction n as [|n IH]; intros pos todo line cur changes Htodo Hl Hc;
    cbn [todo_loop].
  - now exists cur, changes, todo.
  - destruct (nth_error todo pos) as [[regex stopline]|] eqn:E.
    2:{ now exists cur, changes, todo. }
    pose proof (nth_error_In _ _ E) as Hin.
    assert (Hr : rule_plain regex).
    { unfold todo_plain in Htodo. rewrite Forall_forall in Htodo.
      exact (Htodo _ Hin). }
    destruct (apply_one_returns line regex Hr) as [new_line [delta [Ea Hn]]].
    rewrite Ea. cbn [bind]. apply IH; auto.
    destruct (_ && _); [|assumption].
    unfold todo_plain in *. rewrite Forall_forall in *. intros e He.
    apply set_nth_In in He. destruct He as [He|He].
    + subst e. apply Htodo. apply last_In. intros Hnil. rewrite Hnil in Hin.
      contradiction.
    + apply Htodo. now apply removelast_In.
Qed.

Lemma catch_up_returns (chunk : list text) :
  forall changes todo,
    todo_plain todo -> Forall plain chunk ->
    exists chunk' changes',
      catch_up chunk changes todo = Ok (chunk', changes')
      /\ Forall plain chunk'.
Proof.
  induction chunk as [|line rest IH]; intros changes todo Htodo Hall;
    cbn [catch_up].
  - now exists [], changes.
  - inversion Hall as [|? ? Hl Hrest]; subst.
    destruct (todo_loop_returns (length todo) 0 todo line line changes
                Htodo Hl Hl) as [cur [c1 [todo1 [E1 [Htodo1 Hcur]]]]].
    rewrite E1. cbn [bind].
    destruct (IH c1 todo1 Htodo1 Hrest) as [rest' [c2 [E2 Hrest']]].
    rewrite E2. cbn [bind]. exists (cur :: rest'), c2. split; auto.
Qed.

Lemma press_mainloop_returns (self : t) (chunk : list text) :
  table_ok self -> table_plain self ->
  Forall (fun line => plain (body line)) chunk ->
  exists changes self' chunk',
    press_mainloop self chunk = Ok (changes, self', chunk')
    /\ table_ok self' /\ table_plain self' /\ Forall plain chunk'.
Proof.
  intros Hok Hpl Hall. unfold press_mainloop.
  destruct (first_pass_returns chunk self 0 0 [] Hok Hpl (Forall_nil _) Hall)
    as [self1 [chunk1 [c1 [todo [E1 [Hok1 [Hpl1 [Htodo Hc1]]]]]]]].
  rewrite E1. cbn [bind].
  destruct (catch_up_returns chunk1 c1 todo Htodo Hc1) as [chunk2 [c2 [E2 Hc2]]].
  rewrite E2. cbn [bind]. exists c2, self1, chunk2. auto.
Qed.

Lemma plain_bodies (chunk : list text) :
  Forall plain chunk -> Forall (fun line => plain (body line)) chunk.
Proof. intros H. eapply Forall_impl; [|exact H]. apply body_plain. Qed.

(** With fuel or without, the loop never raises on plain bodies. *)
Lemma press_loop_returns (fuel : nat) :
  forall self chunk,
    table_ok self -> table_plain self ->
    Forall (fun line => plain (body line)) chunk ->
    press_loop fuel self chunk = OutOfFuel
    \/ exists self' chunk',
         press_loop fuel self chunk = Ok (self', chunk')
         /\ table_ok self' /\ table_plain self' /\ Forall plain chunk'.
Proof.
  induction fuel as [|fuel IH]; intros self chunk Hok Hpl Hall;
    cbn [press_loop]; [now left|].
  destruct (press_mainloop_returns self chunk Hok Hpl Hall)
    as [changes [self1 [chunk1 [E [Hok1 [Hpl1 Hc1]]]]]].
  rewrite E. cbn [bind]. destruct (changes =? 0).
  - right. now exists self1, chunk1.
  - apply IH; auto using plain_bodies.
Qed.

Lemma press_loop_more_fuel (fuel : nat) :
  forall self chunk r k,
    press_loop fuel self chunk = Ok r ->
    press_loop (fuel + k) self chunk = Ok r.
Proof.
  induction fuel as [|fuel IH]; intros self chunk r k H;
    cbn [press_loop Nat.add] in *; [discriminate|].
  destruct (press_mainloop self chunk) as [[[changes self1] chunk1]|e| |];
    cbn [bind] in *; try discriminate.
  destruct (changes =? 0); [exact H|now apply IH].
Qed.

End Returns.


(** ** [compress] returns on lines without a backslash *)

Section Total.

Import PhraseNode RegExCompressor.

Lemma after_no_space (n : nat) (tk : Token.t) :
  Token.after n = Some tk ->
  ~ In space (Token.digits tk) /\ ~ In space (Token.token tk).
Proof.
  intros H. apply after_chars in H. rewrite Forall_forall in H.
  assert (Hd : ~ In space (Token.digits tk)).
  { intros Hin. apply H in Hin. now apply chars_no_space in Hin. }
  split; [exact Hd|]. unfold Token.token. intros Hin.
  apply in_app_iff in Hin. destruct Hin as [[Hin|[]]|Hin]; [discriminate|].
  apply in_app_iff in Hin. destruct Hin as [Hin|[Hin|[]]]; [auto|discriminate].
Qed.

Lemma table_rules_ok (self : t) : table_ok self -> rules_ok self.
Proof.
  intros [_ [H2 [H3 [H4 [H5 _]]]]]. split.
  - rewrite Forall_forall in *. intros e He. split.
    + destruct (H2 e He) as [_ Hr]. destruct (H5 e He) as [w1 [w2 [E _]]].
      rewrite Hr. destruct e as [k r]. cbn [fst] in *. subst k.
      destruct additive_spaces as [_ Happ]. rewrite !Happ.
      change (count_space (txt " ")) with 1. lia.
    + assert (Hin : In (RegExTuple.token (snd e)) (Token.issued (length (_expressions self)))).
      { rewrite <- H4. apply in_map_iff. now exists e. }
      destruct (proj2 (issued_spec _) _ Hin) as [i [tk [_ [Ha Hs]]]].
      rewrite Hs. now apply (after_no_space i).
  - now apply (after_no_space _ _ H3).
Qed.

Lemma encode_bodies (chunk : list text) :
  Forall (fun line => ~ In backslash line) chunk ->
  Forall (fun line => plain (body line)) (encode chunk).
Proof.
  intros H. unfold encode. apply Forall_map.
  eapply Forall_impl; [|exact H]. apply body_encode_plain.
Qed.

Lemma press_returns (self : t) (chunk : list text) :
  table_ok self -> table_plain self ->
  Forall (fun line => ~ In backslash line) chunk ->
  exists fuel self' chunk',
    (forall k, press (fuel + k) self chunk = Ok (self', chunk'))
    /\ table_ok self' /\ table_plain self' /\ Forall plain chunk'.
Proof.
  intros Hok Hpl Hall. unfold press.
  destruct (press_loop_terminates _ _ _ self (encode chunk)
              (table_rules_ok _ Hok) eq_refl eq_refl eq_refl) as [fuel Hf].
  destruct (press_loop_returns fuel self (encode chunk) Hok Hpl
              (encode_bodies _ Hall)) as [E|[self' [chunk' [E H]]]].
  - now elim Hf.
  - exists fuel, self', chunk'. split; [|exact H].
    intros k. now apply press_loop_more_fuel.
Qed.

Lemma compress_loop_returns (lines : list text) :
  forall self chunk counter out,
    table_ok self -> table_plain self ->
    Forall (fun line => ~ In backslash line) lines ->
    Forall (fun line => ~ In backslash line) chunk ->
    Forall plain out ->
    exists fuel self' out',
      (forall k, compress_loop (fuel + k) self lines chunk counter out
                 = Ok (self', out'))
      /\ table_ok self' /\ table_plain self' /\ Forall plain out'.
Proof.
  induction lines as [|line rest IH]; intros self chunk counter out
    Hok Hpl Hlines Hchunk Hout.
  - exists 0, self, out. auto.
  - inversion Hlines as [|? ? Hl Hrest]; subst.
    destruct line as [|c line]; [exists 0, self, out; auto|].
    cbn [compress_loop].
    destruct (CHUNK_SIZE <=? counter + 1).
    + destruct (press_returns self (chunk ++ [c :: line]) Hok Hpl)
        as [fuel1 [self1 [pressed [E1 [Hok1 [Hpl1 Hp1]]]]]].
      { apply Forall_app. split; [exact Hchunk|]. constructor; [exact Hl|constructor]. }
      destruct (IH self1 [] 0 (out ++ pressed) Hok1 Hpl1 Hrest (Forall_nil _))
        as [fuel2 [self2 [out2 [E2 H2]]]].
      { apply Forall_app. now split. }
      exists (fuel1 + fuel2), self2, out2. split; [|exact H2].
      intros k. rewrite <- Nat.add_assoc, E1. cbn [bind].
      replace (fuel1 + (fuel2 + k)) with (fuel2 + (fuel1 + k)) by lia.
      apply E2.
    + apply IH; auto.
      apply Forall_app. split; [exact Hchunk|]. constructor; [exact Hl|constructor].
Qed.

Lemma marked_none (s : text) : ~ In "$"%char s -> m_marked s = None.
Proof.
  intros H. unfold m_marked.
  replace (starts_with marker s) with false; [reflexivity|].
  symmetry. destruct s as [|a [|b s]]; [reflexivity| |].
  - cbn. now rewrite andb_false_r.
  - unfold marker. cbn [txt list_ascii_of_string]. rewrite !starts_with_cons.
    destruct (Ascii.eqb "$" b) eqn:E; [|now rewrite andb_false_r].
    apply Ascii.eqb_eq in E. subst b. elim H. right. now left.
Qed.

Lemma scan_marked_none (s : text) :
  ~ In "$"%char s -> forall k, scan m_marked k s = map Char (skipn k s).
Proof.
  induction s as [|c s IH]; intros H k; [now destruct k|].
  assert (Hs : ~ In "$"%char s) by (intros Hin; apply H; now right).
  destruct k as [|k]; cbn [scan skipn map].
  - rewrite (marked_none _ H). f_equal. apply (IH Hs 0).
  - apply (IH Hs).
Qed.

Lemma no_brace_contains (s : text) :
  ~ In "{"%char s -> contains (txt " {") s = false.
Proof.
  induction s as [|c s IH]; intros H; [reflexivity|].
  cbn [contains]. rewrite IH by (intros Hin; apply H; now right).
  rewrite orb_false_r. cbn [txt list_ascii_of_string].
  destruct s as [|b s]; [cbn; now rewrite andb_false_r|].
  rewrite !starts_with_cons.
  destruct (Ascii.eqb "{" b) eqn:E; [|now rewrite andb_false_r].
  apply Ascii.eqb_eq in E. subst b. elim H. right. now left.
Qed.

Lemma split_trailer_bare (line : text) :
  ~ In "$"%char line -> ~ In "{"%char line ->
  split_trailer line = (rstrip line, []).
Proof.
  intros Hd Hb. unfold split_trailer.
  rewrite search_trailer_none
    by (apply no_brace_contains; intros Hin; apply Hb; now apply rstrip_chars).
  assert (Hf : re_findall m_marked line = []).
  { unfold re_findall. rewrite (scan_marked_none _ Hd 0). cbn [skipn].
    clear. induction line as [|c l IH]; [reflexivity|exact IH]. }
  rewrite Hf. cbn [join]. f_equal.
  rewrite clean_encoding_subs. f_equal.
  assert (Hs : re_sub m_marked (fun _ => txt "#") line = line).
  { unfold re_sub. rewrite (scan_marked_none _ Hd 0). cbn [skipn].
    clear. induction line as [|c l IH]; [reflexivity|].
    cbn [map concat render app]. now rewrite IH. }
  rewrite Hs. now apply sub_trailer_no_brace.
Qed.

Lemma split_trailer_plain (line : text) :
  plain line -> split_trailer line = (rstrip line, []).
Proof.
  intros Hp. apply split_trailer_bare; intros Hin;
    apply (proj1 (plain_In _) Hp) in Hin; discriminate.
Qed.

Lemma lstrip_idem (s : text) : lstrip (lstrip s) = lstrip s.
Proof.
  induction s as [|c s IH]; [reflexivity|]. cbn [lstrip].
  destruct (is_space c) eqn:E; [exact IH|]. cbn [lstrip]. now rewrite E.
Qed.

Lemma rstrip_idem (s : text) : rstrip (rstrip s) = rstrip s.
Proof. unfold rstrip. now rewrite rev_involutive, lstrip_idem. Qed.

Lemma cat_body_returns (self : t) (lines : list text) :
  table_plain self -> Forall plain lines ->
  exists out,
    cat_body self lines = Ok out /\ length out = length lines
    /\ Forall plain out
    /\ Forall2 (fun line new =>
                  exists line1 c,
                    apply_regexes self (rstrip line) = Ok (line1, c)
                    /\ new = rstrip line1) lines out.
Proof.
  intros Hpl. induction 1 as [|line0 rest Hl Hrest [out [E [Hlen [Hout Hall]]]]];
    cbn [cat_body].
  - exists []. repeat split; constructor.
  - rewrite (split_trailer_plain _ Hl).
    assert (Hb : plain (rstrip line0)).
    { apply plain_In. intros x Hx. apply rstrip_chars in Hx.
      now apply (proj1 (plain_In _) Hl). }
    destruct (apply_rules_returns _ (rstrip line0) 0 Hpl Hb) as [line1 [d [Ea Hp1]]].
    unfold apply_regexes. rewrite Ea. cbn [bind]. rewrite E. cbn [bind].
    exists ((rstrip line1 ++ []) :: out).
    split; [reflexivity|]. split; [cbn [length]; now rewrite Hlen|].
    rewrite app_nil_r. split.
    + constructor; [|exact Hout]. apply plain_In. intros x Hx.
      apply rstrip_chars in Hx. now apply (proj1 (plain_In _) Hp1).
    + constructor; [|exact Hall]. now exists line1, d.
Qed.

End Total.


Lemma rule_phrases_are_counted_pairs_witness :
  table_ok RegExCompressor.init
  /\ exists out self',
       RegExCompressor.compress 4 RegExCompressor.init error_lines
       = Ok (out, self')
       /\ Forall (fun e =>
                    count_space (fst e) = 1 /\ ~ In newline (fst e)
                    /\ exists w1 w2,
                         fst e = w1 ++ txt " " ++ w2
                         /\ split (fst e) = [w1; w2]
                         /\ 5 <= PhraseNode.edge_count w1 w2
                                   (RegExCompressor.phrases self'))
                 (RegExCompressor._expressions self').
Proof.
  split; [exact table_ok_init|].
  destruct (RegExCompressor.compress 4 RegExCompressor.init error_lines)
    as [[out self']| | |] eqn:E; [|vm_compute in E; discriminate ..].
  exists out, self'. split; [reflexivity|].
  exact (rule_phrases_are_counted_pairs _ _ _ _ _ table_ok_init E).
Defined.

(** X11: a line without marks has no trailer.  On a line that holds no
    dollar sign and no opening brace [split_trailer] returns the line
    without its trailing whitespace and the empty trailer, and splitting
    the body again returns the same. *)
Theorem split_trailer_without_marks (line : text) :
  ~ In "$"%char line -> ~ In "{"%char line ->
  RegExCompressor.split_trailer line = (rstrip line, [])
  /\ RegExCompressor.split_trailer (rstrip line) = (rstrip line, []).
Proof.
  intros Hd Hb. split; [now apply split_trailer_bare|].
  rewrite split_trailer_bare, rstrip_idem; [reflexivity| |];
    intros Hin; apply rstrip_chars in Hin; contradiction.
Qed.

Lemma split_trailer_without_marks_witness :
  RegExCompressor.split_trailer (txt "<1> occurred  ") = (txt "<1> occurred", [])
  /\ RegExCompressor.split_trailer (txt "<1> occurred") = (txt "<1> occurred", []).
Proof.
  apply (split_trailer_without_marks (txt "<1> occurred  "));
    vm_compute; intuition discriminate.
Defined.

(** X12: [compress] returns on lines without a backslash.  From a
    well-formed compressor whose rules are plain (a fresh one is), on lines
    that hold no backslash, the loop of every window stops and no step
    raises: with enough fuel, and with any more, [compress] returns the same
    lines and compressor.  The compressor is again well formed with plain
    rules, it stores the lines returned, and these hold no backslash and no
    pattern character. *)
Theorem compress_returns (self : RegExCompressor.t) (lines : list text) :
  table_ok self -> table_plain self ->
  Forall (fun line => ~ In backslash line) lines ->
  exists fuel out self',
    (forall k, RegExCompressor.compress (fuel + k) self lines = Ok (out, self'))
    /\ table_ok self' /\ table_plain self'
    /\ RegExCompressor.compressed_output self' = Some out
    /\ Forall plain out.
Proof.
  intros Hok Hpl Hall.
  destruct (compress_loop_returns lines self [] 0 [] Hok Hpl Hall
              (Forall_nil _) (Forall_nil _))
    as [fuel [self1 [out [E [Hok1 [Hpl1 Hout]]]]]].
  exists fuel, out, (RegExCompressor.with_output self1 out).
  split; [intros k; unfold RegExCompressor.compress; now rewrite E|].
  split; [exact Hok1|]. split; [exact Hpl1|]. split; [reflexivity|exact Hout].
Qed.

Lemma compress_returns_witness :
  table_ok RegExCompressor.init /\ table_plain RegExCompressor.init
  /\ exists fuel out self',
       RegExCompressor.compress fuel RegExCompressor.init ab_lines
       = Ok (out, self')
       /\ Forall plain out.
Proof.
  split; [exact table_ok_init|]. split; [constructor|].
  assert (Hall : Forall (fun line => ~ In backslash line) ab_lines).
  { apply Forall_forall. intros l Hl. apply repeat_spec in Hl. subst l.
    vm_compute. intuition discriminate. }
  destruct (compress_returns RegExCompressor.init ab_lines table_ok_init
              (Forall_nil _) Hall) as [fuel [out [self' [E [_ [_ [_ Hp]]]]]]].
  exists fuel, out, self'. split; [|exact Hp].
  specialize (E 0). now rewrite Nat.add_0_r in E.
Defined.

(** X13: [cat_lines] returns on plain output.  For a compressor with plain
    rules that stores plain lines, [cat_lines] yields one line per stored
    line, then the marker and the phrases of the rules separated by a comma
    and a space; each line is the stored line without its trailing
    whitespace, with the rules applied and the trailing whitespace removed
    again, no trailer is attached, and the lines are plain. *)
Theorem cat_lines_returns (self : RegExCompressor.t) (stored : list text) :
  table_plain self ->
  RegExCompressor.compressed_output self = Some stored ->
  Forall plain stored ->
  exists out,
    RegExCompressor.cat_lines self
    = Ok (out ++ [RegExCompressor.EXPRESSIONS;
                  join (txt ", ") (map fst (RegExCompressor._expressions self))])
    /\ length out = length stored
    /\ Forall plain out
    /\ Forall2 (fun line new =>
                  exists line1 c,
                    RegExCompressor.apply_regexes self (rstrip line)
                    = Ok (line1, c)
                    /\ new = rstrip line1) stored out.
Proof.
  intros Hpl Hs Hall. unfold RegExCompressor.cat_lines. rewrite Hs.
  destruct (cat_body_returns self stored Hpl Hall) as [out [E H]].
  exists out. rewrite E. cbn [bind]. split; [reflexivity|exact H].
Qed.

Lemma cat_lines_returns_witness :
  exists out,
    RegExCompressor.cat_lines
      (RegExCompressor.with_output RegExCompressor.init [txt "a b  "])
    = Ok (out ++ [RegExCompressor.EXPRESSIONS; []])
    /\ length out = 1.
Proof.
  destruct (cat_lines_returns
              (RegExCompressor.with_output RegExCompressor.init [txt "a b  "])
              [txt "a b  "] (Forall_nil _) eq_refl)
    as [out [E [Hl _]]].
  - repeat constructor.
  - exists out. split; [exact E|exact Hl].
Defined.

(** ** Tokened texts *)

Lemma tokened_impl (toks toks' : list text) (s : text) :
  incl toks toks' -> tokened toks s -> tokened toks' s.
Proof.
  intros Hi. induction 1 as [|c s Hc Hs IH|d s Hin Hd Hs IH].
  - constructor.
  - now constructor.
  - apply tokened_tok; auto.
Qed.

Lemma tokened_app (toks : list text) (a b : text) :
  tokened toks a -> tokened toks b -> tokened toks (a ++ b).
Proof.
  intros Ha Hb. induction Ha as [|c s Hc Hs IH|d s Hin Hd Hs IH].
  - exact Hb.
  - cbn [app]. now constructor.
  - rewrite <- !app_assoc. now apply tokened_tok.
Qed.

Lemma tokened_bare (toks : list text) (s : text) :
  forallb (fun c => negb (bracket c)) s = true -> tokened toks s.
Proof.
  induction s as [|c s IH]; intros H; [constructor|].
  cbn [forallb] in H. apply andb_true_iff in H. destruct H as [Hc Hs].
  apply negb_true_iff in Hc. constructor; auto.
Qed.

Lemma chars_no_bracket (c : ascii) :
  In c Token.chars -> bracket c = false /\ Ascii.eqb c newline = false
                      /\ is_space c = false.
Proof.
  intros H.
  assert (Hall : forallb (fun c => negb (bracket c) && negb (Ascii.eqb c newline)
                                   && negb (is_space c)) Token.chars = true)
    by (vm_compute; reflexivity).
  rewrite forallb_forall in Hall. specialize (Hall c H).
  apply andb_true_iff in Hall. destruct Hall as [Hall H3].
  apply andb_true_iff in Hall. destruct Hall as [H1 H2].
  now rewrite negb_true_iff in H1, H2, H3.
Qed.

Lemma bracket_close (c : ascii) : bracket c = false -> Ascii.eqb c ">" = false.
Proof. unfold bracket. intros H. now apply orb_false_iff in H. Qed.

Lemma bracket_open (c : ascii) : bracket c = false -> Ascii.eqb c "<" = false.
Proof. unfold bracket. intros H. now apply orb_false_iff in H. Qed.

(** Digits end at the first closing bracket. *)
Lemma split_at_close (d d' a b : text) :
  Forall (fun c => In c Token.chars) d ->
  Forall (fun c => In c Token.chars) d' ->
  d ++ ">"%char :: a = d' ++ ">"%char :: b -> d = d' /\ a = b.
Proof.
  intros Hd. revert d'. induction Hd as [|c d Hc Hd IH]; intros d' Hd' H.
  - destruct Hd' as [|c' d' Hc' Hd']; cbn [app] in H.
    + inversion H. now split.
    + inversion H; subst. apply chars_no_bracket in Hc'.
      destruct Hc' as [Hc' _]. discriminate.
  - destruct Hd' as [|c' d' Hc' Hd']; cbn [app] in H.
    + inversion H; subst. apply chars_no_bracket in Hc.
      destruct Hc as [Hc _]. discriminate.
    + inversion H; subst. destruct (IH d' Hd' H2) as [-> ->]. now split.
Qed.

Lemma tokened_cons_inv (toks : list text) (c : ascii) (s : text) :
  tokened toks (c :: s) ->
  (bracket c = false /\ tokened toks s)
  \/ (c = "<"%char
      /\ exists d s', s = d ++ ">"%char :: s'
                      /\ In (txt "<" ++ d ++ txt ">") toks
                      /\ Forall (fun c => In c Token.chars) d
                      /\ tokened toks s').
Proof.
  intros H. inversion H; subst; [now left|right].
  split; [reflexivity|]. eauto 6.
Qed.

(** What follows a tokened prefix of a tokened text is tokened. *)
Lemma tokened_after (toks : list text) (p : text) :
  tokened toks p -> forall r, tokened toks (p ++ r) -> tokened toks r.
Proof.
  induction 1 as [|c p Hc Hp IH|d p Hin Hd Hp IH]; intros r H.
  - exact H.
  - cbn [app] in H. apply tokened_cons_inv in H.
    destruct H as [[_ H]|[-> _]]; [now apply IH|discriminate].
  - rewrite <- !app_assoc in H. cbn [txt list_ascii_of_string app] in H.
    apply tokened_cons_inv in H.
    destruct H as [[H _]|[_ [d' [s' [E [_ [Hd' Hs']]]]]]]; [discriminate|].
    apply split_at_close in E; [|assumption..]. destruct E as [-> <-].
    now apply IH.
Qed.

(** A tokened text that starts inside the digits of a token ends there. *)
Lemma tokened_inside (toks : list text) (p : text) :
  tokened toks p ->
  forall d r s,
    Forall (fun c => In c Token.chars) d ->
    p ++ r = d ++ ">"%char :: s -> exists r', d = p ++ r'.
Proof.
  induction 1 as [|c p Hc Hp IH|d0 p Hin Hd0 Hp IH]; intros d r s Hd H.
  - now exists d.
  - destruct Hd as [|x d Hx Hd]; cbn [app] in H.
    + inversion H; subst. discriminate.
    + inversion H; subst. destruct (IH d r s Hd H2) as [r' ->]. now exists r'.
  - cbn [txt list_ascii_of_string app] in H.
    destruct Hd as [|x d Hx Hd]; cbn [app] in H; [discriminate|].
    inversion H; subst. apply chars_no_bracket in Hx. destruct Hx as [Hx _].
    discriminate.
Qed.

Lemma tokened_before (toks : list text) (s : text) :
  tokened toks s ->
  forall a b, s = a ++ b -> forallb (fun c => negb (bracket c)) b = true ->
              tokened toks a.
Proof.
  induction 1 as [|c s Hc Hs IH|d s Hin Hd Hs IH]; intros a b E Hb.
  - destruct a; [constructor|discriminate].
  - destruct a as [|x a]; [constructor|]. cbn [app] in E. inversion E; subst.
    constructor; [assumption|]. now apply (IH a b).
  - replace (txt "<" ++ d ++ txt ">" ++ s) with ((txt "<" ++ d ++ txt ">") ++ s) in E
      by now rewrite <- !app_assoc.
    apply app_eq_app in E. destruct E as [l [[E1 E2]|[E1 E2]]].
    + destruct l as [|x l _] using rev_ind.
      * rewrite app_nil_r in E1. subst a.
        rewrite <- (app_nil_r (txt "<" ++ d ++ txt ">")), <- !app_assoc.
        apply tokened_tok; auto. constructor.
      * exfalso. rewrite !app_assoc in E1.
        apply app_inj_tail in E1. destruct E1 as [_ Ex]. subst x.
        rewrite E2 in Hb. rewrite <- app_assoc, !forallb_app in Hb.
        cbn in Hb. rewrite andb_false_r in Hb. discriminate.
    + subst a. rewrite <- !app_assoc. apply tokened_tok; auto.
      now apply (IH l b).
Qed.

Lemma lstrip_spaces (s : text) :
  exists pre, s = pre ++ lstrip s /\ forallb is_space pre = true.
Proof.
  induction s as [|c s [pre [E Hp]]]; [now exists []|]. cbn [lstrip].
  destruct (is_space c) eqn:Ec; [|now exists []].
  exists (c :: pre). cbn [app forallb]. rewrite Ec, Hp. split; [now f_equal|reflexivity].
Qed.

Lemma rstrip_spaces (s : text) :
  exists tail, s = rstrip s ++ tail /\ forallb is_space tail = true.
Proof.
  destruct (lstrip_spaces (rev s)) as [pre [E Hp]]. exists (rev pre).
  unfold rstrip. split.
  - rewrite <- rev_app_distr, <- E. now rewrite rev_involutive.
  - rewrite forallb_forall in *. intros x Hx. apply Hp. now apply in_rev.
Qed.

Lemma space_no_bracket (c : ascii) : is_space c = true -> bracket c = false.
Proof. destruct c as [[] [] [] [] [] [] [] []]; vm_compute; congruence. Qed.

Lemma tokened_rstrip (toks : list text) (s : text) :
  tokened toks s -> tokened toks (rstrip s).
Proof.
  intros H. destruct (rstrip_spaces s) as [tail [E Ht]].
  apply (tokened_before toks s H (rstrip s) tail E).
  rewrite forallb_forall in *. intros x Hx. apply negb_true_iff.
  apply space_no_bracket. now apply Ht.
Qed.


Lemma starts_with_split (p s : text) :
  starts_with p s = true -> s = p ++ skipn (length p) s.
Proof.
  intros H. apply starts_with_firstn in H. destruct H as [H _].
  rewrite <- H at 1. symmetry. apply firstn_skipn.
Qed.

Lemma lazy_close_digits (d s : text) :
  Forall (fun c => In c Token.chars) d ->
  lazy_close (d ++ ">"%char :: s) = Some d.
Proof.
  induction 1 as [|c d Hc Hd IH]; [reflexivity|].
  cbn [app lazy_close]. apply chars_no_bracket in Hc.
  destruct Hc as [Hb [Hn _]]. rewrite (bracket_close _ Hb), Hn, IH. reflexivity.
Qed.

(** The pattern of the test finds the tokens of a tokened text. *)
Lemma findall_tokened (toks : list text) (s : text) :
  tokened toks s -> Forall (fun m => In m toks) (re_findall m_token s).
Proof.
  unfold re_findall.
  induction 1 as [|c s Hc Hs IH|d s Hin Hd Hs IH]; [constructor| |].
  - cbn [scan m_token]. rewrite (bracket_open _ Hc). exact IH.
  - cbn [txt list_ascii_of_string app scan m_token].
    change (Ascii.eqb "<" "<") with true. cbn iota.
    rewrite (lazy_close_digits d s Hd). cbn [Nat.add flat_map app].
    constructor; [exact Hin|].
    replace (length d + 1) with (length (d ++ [">"%char]))
      by (rewrite length_app; reflexivity).
    replace (d ++ ">"%char :: s) with ((d ++ [">"%char]) ++ s)
      by (now rewrite <- app_assoc).
    rewrite scan_skip. exact IH.
Qed.

Lemma scan_inside {X : Type} (m : matcher X) (d s : text) :
  (forall d1 d2, d = d1 ++ d2 -> m (d2 ++ ">"%char :: s) = None) ->
  scan m 0 (d ++ ">"%char :: s) = map Char (d ++ [">"%char]) ++ scan m 0 s.
Proof.
  induction d as [|x d IH]; intros H.
  - pose proof (H [] [] eq_refl) as H0. cbn [app] in H0.
    cbn [app scan map]. now rewrite H0.
  - pose proof (H [] (x :: d) eq_refl) as H0. cbn [app] in H0.
    cbn [app scan map]. rewrite H0. cbn [app].
    f_equal. apply IH. intros d1 d2 E. apply (H (x :: d1) d2). now rewrite E.
Qed.

Lemma concat_map_char {X : Type} (repl : X -> text) (s : text) :
  concat (map (render repl) (map Char s)) = s.
Proof. induction s as [|c s IH]; [reflexivity|]. cbn. now rewrite IH. Qed.

(** Replacing a tokened phrase by a token keeps a text tokened. *)
Lemma sub_tokened (toks : list text) (p tok : text) :
  tokened toks p -> In space p -> tokened toks tok ->
  forall n line,
    length line <= n -> tokened toks line ->
    tokened toks (re_sub (m_literal p) (fun _ => tok) line).
Proof.
  intros Hp Hsp Htok. induction n as [|n IH]; intros line Hn Hl.
  - destruct line; [constructor|simpl in Hn; lia].
  - destruct line as [|c s]; [constructor|]. cbn [length] in Hn.
    unfold re_sub. cbn [scan]. unfold m_literal at 1.
    destruct (starts_with p (c :: s)) eqn:E.
    + pose proof (starts_with_split _ _ E) as Es.
      destruct p as [|x p]; [destruct Hsp|].
      cbn [length skipn app] in Es. remember (skipn (length p) s) as r eqn:Er.
      clear Er. inversion Es as [[Ec Es']]. subst c s. clear Es.
      cbn [length map concat render]. apply tokened_app; [exact Htok|].
      rewrite scan_skip. apply (IH r).
      * rewrite length_app in Hn. lia.
      * now apply (tokened_after toks (x :: p) Hp).
    + apply tokened_cons_inv in Hl.
      destruct Hl as [[Hc Hs]|[-> [d [s' [-> [Hin [Hd Hs']]]]]]].
      * cbn [map concat render app]. constructor; [exact Hc|].
        apply (IH s); [lia|exact Hs].
      * cbn [map concat render app].
        rewrite scan_inside.
        -- rewrite map_app, concat_app, concat_map_char, <- app_assoc.
           apply (tokened_tok toks d); [exact Hin|exact Hd|].
           apply (IH s'); [|exact Hs'].
           rewrite length_app in Hn. cbn [length] in Hn. lia.
        -- intros d1 d2 Ed. unfold m_literal.
           destruct (starts_with p (d2 ++ ">"%char :: s')) eqn:E2; [|reflexivity].
           exfalso. apply starts_with_split in E2.
           assert (Hd2 : Forall (fun c => In c Token.chars) d2).
           { rewrite Ed in Hd. apply Forall_app in Hd. apply Hd. }
           destruct (tokened_inside toks p Hp d2 _ _ Hd2 (eq_sym E2)) as [r' Er].
           rewrite Forall_forall in Hd2.
           apply (chars_no_space space); [|reflexivity].
           apply Hd2. rewrite Er. apply in_app_iff. now left.
Qed.

Lemma tokened_snoc (toks : list text) (s : text) (c : ascii) :
  tokened toks s -> bracket c = false -> tokened toks (s ++ [c]).
Proof. intros Hs Hc. apply tokened_app; [exact Hs|]. now repeat constructor. Qed.

(** Splitting at whitespace never cuts a token. *)
Lemma split_from_tokened (toks : list text) (s : text) :
  tokened toks s ->
  forall cur, tokened toks cur -> Forall (tokened toks) (split_from cur s).
Proof.
  induction 1 as [|c s Hc Hs IH|d s Hin Hd Hs IH]; intros cur Hcur.
  - cbn [split_from]. destruct cur; constructor; [assumption|constructor].
  - cbn [split_from]. destruct (is_space c).
    + destruct cur as [|x cur]; [apply IH; constructor|].
      constructor; [assumption|apply IH; constructor].
    + apply IH. now apply tokened_snoc.
  - replace (txt "<" ++ d ++ txt ">" ++ s) with ((txt "<" ++ d ++ txt ">") ++ s)
      by now rewrite <- !app_assoc.
    rewrite split_from_word.
    + apply IH. apply tokened_app; [exact Hcur|].
      rewrite <- (app_nil_r (txt "<" ++ d ++ txt ">")), <- !app_assoc.
      apply tokened_tok; auto. constructor.
    + rewrite !forallb_app. cbn [txt list_ascii_of_string forallb].
      change (negb (is_space "<")) with true. change (negb (is_space ">")) with true.
      cbn [andb]. rewrite andb_true_r. apply forallb_forall. intros x Hx.
      rewrite Forall_forall in Hd. apply Hd in Hx.
      apply chars_no_bracket in Hx. destruct Hx as [_ [_ Hx]]. now rewrite Hx.
Qed.


(** ** Every step keeps texts tokened *)

Section Tokened.

Import PhraseNode RegExCompressor.

Lemma extends_tokens (self self' : t) :
  extends self self' -> incl (rule_tokens self) (rule_tokens self').
Proof.
  intros [new E] x Hx. unfold rule_tokens in *. rewrite E, map_app.
  apply in_app_iff. now left.
Qed.

Lemma clean_impl (toks toks' : list text) (s : text) :
  incl toks toks' -> clean toks s -> clean toks' s.
Proof. intros Hi [Hp Ht]. split; [exact Hp|]. now apply (tokened_impl toks). Qed.

Lemma rule_tokened_impl (toks toks' : list text) (r : RegExTuple.t) :
  incl toks toks' -> rule_tokened toks r -> rule_tokened toks' r.
Proof.
  intros Hi [H1 [H2 [H3 H4]]]. repeat split; try apply H1; try assumption;
    now apply (tokened_impl toks).
Qed.

Lemma todo_tokened_impl (toks toks' : list text) (todo : todo_list) :
  incl toks toks' -> todo_tokened toks todo -> todo_tokened toks' todo.
Proof.
  intros Hi H. eapply Forall_impl; [|exact H]. intros e.
  now apply rule_tokened_impl.
Qed.

Lemma table_tokened_plain (self : t) : table_tokened self -> table_plain self.
Proof. intros H. eapply Forall_impl; [|exact H]. now intros e [Hp _]. Qed.

Lemma apply_one_clean (toks : list text) (line : text) (r : RegExTuple.t)
  (line' : text) (c : nat) :
  rule_tokened toks r -> clean toks line ->
  apply_one line r = Ok (line', c) -> clean toks line'.
Proof.
  intros [Hr [Hsp [Hp Htok]]] [Hl Ht] H.
  destruct (apply_one_returns line r Hr) as [l1 [c1 [E1 Hpl]]].
  rewrite E1 in H. inversion H; subst. split; [now apply Hpl|].
  destruct Hr as [Hne [Hpr Hpt]].
  rewrite apply_one_plain in E1 by auto using plain_no_backslash.
  inversion E1. now apply (sub_tokened toks _ _ Hp Hsp Htok (length line)).
Qed.

Lemma apply_rules_clean (toks : list text) (rules : list (text * RegExTuple.t)) :
  forall line c0 line' c,
    Forall (fun e => rule_tokened toks (snd e)) rules -> clean toks line ->
    apply_rules rules line c0 = Ok (line', c) -> clean toks line'.
Proof.
  induction rules as [|[k r] rules IH]; intros line c0 line' c Hall Hl H;
    cbn [apply_rules] in H.
  - inversion H; now subst.
  - inversion Hall as [|? ? Hr Hrest]; subst. cbn [snd] in Hr.
    bind_inv H. destruct a as [line1 d].
    apply (apply_one_clean toks _ _ _ _ Hr Hl) in Hm. eauto.
Qed.

Lemma token_tokened (toks : list text) (tk : Token.t) :
  In (Token.token tk) toks ->
  Forall (fun c => In c Token.chars) (Token.digits tk) ->
  tokened toks (Token.token tk).
Proof.
  intros Hin Hd. unfold Token.token in *.
  rewrite <- (app_nil_r (txt "<" ++ Token.digits tk ++ txt ">")), <- !app_assoc.
  apply tokened_tok; [exact Hin|exact Hd|constructor].
Qed.

Lemma gen_regex_tokened (self : t) (a b : text) (r : option RegExTuple.t)
  (self' : t) :
  table_ok self -> table_tokened self ->
  clean (rule_tokens self) a -> clean (rule_tokens self) b ->
  gen_regex self a b = Ok (r, self') ->
  table_tokened self'
  /\ forall x, r = Some x -> rule_tokened (rule_tokens self') x.
Proof.
  intros Hok Htab [Hpa Hta] [Hpb Htb] H.
  pose proof (gen_regex_extends _ _ _ _ _ H) as Hext.
  apply extends_tokens in Hext.
  unfold gen_regex in H.
  destruct (has _ (_expressions self)) eqn:E.
  { inversion H; subst. split; [assumption|discriminate]. }
  destruct Hok as [_ [_ [Haft _]]].
  destruct (after_next_plain _ _ Haft) as [tok [tk [En Hptok]]].
  rewrite En in H. inversion H; subst. clear H.
  assert (Hs : Token.after (S (length (_expressions self))) = Some tk)
    by (cbn [Token.after]; now rewrite Haft, En).
  assert (Etok : tok = Token.token tk).
  { unfold Token.next in En.
    destruct (Token.next_loop _ _ (token self)); inversion En; now subst. }
  set (rule := RegExTuple.mk (a ++ txt " " ++ b) (a ++ txt " " ++ b) tok) in *.
  set (self' := mk _ _ _ _) in *.
  assert (Htoks : rule_tokens self' = rule_tokens self ++ [tok]).
  { unfold rule_tokens, self'. cbn [_expressions].
    rewrite set_fresh by exact E. now rewrite map_app. }
  assert (Hr : rule_tokened (rule_tokens self') rule).
  { unfold rule_tokened, rule_plain, rule.
    cbn [RegExTuple.regex RegExTuple.token].
    split; [split; [destruct a; discriminate|split; [|exact Hptok]]|].
    - apply plain_app. split; [exact Hpa|]. apply plain_app. now split.
    - split; [apply in_app_iff; right; now left|]. split.
      + apply tokened_app; [now apply (tokened_impl (rule_tokens self))|].
        apply tokened_app; [now repeat constructor|].
        now apply (tokened_impl (rule_tokens self)).
      + rewrite Etok. apply token_tokened; [|now apply (after_chars _ _ Hs)].
        rewrite Htoks, <- Etok. apply in_app_iff. right. now left. }
  split; [|intros x Hx; inversion Hx; subst; exact Hr].
  unfold table_tokened. unfold self' at 2. cbn [_expressions].
  rewrite set_fresh by exact E. apply Forall_app. split.
  - eapply Forall_impl; [|exact Htab]. intros e.
    now apply rule_tokened_impl.
  - constructor; [exact Hr|constructor].
Qed.

Lemma map_words_tokened (words : list text) :
  forall self lastnode at_root index todo self' todo',
    table_ok self -> table_tokened self ->
    todo_tokened (rule_tokens self) todo ->
    Forall word words -> Forall (clean (rule_tokens self)) words ->
    has lastnode (phrases self) = true ->
    (at_root = false -> word lastnode /\ clean (rule_tokens self) lastnode) ->
    map_words self lastnode at_root words index todo = Ok (self', todo') ->
    table_tokened self' /\ todo_tokened (rule_tokens self') todo'.
Proof.
  induction words as [|w rest IH]; intros self lastnode at_root index todo
    self' todo' Hok Htab Htodo Hwords Hclean Hlast Hword H; cbn [map_words] in H.
  - inversion H; subst. now split.
  - inversion Hwords as [|? ? Hw Hrest]; subst.
    inversion Hclean as [|? ? Hcw Hcrest]; subst.
    destruct w as [|c w0]; [destruct Hw; congruence|]. set (w := c :: w0) in *.
    pose proof Hok as [_ [_ [_ [_ [_ [Hreg Hroot]]]]]].
    destruct (intern_spec w (phrases self) Hreg) as [Hok0 [Hhw [Hhas0 [Hec0 _]]]].
    assert (Hlast0 : has lastnode (intern w (phrases self)) = true)
      by (rewrite Hhas0, Hlast; reflexivity).
    destruct (add_node_spec lastnode w _ Hok0 Hlast0 Hhw)
      as [ph' [Hadd [Hok1 [Hkeys [Hec1 _]]]]].
    rewrite Hadd in H. cbn [bind] in H.
    assert (Hhas1 : forall k, has k ph' = has k (intern w (phrases self))).
    { intros k. destruct (has k ph') eqn:E1.
      - apply has_in in E1. rewrite Hkeys in E1. apply has_in in E1. now rewrite E1.
      - apply has_false_in in E1. rewrite Hkeys in E1. apply has_false_in in E1.
        now rewrite E1. }
    assert (Hok' : table_ok (with_phrases self ph')).
    { apply table_ok_with_phrases; try assumption.
      - rewrite Hhas1, Hhas0, Hroot. reflexivity.
      - intros a b. rewrite Hec1, Hec0. lia. }
    assert (Htab' : table_tokened (with_phrases self ph')) by exact Htab.
    assert (Hw' : has w (phrases (with_phrases self ph')) = true)
      by (cbn [with_phrases phrases]; now rewrite Hhas1).
    destruct ((5 <=? edge_count lastnode w (intern w (phrases self)) + 1)
              && negb at_root) eqn:Ec.
    + apply andb_true_iff in Ec. destruct Ec as [Ec Er].
      apply Nat.leb_le in Ec. apply negb_true_iff in Er.
      destruct (Hword Er) as [Hwl Hcl].
      bind_inv H. destruct a as [new_reg self2].
      pose proof (gen_regex_phrases _ _ _ _ _ Hm) as Hph.
      pose proof (extends_tokens _ _ (gen_regex_extends _ _ _ _ _ Hm)) as Hinc.
      change (rule_tokens (with_phrases self ph')) with (rule_tokens self) in Hinc.
      destruct (gen_regex_tokened _ _ _ _ _ Hok' Htab' Hcl Hcw Hm) as [Htab2 Hnew].
      assert (Hok2 : table_ok self2).
      { eapply table_ok_gen_regex; [exact Hok'|exact Hwl|exact Hw| |exact Hm].
        cbn [with_phrases phrases]. rewrite Hec1, !text_eqb_refl. cbn [andb].
        lia. }
      assert (Hw2 : has w (phrases self2) = true) by now rewrite Hph.
      assert (Hrest2 : Forall (clean (rule_tokens self2)) rest).
      { eapply Forall_impl; [|exact Hcrest]. intros x. now apply clean_impl. }
      assert (Htodo2 : todo_tokened (rule_tokens self2) todo)
        by now apply (todo_tokened_impl (rule_tokens self)).
      assert (Hcw2 : false = false -> word w /\ clean (rule_tokens self2) w).
      { intros _. split; [exact Hw|]. now apply (clean_impl (rule_tokens self)). }
      destruct new_reg as [r|].
      * apply (IH _ _ _ _ _ _ _ Hok2 Htab2) in H; auto.
        apply Forall_app. split; [exact Htodo2|].
        constructor; [|constructor]. now apply Hnew.
      * apply (IH _ _ _ _ _ _ _ Hok2 Htab2) in H; auto.
    + apply (IH _ _ _ _ _ _ _ Hok' Htab') in H; auto.
Qed.

Lemma split_clean (toks : list text) (s : text) :
  clean toks s -> Forall (clean toks) (split s).
Proof.
  intros [Hp Ht].
  pose proof (split_from_plain s [] eq_refl Hp) as H1.
  pose proof (split_from_tokened toks s Ht [] (tokened_nil _)) as H2.
  unfold split. revert H1 H2. generalize (split_from [] s) as l.
  induction l as [|x l IH]; intros H1 H2; [constructor|].
  inversion H1; inversion H2; subst. constructor; [now split|auto].
Qed.

Lemma first_pass_tokened (chunk : list text) :
  forall self index changes todo self' chunk' changes' todo',
    table_ok self -> table_tokened self ->
    todo_tokened (rule_tokens self) todo ->
    Forall (fun line => clean (rule_tokens self) (body line)) chunk ->
    first_pass self index chunk changes todo
    = Ok (self', chunk', changes', todo') ->
    table_tokened self' /\ todo_tokened (rule_tokens self') todo'
    /\ Forall (clean (rule_tokens self')) chunk'.
Proof.
  induction chunk as [|line0 rest IH]; intros self index changes todo
    self' chunk' changes' todo' Hok Htab Htodo Hall H; cbn [first_pass] in H.
  - inversion H; subst. auto.
  - inversion Hall as [|? ? Hb Hrest]; subst. unfold body in Hb.
    destruct (split_trailer line0) as [line trailer]. cbn [fst] in Hb.
    bind_inv H. destruct a as [new_line delta].
    bind_inv H. destruct a as [self1 todo1].
    bind_inv H. destruct a as [[[self2 rest'] c2] todo2].
    inversion H; subst. clear H.
    apply (apply_rules_clean (rule_tokens self)) in Hm; [|exact Htab|exact Hb].
    unfold map_nodes in Hm0.
    pose proof (extends_tokens _ _ (map_words_extends _ _ _ _ _ _ _ _ Hm0)) as Hinc1.
    assert (Hok1 : table_ok self1).
    { eapply map_words_table; [exact Hok|apply split_words_ok| | |exact Hm0].
      - apply Hok.
      - discriminate. }
    apply map_words_tokened in Hm0; auto using split_words_ok, split_clean.
    2:{ apply Hok. }
    2:{ discriminate. }
    destruct Hm0 as [Htab1 Htodo1].
    pose proof (extends_tokens _ _ (first_pass_extends _ _ _ _ _ _ _ _ _ Hm1)) as Hinc2.
    apply IH in Hm1; auto.
    2:{ eapply Forall_impl; [|exact Hrest]. intros x. now apply clean_impl. }
    destruct Hm1 as [Htab2 [Htodo2 Hrest2]].
    split; [exact Htab2|]. split; [exact Htodo2|].
    constructor; [|exact Hrest2].
    apply (clean_impl (rule_tokens self)); [|exact Hm].
    intros x Hx. auto.
Qed.

Lemma todo_loop_clean (toks : list text) (n : nat) :
  forall pos todo line cur changes cur' changes' todo',
    todo_tokened toks todo -> clean toks line -> clean toks cur ->
    todo_loop n pos todo line cur changes = Ok (cur', changes', todo') ->
    todo_tokened toks todo' /\ clean toks cur'.
Proof.
  induction n as [|n IH]; intros pos todo line cur changes cur' changes' todo'
    Htodo Hl Hc H; cbn [todo_loop] in H.
  - inversion H; subst. now split.
  - destruct (nth_error todo pos) as [[regex stopline]|] eqn:E.
    2:{ inversion H; subst. now split. }
    pose proof (nth_error_In _ _ E) as Hin.
    assert (Hr : rule_tokened toks regex).
    { unfold todo_tokened in Htodo. rewrite Forall_forall in Htodo.
      exact (Htodo _ Hin). }
    bind_inv H. destruct a as [new_line delta].
    apply (apply_one_clean toks _ _ _ _ Hr Hl) in Hm.
    apply IH in H; auto.
    destruct (_ && _); [|assumption].
    unfold todo_tokened in *. rewrite Forall_forall in *. intros e He.
    apply set_nth_In in He. destruct He as [He|He].
    + subst e. apply Htodo. apply last_In. intros Hnil. rewrite Hnil in Hin.
      contradiction.
    + apply Htodo. now apply removelast_In.
Qed.

Lemma catch_up_clean (toks : list text) (chunk : list text) :
  forall changes todo chunk' changes',
    todo_tokened toks todo -> Forall (clean toks) chunk ->
    catch_up chunk changes todo = Ok (chunk', changes') ->
    Forall (clean toks) chunk'.
Proof.
  induction chunk as [|line rest IH]; intros changes todo chunk' changes'
    Htodo Hall H; cbn [catch_up] in H.
  - inversion H; subst. constructor.
  - inversion Hall as [|? ? Hl Hrest]; subst.
    bind_inv H. destruct a as [[cur c1] todo1].
    bind_inv H. destruct a as [rest' c2]. inversion H; subst. clear H.
    apply (todo_loop_clean toks) in Hm; auto. destruct Hm as [Htodo1 Hcur].
    apply IH in Hm0; auto.
Qed.

Lemma clean_rstrip (toks : list text) (line : text) :
  clean toks line -> clean toks (rstrip line).
Proof.
  intros [Hp Ht]. split; [|now apply tokened_rstrip].
  apply plain_In. intros x Hx. apply rstrip_chars in Hx.
  now apply (proj1 (plain_In _) Hp).
Qed.

Lemma body_clean (toks : list text) (line : text) :
  clean toks line -> clean toks (body line).
Proof.
  intros H. unfold body. rewrite (split_trailer_plain _ (proj1 H)). cbn [fst].
  now apply clean_rstrip.
Qed.

Lemma press_mainloop_tokened (self : t) (chunk : list text) (changes : nat)
  (self' : t) (chunk' : list text) :
  table_ok self -> table_tokened self ->
  Forall (fun line => clean (rule_tokens self) (body line)) chunk ->
  press_mainloop self chunk = Ok (changes, self', chunk') ->
  table_ok self' /\ table_tokened self'
  /\ Forall (clean (rule_tokens self')) chunk'.
Proof.
  intros Hok Htab Hall H. unfold press_mainloop in H.
  bind_inv H. destruct a as [[[s1 c1] n1] t1].
  bind_inv H. destruct a as [c2 n2]. inversion H; subst. clear H.
  pose proof (first_pass_table _ _ _ _ _ _ _ _ _ Hok Hm) as Hok1.
  apply first_pass_tokened in Hm; auto; [|constructor].
  destruct Hm as [Htab1 [Htodo1 Hc1]].
  apply (catch_up_clean (rule_tokens self')) in Hm0; auto.
Qed.

Lemma press_loop_tokened (fuel : nat) :
  forall self chunk self' chunk',
    table_ok self -> table_tokened self ->
    Forall (fun line => clean (rule_tokens self) (body line)) chunk ->
    press_loop fuel self chunk = Ok (self', chunk') ->
    table_ok self' /\ table_tokened self'
    /\ Forall (clean (rule_tokens self')) chunk'.
Proof.
  induction fuel as [|fuel IH]; intros self chunk self' chunk' Hok Htab Hall H;
    cbn [press_loop] in H; [discriminate|].
  bind_inv H. destruct a as [[changes self1] chunk1].
  apply press_mainloop_tokened in Hm; auto.
  destruct Hm as [Hok1 [Htab1 Hc1]].
  destruct (changes =? 0); [inversion H; now subst|].
  apply IH in H; auto.
  eapply Forall_impl; [|exact Hc1]. intros x. apply body_clean.
Qed.

End Tokened.


Section Output.

Import PhraseNode RegExCompressor.

Lemma class_bracket (c : ascii) :
  in_class c = false \/ c = "#"%char -> bracket c = false.
Proof.
  intros [H| ->]; [|reflexivity]. revert H.
  destruct c as [[] [] [] [] [] [] [] []]; vm_compute; congruence.
Qed.

Lemma body_encode_clean (toks : list text) (line : text) :
  ~ In backslash line -> clean toks (body (encode_punct_and_digits line)).
Proof.
  intros Hb. split; [now apply body_encode_plain|].
  apply tokened_bare. apply forallb_forall. intros c Hc.
  apply negb_true_iff. apply class_bracket.
  unfold body, split_trailer in Hc. cbn [fst] in Hc.
  rewrite clean_encoding_abstract in Hc. apply rstrip_chars in Hc.
  now apply abstract_runs_chars in Hc.
Qed.

Lemma compress_loop_tokened (fuel : nat) (lines : list text) :
  forall self chunk counter out self' out',
    table_ok self -> table_tokened self ->
    Forall (fun line => ~ In backslash line) lines ->
    Forall (fun line => ~ In backslash line) chunk ->
    Forall (clean (rule_tokens self)) out ->
    compress_loop fuel self lines chunk counter out = Ok (self', out') ->
    table_ok self' /\ table_tokened self'
    /\ Forall (clean (rule_tokens self')) out'.
Proof.
  induction lines as [|line rest IH]; intros self chunk counter out self' out'
    Hok Htab Hlines Hchunk Hout H; cbn [compress_loop] in H.
  - inversion H; subst. auto.
  - inversion Hlines as [|? ? Hl Hrest]; subst.
    destruct line as [|c line]; [inversion H; subst; auto|].
    assert (Hchunk' : Forall (fun line => ~ In backslash line) (chunk ++ [c :: line])).
    { apply Forall_app. split; [exact Hchunk|]. constructor; [exact Hl|constructor]. }
    destruct (CHUNK_SIZE <=? counter + 1).
    + bind_inv H. destruct a as [self1 pressed]. unfold press in Hm.
      pose proof (extends_tokens _ _ (press_loop_extends _ _ _ _ _ Hm)) as Hinc.
      apply press_loop_tokened in Hm; auto.
      2:{ unfold encode. apply Forall_map. eapply Forall_impl; [|exact Hchunk'].
          intros x. apply body_encode_clean. }
      destruct Hm as [Hok1 [Htab1 Hp1]].
      apply IH in H; auto. apply Forall_app. split; [|exact Hp1].
      eapply Forall_impl; [|exact Hout]. intros x. now apply clean_impl.
    + apply IH in H; auto.
Qed.

Lemma join_tokened (toks : list text) (sep : text) (items : list text) :
  tokened toks sep -> Forall (tokened toks) items ->
  tokened toks (join sep items).
Proof.
  intros Hsep. induction 1 as [|x items Hx Hitems IH]; [constructor|].
  cbn [join]. destruct items as [|y items]; [exact Hx|].
  apply tokened_app; [exact Hx|]. now apply tokened_app.
Qed.

Lemma cat_lines_tokened (self : t) (stored texts : list text) :
  table_ok self -> table_tokened self ->
  compressed_output self = Some stored ->
  Forall (clean (rule_tokens self)) stored ->
  cat_lines self = Ok texts ->
  Forall (tokened (rule_tokens self)) texts.
Proof.
  intros Hok Htab Hs Hall H.
  assert (Hpl : Forall plain stored)
    by (eapply Forall_impl; [|exact Hall]; now intros x [Hx _]).
  unfold cat_lines in H. rewrite Hs in H.
  destruct (cat_body_returns self stored (table_tokened_plain _ Htab) Hpl)
    as [out [E [_ [_ H2]]]].
  rewrite E in H. cbn [bind] in H. inversion H; subst. clear H E.
  apply Forall_app. split.
  - revert Hall. clear Hpl Hs.
    induction H2 as [|line new stored out [line1 [c [Ea ->]]] H2 IH];
      intros Hall; [constructor|].
    inversion Hall as [|? ? Hl Hrest]; subst.
    constructor; [|now apply IH].
    apply tokened_rstrip.
    unfold apply_regexes in Ea.
    apply (apply_rules_clean (rule_tokens self)) in Ea; [apply Ea|exact Htab|].
    now apply clean_rstrip.
  - constructor; [apply tokened_bare; vm_compute; reflexivity|].
    constructor; [|constructor].
    apply join_tokened; [apply tokened_bare; reflexivity|].
    apply Forall_map. destruct Hok as [_ [Hkeys _]].
    unfold table_tokened in Htab. rewrite Forall_forall in *.
    intros e He. destruct (Hkeys e He) as [_ Hr]. rewrite <- Hr.
    apply (Htab e He).
Qed.

Lemma universal_newlines_tokened (toks : list text) (s : text) :
  tokened toks s -> forall cr, tokened toks (universal_newlines cr s).
Proof.
  induction 1 as [|c s Hc Hs IH|d s Hin Hd Hs IH]; intros cr.
  - constructor.
  - cbn [universal_newlines].
    destruct (Ascii.eqb c carriage_return);
      [constructor; [reflexivity|apply IH]|].
    destruct (Ascii.eqb c newline).
    + destruct cr; [apply IH|constructor; [reflexivity|apply IH]].
    + constructor; [exact Hc|apply IH].
  - assert (Hgen : forall d0,
              Forall (fun c => In c Token.chars) d0 ->
              forall cr0, universal_newlines cr0 (d0 ++ ">"%char :: s)
                          = d0 ++ ">"%char :: universal_newlines false s).
    { clear - s. induction 1 as [|x d0 Hx Hd0 IHd]; intros cr0; [reflexivity|].
      cbn [app universal_newlines].
      assert (Ex : Ascii.eqb x carriage_return = false
                   /\ Ascii.eqb x newline = false).
      { revert Hx. clear. intros Hx.
        assert (Hall : forallb (fun c => negb (Ascii.eqb c carriage_return)
                                         && negb (Ascii.eqb c newline))
                               Token.chars = true) by (vm_compute; reflexivity).
        rewrite forallb_forall in Hall. specialize (Hall x Hx).
        apply andb_true_iff in Hall. now rewrite !negb_true_iff in Hall. }
      destruct Ex as [E1 E2]. rewrite E1, E2. now rewrite IHd. }
    cbn [txt list_ascii_of_string app universal_newlines].
    change (Ascii.eqb "<" carriage_return) with false.
    change (Ascii.eqb "<" newline) with false. cbn iota.
    rewrite (Hgen d Hd false).
    apply (tokened_tok toks d); [exact Hin|exact Hd|apply IH].
Qed.

Lemma written_tokened (toks : list text) (texts : list text) :
  Forall (tokened toks) texts -> tokened toks (written texts).
Proof.
  unfold written. induction 1 as [|x texts Hx Hall IH]; [constructor|].
  cbn [map concat]. rewrite <- app_assoc. apply tokened_app; [exact Hx|].
  cbn [app]. constructor; [reflexivity|exact IH].
Qed.

End Output.


(** X14: every bracketed item of the output is the token of a rule.  From
    a well-formed compressor whose rules keep texts tokened (a fresh one
    is), on lines without a backslash, when [compress] and then [cat_lines]
    return, whatever the pattern of [test_compress] (an opening bracket, a
    lazy group, a closing bracket) finds in a text that [cat_lines] yields
    is the token of a rule of the table, and so is whatever it finds in the
    file that the test writes from these texts and reads back. *)
Theorem output_tokens_are_rule_tokens (fuel : nat) (self : RegExCompressor.t)
  (lines out : list text) (self' : RegExCompressor.t) (texts : list text) :
  table_ok self -> table_tokened self ->
  Forall (fun line => ~ In backslash line) lines ->
  RegExCompressor.compress fuel self lines = Ok (out, self') ->
  RegExCompressor.cat_lines self' = Ok texts ->
  (forall text m, In text texts -> In m (re_findall m_token text) ->
                  In m (rule_tokens self'))
  /\ (forall m, In m (re_findall m_token (outtext texts)) ->
                In m (rule_tokens self')).
Proof.
  intros Hok Htab Hall H Hcat. unfold RegExCompressor.compress in H.
  bind_inv H. destruct a as [self1 out1]. inversion H; subst. clear H.
  apply compress_loop_tokened in Hm; auto; [|constructor..].
  destruct Hm as [Hok1 [Htab1 Hout]].
  assert (Htexts : Forall (tokened (rule_tokens self1)) texts).
  { apply (cat_lines_tokened (RegExCompressor.with_output self1 out) out);
      [exact Hok1|exact Htab1|reflexivity|exact Hout|exact Hcat]. }
  change (rule_tokens (RegExCompressor.with_output self1 out))
    with (rule_tokens self1).
  split.
  - intros text m Hin Hm. rewrite Forall_forall in Htexts.
    pose proof (findall_tokened _ _ (Htexts _ Hin)) as Hf.
    rewrite Forall_forall in Hf. now apply Hf.
  - intros m Hm.
    pose proof (findall_tokened _ _
                  (universal_newlines_tokened _ _
                     (written_tokened _ _ Htexts) false)) as Hf.
    rewrite Forall_forall in Hf. now apply Hf.
Qed.

Lemma output_tokens_are_rule_tokens_witness :
  exists out self' texts,
    RegExCompressor.compress 4 RegExCompressor.init error_lines = Ok (out, self')
    /\ RegExCompressor.cat_lines self' = Ok texts
    /\ forall m, In m (re_findall m_token (outtext texts)) ->
                 In m (rule_tokens self').
Proof.
  assert (Hall : Forall (fun line => ~ In backslash line) error_lines).
  { apply Forall_forall. intros l Hl. apply repeat_spec in Hl. subst l.
    vm_compute. intuition discriminate. }
  destruct (RegExCompressor.compress 4 RegExCompressor.init error_lines)
    as [[out self']| | |] eqn:E; [|vm_compute in E; discriminate ..].
  destruct (RegExCompressor.cat_lines self') as [texts|e| |] eqn:E2;
    [|vm_compute in E; inversion E; subst; vm_compute in E2; discriminate E2 ..].
  exists out, self', texts. split; [reflexivity|]. split; [exact E2|].
  exact (proj2 (output_tokens_are_rule_tokens 4 RegExCompressor.init error_lines
                  out self' texts table_ok_init (Forall_nil _) Hall E E2)).
Defined.

(** ** Navigation *)

Section Navigate.

Import PhraseNode.

Lemma existsb_text (x : text) (v : list text) :
  existsb (text_eqb x) v = true <-> In x v.
Proof.
  rewrite existsb_exists. split.
  - intros [y [Hy E]]. apply text_eqb_eq in E. now subst.
  - intros H. exists x. split; [exact H|apply text_eqb_refl].
Qed.






End Navigate.


(** ** Subnodes and counters *)

Section Linked.

Import PhraseNode RegExCompressor.

Lemma intern_linked (w : text) (ph : registry) :
  registry_ok ph -> linked ph -> linked (intern w ph).
Proof.
  intros Hok Hl a b.
  destruct (intern_spec w ph Hok) as [_ [_ [_ [Hec _]]]]. rewrite Hec.
  rewrite <- (Hl a b). unfold intern.
  destruct (has w ph) eqn:E; [tauto|]. unfold has in E.
  destruct (list_eq_dec ascii_dec a w) as [->|Ha].
  - rewrite get_set_same. destruct (get w ph); [discriminate|]. split.
    + intros [s [Hs Hin]]. inversion Hs; subst. destruct Hin.
    + intros [s [Hs _]]. discriminate.
  - now rewrite get_set_other by assumption.
Qed.

Lemma add_node_linked (self node : text) (ph : registry) (c : nat)
  (ph' : registry) :
  registry_ok ph -> has self ph = true -> has node ph = true ->
  linked ph -> add_node self node ph = Ok (c, ph') -> linked ph'.
Proof.
  intros Hok Hs Hn Hl H.
  destruct (add_node_spec self node ph Hok Hs Hn) as [ph2 [E [_ [_ [Hec _]]]]].
  rewrite E in H. inversion H; subst ph2 c. clear H.
  assert (Hnd : forall a b,
            (exists s', get a ph' = Some s' /\ In b (nd s'))
            <-> (exists s, get a ph = Some s /\ In b (nd s))
                \/ (a = self /\ b = node)).
  { clear Hec Hl. unfold has in Hs, Hn.
    destruct (get self ph) as [s|] eqn:Es; [|discriminate].
    destruct (get node ph) as [n|] eqn:En; [|discriminate].
    unfold add_node in E. rewrite Es, En in E.
    rewrite (registry_ok_get _ _ _ Hok Es), (registry_ok_get _ _ _ Hok En) in E.
    set (ph1 := if existsb (text_eqb node) (nd s) then ph
                else set self (mk_node self (parents s) (nd s ++ [node])) ph) in *.
    assert (H1 : forall a b,
              (exists s1, get a ph1 = Some s1 /\ In b (nd s1))
              <-> (exists s0, get a ph = Some s0 /\ In b (nd s0))
                  \/ (a = self /\ b = node)).
    { intros a b. unfold ph1.
      destruct (existsb (text_eqb node) (nd s)) eqn:Ex.
      - apply existsb_text in Ex. split; [now left|].
        intros [H|[-> ->]]; [exact H|]. now exists s.
      - destruct (list_eq_dec ascii_dec a self) as [->|Ha].
        + rewrite get_set_same. split.
          * intros [s1 [Hs1 Hin]]. inversion Hs1; subst. cbn [nd] in Hin.
            apply in_app_iff in Hin. destruct Hin as [Hin|[<-|[]]].
            -- left. now exists s.
            -- now right.
          * intros [[s0 [Hs0 Hin]]|[_ ->]]; eexists; (split; [reflexivity|]);
              cbn [nd]; apply in_app_iff.
            -- left. congruence.
            -- right. now left.
        + rewrite get_set_other by assumption. split; [now left|].
          intros [H|[E1 _]]; [exact H|contradiction]. }
    destruct (get node ph1) as [n1|] eqn:En1; [|discriminate].
    injection E as _ Eph. intros a b. rewrite <- H1, <- Eph.
    destruct (list_eq_dec ascii_dec a node) as [->|Ha].
    - rewrite get_set_same. rewrite En1. split.
      + intros [s' [Hs' Hin]]. inversion Hs'; subst. now exists n1.
      + intros [s1 [Hs1 Hin]]. inversion Hs1; subst. eexists. split; [reflexivity|].
        exact Hin.
    - now rewrite get_set_other by assumption. }
  intros a b. rewrite Hnd, Hec, (Hl a b).
  destruct (text_eqb a self && text_eqb b node) eqn:Eab.
  - apply andb_true_iff in Eab. destruct Eab as [Ea Eb].
    apply text_eqb_eq in Ea, Eb. subst. split; [lia|now right].
  - split; [|lia]. intros [H|[-> ->]]; [lia|].
    rewrite !text_eqb_refl in Eab. discriminate.
Qed.

Lemma linked_empty : linked (intern root []).
Proof.
  intros a b. split.
  - intros [s [Hs Hin]]. unfold intern in Hs. cbn in Hs.
    destruct (text_eqb a root); [|discriminate].
    inversion Hs; subst. destruct Hin.
  - unfold edge_count, intern. cbn.
    destruct (text_eqb b root); cbn; [|lia].
    destruct a; cbn; lia.
Qed.

End Linked.

(** ** Invariants of the registry *)

Section RegistryInvariant.

Import PhraseNode RegExCompressor.

Variable P : registry -> Prop.

Hypothesis P_intern :
  forall w ph, registry_ok ph -> P ph -> P (intern w ph).

Hypothesis P_add_node :
  forall a b ph c ph',
    registry_ok ph -> has a ph = true -> has b ph = true -> P ph ->
    add_node a b ph = Ok (c, ph') -> P ph'.

Lemma map_words_registry (words : list text) :
  forall self lastnode at_root index todo self' todo',
    registry_ok (phrases self) -> has lastnode (phrases self) = true ->
    P (phrases self) ->
    map_words self lastnode at_root words index todo = Ok (self', todo') ->
    P (phrases self').
Proof.
  induction words as [|word rest IH]; intros self lastnode at_root index todo
    self' todo' Hok Hlast HP H; cbn [map_words] in H.
  - inversion H; now subst.
  - destruct word as [|c word]; [now apply IH in H|].
    set (w := c :: word) in *.
    destruct (intern_spec w (phrases self) Hok) as [Hok0 [Hw [Hhas0 _]]].
    assert (Hlast0 : has lastnode (intern w (phrases self)) = true)
      by (rewrite Hhas0, Hlast; reflexivity).
    destruct (add_node_spec lastnode w _ Hok0 Hlast0 Hw)
      as [ph' [Hadd [Hok1 [Hkeys _]]]].
    pose proof (P_add_node _ _ _ _ _ Hok0 Hlast0 Hw
                  (P_intern w _ Hok HP) Hadd) as HP1.
    rewrite Hadd in H. cbn [bind] in H.
    assert (Hw1 : has w ph' = true).
    { apply has_in. rewrite Hkeys. now apply has_in. }
    destruct (_ && _).
    + bind_inv H. destruct a as [new_reg self2].
      apply gen_regex_phrases in Hm. cbn [with_phrases phrases] in Hm.
      destruct new_reg as [r|]; apply IH in H; auto; now rewrite Hm.
    + apply IH in H; auto.
Qed.

Lemma first_pass_registry (chunk : list text) :
  forall self index changes todo self' chunk' changes' todo',
    registry_ok (phrases self) -> has root (phrases self) = true ->
    P (phrases self) ->
    first_pass self index chunk changes todo
    = Ok (self', chunk', changes', todo') ->
    registry_ok (phrases self') /\ has root (phrases self') = true
    /\ P (phrases self').
Proof.
  induction chunk as [|line0 rest IH]; intros self index changes todo
    self' chunk' changes' todo' Hok Hroot HP H; cbn [first_pass] in H.
  - inversion H; subst. auto.
  - destruct (split_trailer line0) as [line trailer].
    bind_inv H. destruct a as [new_line delta].
    bind_inv H. destruct a as [self1 todo1].
    bind_inv H. destruct a as [[[self2 rest'] c2] todo2].
    inversion H; subst. clear H. unfold map_nodes in Hm0.
    pose proof (map_words_registry _ _ _ _ _ _ _ _ Hok Hroot HP Hm0) as HP1.
    destruct (map_words_counts _ _ _ _ _ _ _ _ Hok Hroot Hm0) as [Hok1 [Hhas1 _]].
    apply IH in Hm1; auto.
Qed.

Lemma press_loop_registry (fuel : nat) :
  forall self chunk self' chunk',
    registry_ok (phrases self) -> has root (phrases self) = true ->
    P (phrases self) ->
    press_loop fuel self chunk = Ok (self', chunk') ->
    registry_ok (phrases self') /\ has root (phrases self') = true
    /\ P (phrases self').
Proof.
  induction fuel as [|fuel IH]; intros self chunk self' chunk' Hok Hroot HP H;
    cbn [press_loop] in H; [discriminate|].
  bind_inv H. destruct a as [[changes self1] chunk1].
  unfold press_mainloop in Hm.
  bind_inv Hm. destruct a as [[[s1 c1] n1] t1].
  bind_inv Hm. destruct a as [c2 n2]. inversion Hm; subst.
  apply first_pass_registry in Hm0; auto. destruct Hm0 as [Hok1 [Hroot1 HP1]].
  destruct (changes =? 0); [inversion H; now subst|eauto].
Qed.

Lemma compress_registry (fuel : nat) (self : t) (lines out : list text)
  (self' : t) :
  registry_ok (phrases self) -> has root (phrases self) = true ->
  P (phrases self) ->
  compress fuel self lines = Ok (out, self') ->
  registry_ok (phrases self') /\ has root (phrases self') = true
  /\ P (phrases self').
Proof.
  intros Hok Hroot HP H. unfold compress in H. bind_inv H.
  destruct a as [s o]. inversion H; subst. clear H.
  cbn [with_output phrases].
  revert self Hok Hroot HP Hm. generalize (@nil text) at 1.
  generalize 0. generalize (@nil text).
  induction lines as [|line rest IH]; intros out0 counter chunk self Hok Hroot
    HP H; cbn [compress_loop] in H.
  - inversion H; subst. auto.
  - destruct line as [|c line]; [inversion H; subst; auto|].
    destruct (CHUNK_SIZE <=? counter + 1).
    + bind_inv H. destruct a as [self1 pressed].
      apply press_loop_registry in Hm; auto.
      destruct Hm as [Hok1 [Hroot1 HP1]]. eauto.
    + eauto.
Qed.

End RegistryInvariant.


Section NavigateReturns.

Import PhraseNode.






End NavigateReturns.



(** X16: the subnodes of a node are the words counted after it.  From a
    compressor whose registry holds every node under its own word, holds
    the line-start node, and in which a word is among the [nd_] attributes
    of another exactly when the pair has a count of one or more (a fresh
    compressor is such), [compress] leaves a registry of the same kind. *)
Theorem subnodes_agree_with_counts (fuel : nat) (self : RegExCompressor.t)
  (lines out : list text) (self' : RegExCompressor.t) :
  registry_ok (RegExCompressor.phrases self) ->
  PhraseNode.has RegExCompressor.root (RegExCompressor.phrases self) = true ->
  linked (RegExCompressor.phrases self) ->
  RegExCompressor.compress fuel self lines = Ok (out, self') ->
  registry_ok (RegExCompressor.phrases self')
  /\ PhraseNode.has RegExCompressor.root (RegExCompressor.phrases self') = true
  /\ forall a b,
       (exists s, PhraseNode.get a (RegExCompressor.phrases self') = Some s
                  /\ In b (PhraseNode.nd s))
       <-> 1 <= PhraseNode.edge_count a b (RegExCompressor.phrases self').
Proof.
  intros Hok Hroot Hl H.
  exact (compress_registry linked intern_linked add_node_linked
           fuel self lines out self' Hok Hroot Hl H).
Qed.

Lemma subnodes_agree_with_counts_witness :
  exists out self',
    RegExCompressor.compress 4 RegExCompressor.init error_lines = Ok (out, self')
    /\ forall a b,
         (exists s, PhraseNode.get a (RegExCompressor.phrases self') = Some s
                    /\ In b (PhraseNode.nd s))
         <-> 1 <= PhraseNode.edge_count a b (RegExCompressor.phrases self').
Proof.
  destruct (RegExCompressor.compress 4 RegExCompressor.init error_lines)
    as [[out self']| | |] eqn:E; [|vm_compute in E; discriminate ..].
  exists out, self'. split; [reflexivity|].
  apply (subnodes_agree_with_counts 4 RegExCompressor.init error_lines out self');
    [repeat constructor|reflexivity|exact linked_empty|exact E].
Defined.

(** ** Undoing a rule *)

Section Undo.

(** The token [<d>] and what replaces it. *)
Variable d : text.
Variable repl : text.
Hypothesis Hd : Forall (fun c => In c Token.chars) d.

Let t : text := txt "<" ++ d ++ txt ">".
Let undo (s : text) : text := re_sub (m_literal t) (fun _ => repl) s.

Lemma undo_nil : undo [] = [].
Proof. reflexivity. Qed.

Lemma undo_char (c : ascii) (s : text) :
  bracket c = false -> undo (c :: s) = c :: undo s.
Proof.
  intros Hc. unfold undo, re_sub. cbn [scan]. unfold m_literal at 1.
  unfold t at 1. cbn [txt list_ascii_of_string app]. rewrite starts_with_cons.
  rewrite Ascii.eqb_sym, (bracket_open _ Hc). reflexivity.
Qed.

Lemma tok_assoc (d0 s : text) :
  (txt "<" ++ d0 ++ txt ">") ++ s = txt "<" ++ d0 ++ txt ">" ++ s.
Proof. now rewrite <- !app_assoc. Qed.

Lemma undo_same (s : text) :
  undo (txt "<" ++ d ++ txt ">" ++ s) = repl ++ undo s.
Proof.
  rewrite <- tok_assoc. fold t. unfold undo, re_sub.
  assert (Ht : t = "<"%char :: (d ++ [">"%char])) by reflexivity.
  rewrite Ht at 2. cbn [app scan]. unfold m_literal at 1.
  change ("<"%char :: (d ++ [">"%char]) ++ s) with (t ++ s).
  rewrite starts_with_app. rewrite Ht at 1. cbn [length map concat render].
  f_equal. change (m_literal ("<"%char :: d ++ [">"%char])) with (m_literal t).
  now rewrite scan_skip.
Qed.

Lemma undo_other (d' s : text) :
  Forall (fun c => In c Token.chars) d' -> d' <> d ->
  undo (txt "<" ++ d' ++ txt ">" ++ s) = txt "<" ++ d' ++ txt ">" ++ undo s.
Proof.
  intros Hd' Hne. unfold undo, re_sub.
  cbn [txt list_ascii_of_string app scan]. unfold m_literal at 1.
  assert (E : starts_with t ("<"%char :: d' ++ ">"%char :: s) = false).
  { destruct (starts_with t _) eqn:E; [|reflexivity]. exfalso.
    apply starts_with_split in E. unfold t in E.
    cbn [txt list_ascii_of_string app] in E. inversion E as [E'].
    rewrite <- app_assoc in E'. cbn [app] in E'.
    apply split_at_close in E'; [|assumption..]. now destruct E'. }
  rewrite E. cbn [map concat render app]. f_equal.
  rewrite scan_inside.
  - rewrite map_app, concat_app, concat_map_char, <- app_assoc. reflexivity.
  - intros d1 d2 Ed. unfold m_literal.
    replace (starts_with t (d2 ++ ">"%char :: s)) with false; [reflexivity|].
    symmetry. unfold t. cbn [txt list_ascii_of_string app].
    destruct d2 as [|x d2]; cbn [app]; rewrite starts_with_cons.
    + reflexivity.
    + assert (Hx : In x Token.chars).
      { rewrite Forall_forall in Hd'. apply Hd'. rewrite Ed.
        apply in_app_iff. right. now left. }
      apply chars_no_bracket in Hx. destruct Hx as [Hx _].
      now rewrite Ascii.eqb_sym, (bracket_open _ Hx).
Qed.

(** Undoing works through a tokened text piece by piece. *)
Lemma undo_app (toks : list text) (a b : text) :
  tokened toks a -> undo (a ++ b) = undo a ++ undo b.
Proof.
  induction 1 as [|c s Hc Hs IH|d' s Hin Hd' Hs IH].
  - reflexivity.
  - cbn [app]. rewrite !undo_char by assumption. now rewrite IH.
  - rewrite <- tok_assoc, <- app_assoc, !tok_assoc.
    destruct (list_eq_dec ascii_dec d' d) as [->|Hne].
    + rewrite !undo_same, IH. now rewrite app_assoc.
    + rewrite !undo_other by assumption. rewrite IH.
      now rewrite <- !app_assoc.
Qed.

(** A text that does not hold the token stays as it is. *)
Lemma undo_absent (toks : list text) (s : text) :
  tokened toks s -> ~ In t toks -> undo s = s.
Proof.
  intros Hs Ht. induction Hs as [|c s Hc Hs IH|d' s Hin Hd' Hs IH].
  - reflexivity.
  - rewrite undo_char by assumption. now rewrite IH.
  - destruct (list_eq_dec ascii_dec d' d) as [->|Hne]; [contradiction|].
    rewrite undo_other by assumption. now rewrite IH.
Qed.

(** Undoing keeps a text tokened when the replacement is. *)
Lemma undo_tokened (toks : list text) (s : text) :
  tokened toks repl -> tokened toks s -> tokened toks (undo s).
Proof.
  intros Hr. induction 1 as [|c s Hc Hs IH|d' s Hin Hd' Hs IH].
  - constructor.
  - rewrite undo_char by assumption. now constructor.
  - destruct (list_eq_dec ascii_dec d' d) as [->|Hne].
    + rewrite undo_same. now apply tokened_app.
    + rewrite undo_other by assumption. now apply tokened_tok.
Qed.

End Undo.


(** ** Contraction *)

Lemma contract_under (toks : list text) (p t w a a' : text) :
  tokened toks w -> contract toks p t a a' ->
  contract toks p t (w ++ a) (w ++ a').
Proof.
  intros Hw Ha. induction Hw as [|c s Hc Hs IH|d s Hin Hd Hs IH].
  - exact Ha.
  - cbn [app]. now constructor.
  - rewrite <- !app_assoc. now apply contract_tok.
Qed.

(** A substitution of the phrase by the token is a contraction. *)
Lemma sub_contract (toks : list text) (p t : text) :
  tokened toks p -> In space p ->
  forall n line,
    length line <= n -> tokened toks line ->
    contract toks p t line (re_sub (m_literal p) (fun _ => t) line).
Proof.
  intros Hp Hsp. induction n as [|n IH]; intros line Hn Hl.
  - destruct line; [constructor|simpl in Hn; lia].
  - destruct line as [|c s]; [constructor|]. cbn [length] in Hn.
    unfold re_sub. cbn [scan]. unfold m_literal at 1.
    destruct (starts_with p (c :: s)) eqn:E.
    + pose proof (starts_with_split _ _ E) as Es.
      destruct p as [|x p]; [destruct Hsp|].
      cbn [length skipn app] in Es. remember (skipn (length p) s) as r eqn:Er.
      clear Er. inversion Es as [[Ec Es']]. subst c s. clear Es.
      cbn [length map concat render]. rewrite scan_skip.
      change (x :: p ++ r) with ((x :: p) ++ r). apply contract_block.
      apply (IH r).
      * rewrite length_app in Hn. lia.
      * now apply (tokened_after toks (x :: p) Hp).
    + apply tokened_cons_inv in Hl.
      destruct Hl as [[Hc Hs]|[-> [d [s' [-> [Hin [Hd Hs']]]]]]].
      * cbn [map concat render app]. constructor; [exact Hc|].
        apply (IH s); [lia|exact Hs].
      * cbn [map concat render app].
        rewrite scan_inside.
        -- rewrite map_app, concat_app, concat_map_char, <- app_assoc.
           apply (contract_tok toks p t d); [exact Hin|exact Hd|].
           apply (IH s'); [|exact Hs'].
           rewrite length_app in Hn. cbn [length] in Hn. lia.
        -- intros d1 d2 Ed. unfold m_literal.
           destruct (starts_with p (d2 ++ ">"%char :: s')) eqn:E2; [|reflexivity].
           exfalso. apply starts_with_split in E2.
           assert (Hd2 : Forall (fun c => In c Token.chars) d2).
           { rewrite Ed in Hd. apply Forall_app in Hd. apply Hd. }
           destruct (tokened_inside toks p Hp d2 _ _ Hd2 (eq_sym E2)) as [r' Er].
           rewrite Forall_forall in Hd2.
           apply (chars_no_space space); [|reflexivity].
           apply Hd2. rewrite Er. apply in_app_iff. now left.
Qed.

(** Undoing the rule of a contraction gives the same text on both sides. *)
Lemma contract_undo_self (toks tp : list text) (p d : text) (x x' : text) :
  Forall (fun c => In c Token.chars) d ->
  tokened tp p -> ~ In (txt "<" ++ d ++ txt ">") tp ->
  contract toks p (txt "<" ++ d ++ txt ">") x x' ->
  re_sub (m_literal (txt "<" ++ d ++ txt ">")) (fun _ => p) x'
  = re_sub (m_literal (txt "<" ++ d ++ txt ">")) (fun _ => p) x.
Proof.
  intros Hd Hp Hfresh.
  induction 1 as [|c s s' Hc Hs IH|d0 s s' Hin Hd0 Hs IH|s s' Hs IH].
  - reflexivity.
  - rewrite !undo_char by assumption. now rewrite IH.
  - destruct (list_eq_dec ascii_dec d0 d) as [->|Hne].
    + rewrite !undo_same by assumption. now rewrite IH.
    + rewrite !undo_other by assumption. now rewrite IH.
  - rewrite tok_assoc, undo_same by assumption.
    rewrite (undo_app d p Hd tp p s Hp), IH.
    now rewrite (undo_absent d p Hd tp p Hp Hfresh).
Qed.

(** Undoing another rule keeps a contraction. *)
Lemma contract_undo_other (toks tp : list text) (p d dj pj : text)
  (x x' : text) :
  Forall (fun c => In c Token.chars) d ->
  Forall (fun c => In c Token.chars) dj ->
  d <> dj -> tokened toks pj ->
  tokened tp p -> ~ In (txt "<" ++ dj ++ txt ">") tp ->
  contract toks p (txt "<" ++ d ++ txt ">") x x' ->
  contract toks p (txt "<" ++ d ++ txt ">")
    (re_sub (m_literal (txt "<" ++ dj ++ txt ">")) (fun _ => pj) x)
    (re_sub (m_literal (txt "<" ++ dj ++ txt ">")) (fun _ => pj) x').
Proof.
  intros Hd Hdj Hne Hpj Hp Hfresh.
  induction 1 as [|c s s' Hc Hs IH|d0 s s' Hin Hd0 Hs IH|s s' Hs IH].
  - constructor.
  - rewrite !undo_char by assumption. now constructor.
  - destruct (list_eq_dec ascii_dec d0 dj) as [->|Hne0].
    + rewrite !undo_same by assumption. now apply contract_under.
    + rewrite !undo_other by assumption. now apply contract_tok.
  - rewrite tok_assoc, undo_other by (assumption || congruence).
    rewrite (undo_app dj pj Hdj tp p s Hp).
    rewrite (undo_absent dj pj Hdj tp p Hp Hfresh).
    rewrite <- tok_assoc. now apply contract_block.
Qed.

(** ** Undoing a table *)

Lemma decompress_snoc (rules : list (text * RegExTuple.t))
  (e : text * RegExTuple.t) (line : text) :
  decompress (rules ++ [e]) line = decompress rules (undo_one (snd e) line).
Proof. unfold decompress. now rewrite rev_app_distr. Qed.

Lemma decompress_app (pre post : list (text * RegExTuple.t)) (line : text) :
  decompress (pre ++ post) line = decompress pre (decompress post line).
Proof. unfold decompress. now rewrite rev_app_distr, fold_left_app. Qed.

Lemma tokens_of_app (a b : list (text * RegExTuple.t)) :
  tokens_of (a ++ b) = tokens_of a ++ tokens_of b.
Proof. apply map_app. Qed.

Lemma layered_prefix (pre post : list (text * RegExTuple.t)) :
  layered (pre ++ post) -> layered pre.
Proof.
  intros H a e b E. apply (H a e (b ++ post)). rewrite E.
  now rewrite <- app_assoc.
Qed.


Lemma contract_decompress (toks tp : list text) (p d : text)
  (post : list (text * RegExTuple.t)) :
  Forall (fun c => In c Token.chars) d -> tokened tp p ->
  (forall e, In e post ->
     exists dj, RegExTuple.token (snd e) = txt "<" ++ dj ++ txt ">"
                /\ Forall (fun c => In c Token.chars) dj /\ d <> dj
                /\ ~ In (txt "<" ++ dj ++ txt ">") tp
                /\ tokened toks (RegExTuple.replaces (snd e))) ->
  forall x x',
    contract toks p (txt "<" ++ d ++ txt ">") x x' ->
    contract toks p (txt "<" ++ d ++ txt ">")
             (decompress post x) (decompress post x').
Proof.
  intros Hd Hp. induction post as [|e post IH] using rev_ind; intros Hall x x' H.
  - exact H.
  - rewrite !decompress_snoc. apply IH.
    + intros e0 He0. apply Hall. apply in_app_iff. now left.
    + destruct (Hall e) as [dj [Et [Hdj [Hne [Hfresh Hpj]]]]];
        [apply in_app_iff; right; now left|].
      unfold undo_one. rewrite Et.
      now apply (contract_undo_other toks tp).
Qed.

Lemma tokens_of_incl_l (a b : list (text * RegExTuple.t)) :
  incl (tokens_of a) (tokens_of (a ++ b)).
Proof. intros x Hx. rewrite tokens_of_app. apply in_app_iff. now left. Qed.

(** Applying a rule of a layered table changes nothing for [decompress]. *)
Lemma decompress_sub (pre post : list (text * RegExTuple.t))
  (e : text * RegExTuple.t) (line : text) :
  layered (pre ++ e :: post) ->
  tokened (tokens_of (pre ++ e :: post)) line ->
  decompress (pre ++ e :: post)
    (re_sub (m_literal (RegExTuple.regex (snd e)))
            (fun _ => RegExTuple.token (snd e)) line)
  = decompress (pre ++ e :: post) line.
Proof.
  intros Hlay Hl. set (toks := tokens_of (pre ++ e :: post)) in *.
  destruct (Hlay pre e post eq_refl)
    as [[d [Et Hd]] [Hfresh [Er [Hsp [Hpl [Hp _]]]]]].
  assert (Hp' : tokened toks (RegExTuple.regex (snd e)))
    by (apply (tokened_impl (tokens_of pre)); [apply tokens_of_incl_l|exact Hp]).
  pose proof (sub_contract toks _ (RegExTuple.token (snd e)) Hp' Hsp
                (length line) line (Nat.le_refl _) Hl) as Hc.
  rewrite Et in Hc, Hfresh.
  replace (pre ++ e :: post) with ((pre ++ [e]) ++ post)
    by (now rewrite <- app_assoc).
  rewrite !(decompress_app (pre ++ [e]) post), !decompress_snoc. f_equal.
  unfold undo_one. rewrite Er.
  rewrite Et. apply (contract_undo_self toks (tokens_of pre)); try assumption.
  apply (contract_decompress toks (tokens_of pre)); try assumption.
  intros ej Hj. apply in_split in Hj. destruct Hj as [post1 [post2 Ej]].
  destruct (Hlay (pre ++ e :: post1) ej post2)
    as [[dj [Etj Hdj]] [Hfj [Erj [_ [_ [Hpj _]]]]]].
  { rewrite Ej. now rewrite <- app_assoc. }
  exists dj. split; [exact Etj|]. split; [exact Hdj|].
  rewrite Etj in Hfj. rewrite tokens_of_app in Hfj. split; [|split].
  - intros E. apply Hfj. apply in_app_iff. right. left.
    rewrite Et. now rewrite E.
  - intros Hin. apply Hfj. apply in_app_iff. now left.
  - rewrite Erj. apply (tokened_impl (tokens_of (pre ++ e :: post1))); [|exact Hpj].
    unfold toks. rewrite Ej.
    replace (pre ++ e :: post1 ++ ej :: post2)
      with ((pre ++ e :: post1) ++ ej :: post2) by (now rewrite <- app_assoc).
    apply tokens_of_incl_l.
Qed.

(** Rules made later change nothing for a text made before them. *)
Lemma decompress_extends (rules new : list (text * RegExTuple.t)) (line : text) :
  layered (rules ++ new) -> tokened (tokens_of rules) line ->
  decompress (rules ++ new) line = decompress rules line.
Proof.
  induction new as [|e new IH] using rev_ind; intros Hlay Hl.
  - now rewrite app_nil_r.
  - rewrite app_assoc in *. rewrite decompress_snoc.
    destruct (Hlay (rules ++ new) e [] eq_refl) as [[d [Et Hd]] [Hfresh _]].
    unfold undo_one. rewrite Et.
    rewrite (undo_absent d _ Hd (tokens_of rules) line Hl).
    + apply IH; [|exact Hl]. now apply (layered_prefix _ [e]).
    + rewrite <- Et. intros Hin. apply Hfresh. now apply tokens_of_incl_l.
Qed.

(** A text without tokens is its own decompression. *)
Lemma decompress_bare (rules : list (text * RegExTuple.t)) (line : text) :
  layered rules -> tokened [] line -> decompress rules line = line.
Proof.
  intros Hlay Hl.
  rewrite <- (app_nil_l rules) in *. rewrite decompress_extends; auto.
Qed.


(** ** Trailing whitespace *)

Lemma rstrip_snoc (s : text) (c : ascii) :
  rstrip (s ++ [c]) = if is_space c then rstrip s else s ++ [c].
Proof.
  unfold rstrip. rewrite rev_app_distr. cbn [rev app lstrip].
  destruct (is_space c); [reflexivity|]. cbn [rev]. now rewrite rev_involutive.
Qed.

Lemma rstrip_length (s : text) : length (rstrip s) <= length s.
Proof.
  destruct (rstrip_prefix s) as [tail E]. rewrite E at 2.
  rewrite length_app. lia.
Qed.

Lemma trimmed_last (s : text) :
  rstrip s = s <-> is_space (last s "x"%char) = false.
Proof.
  destruct s as [|c s] using rev_ind; [split; reflexivity|]. clear IHs.
  rewrite rstrip_snoc, last_last. destruct (is_space c) eqn:E.
  - split; [|discriminate]. intros H. pose proof (rstrip_length s) as Hl.
    rewrite H, length_app in Hl. cbn [length] in Hl. lia.
  - split; reflexivity.
Qed.

Lemma last_app_r {A : Type} (a b : list A) (d : A) :
  b <> [] -> last (a ++ b) d = last b d.
Proof.
  intros Hb. destruct b as [|x b] using rev_ind; [congruence|].
  now rewrite app_assoc, !last_last.
Qed.

Lemma contract_last (toks : list text) (p d : text) (x x' : text) :
  p <> [] -> is_space (last p "x"%char) = false ->
  contract toks p (txt "<" ++ d ++ txt ">") x x' ->
  (x = [] <-> x' = [])
  /\ (is_space (last x "x"%char) = false ->
      is_space (last x' "x"%char) = false).
Proof.
  intros Hne Hp.
  assert (Hgen : forall (w w' s s' : text),
            w <> [] -> w' <> [] ->
            (is_space (last w "x"%char) = false ->
             is_space (last w' "x"%char) = false) ->
            (s = [] <-> s' = []) ->
            (is_space (last s "x"%char) = false ->
             is_space (last s' "x"%char) = false) ->
            (w ++ s = [] <-> w' ++ s' = [])
            /\ (is_space (last (w ++ s) "x"%char) = false ->
                is_space (last (w' ++ s') "x"%char) = false)).
  { intros w w' s s' Hw Hw' Hww Hs Hl. split.
    - split; intros H; apply app_eq_nil in H; destruct H; congruence.
    - destruct s as [|a s].
      + assert (s' = []) by now apply Hs. subst s'. now rewrite !app_nil_r.
      + assert (Hs' : s' <> []) by (intros E; apply Hs in E; discriminate).
        rewrite !last_app_r by (assumption || discriminate). exact Hl. }
  induction 1 as [|c s s' Hc Hs [IH1 IH2]|d0 s s' Hin Hd0 Hs [IH1 IH2]
                  |s s' Hs [IH1 IH2]].
  - split; [tauto|auto].
  - apply (Hgen [c] [c]); auto; discriminate.
  - rewrite <- !tok_assoc. apply Hgen; auto; discriminate.
  - apply Hgen; auto; [discriminate|].
    intros _. cbn [txt list_ascii_of_string app].
    change ("<"%char :: d ++ [">"%char]) with (["<"%char] ++ d ++ [">"%char]).
    rewrite app_assoc, last_last. reflexivity.
Qed.

(** A substitution leaves no trailing whitespace. *)
Lemma sub_trimmed (toks : list text) (p d line : text) :
  tokened toks p -> In space p -> is_space (last p "x"%char) = false ->
  tokened toks line -> rstrip line = line ->
  rstrip (re_sub (m_literal p) (fun _ => txt "<" ++ d ++ txt ">") line)
  = re_sub (m_literal p) (fun _ => txt "<" ++ d ++ txt ">") line.
Proof.
  intros Hp Hsp Hlast Hl Ht. apply trimmed_last. apply trimmed_last in Ht.
  pose proof (sub_contract toks p (txt "<" ++ d ++ txt ">") Hp Hsp
                (length line) line (Nat.le_refl _) Hl) as Hc.
  apply contract_last in Hc; [now apply Hc| |exact Hlast].
  intros E. rewrite E in Hsp. destruct Hsp.
Qed.

(** ** Layered tables *)

Lemma digits_plain (d : text) :
  Forall (fun c => In c Token.chars) d -> plain (txt "<" ++ d ++ txt ">").
Proof.
  intros Hd. apply plain_app. split; [reflexivity|]. apply plain_app.
  split; [|reflexivity]. apply plain_In. intros c Hc.
  rewrite Forall_forall in Hd. apply (proj1 (plain_In _) chars_plain).
  now apply Hd.
Qed.

Lemma rule_over_plain (pre : list (text * RegExTuple.t)) (r : RegExTuple.t) :
  rule_over pre r -> rule_plain r.
Proof.
  intros [[d [Et Hd]] [_ [_ [Hsp [Hpl _]]]]]. split; [|split].
  - intros E. rewrite E in Hsp. destruct Hsp.
  - exact Hpl.
  - rewrite Et. now apply digits_plain.
Qed.

Lemma rule_over_tokened (pre : list (text * RegExTuple.t)) (r : RegExTuple.t)
  (toks : list text) :
  rule_over pre r -> incl (tokens_of pre) toks -> In (RegExTuple.token r) toks ->
  rule_tokened toks r.
Proof.
  intros H Hi Hin. pose proof (rule_over_plain _ _ H) as Hpl.
  destruct H as [[d [Et Hd]] [_ [_ [Hsp [_ [Hp _]]]]]].
  split; [exact Hpl|]. split; [exact Hsp|]. split.
  - now apply (tokened_impl (tokens_of pre)).
  - rewrite Et in *. rewrite <- (app_nil_r (txt "<" ++ d ++ txt ">")), tok_assoc.
    apply tokened_tok; [exact Hin|exact Hd|constructor].
Qed.

Lemma layered_tokened (rules : list (text * RegExTuple.t)) :
  layered rules ->
  Forall (fun e => rule_tokened (tokens_of rules) (snd e)) rules.
Proof.
  intros Hlay. apply Forall_forall. intros e He.
  apply in_split in He. destruct He as [pre [post E]].
  apply (rule_over_tokened pre); [now apply (Hlay pre e post)| |].
  - rewrite E. apply tokens_of_incl_l.
  - rewrite E, tokens_of_app. apply in_app_iff. right. now left.
Qed.

Lemma layered_snoc (rules : list (text * RegExTuple.t))
  (e : text * RegExTuple.t) :
  layered rules -> rule_over rules (snd e) -> layered (rules ++ [e]).
Proof.
  intros Hlay He pre e0 post E.
  destruct post as [|x post _] using rev_ind.
  - apply app_inj_tail in E. destruct E as [-> ->]. exact He.
  - rewrite app_comm_cons, app_assoc in E. apply app_inj_tail in E.
    destruct E as [E _]. now apply (Hlay pre e0 post).
Qed.


(** ** Every step is undone by [decompress] *)

Section Faithful.

Import PhraseNode RegExCompressor.

Lemma apply_one_faithful (rules : list (text * RegExTuple.t))
  (e : text * RegExTuple.t) (line b line' : text) (c : nat) :
  layered rules -> In e rules -> tokened (tokens_of rules) line ->
  faithful rules line b -> apply_one line (snd e) = Ok (line', c) ->
  faithful rules line' b.
Proof.
  intros Hlay He Hl [Ht Hb] H. apply in_split in He.
  destruct He as [pre [post E]]. subst rules.
  pose proof (Hlay pre e post eq_refl) as Hover.
  pose proof (rule_over_plain _ _ Hover) as [Hne [Hpr Hpt]].
  rewrite apply_one_plain in H by auto using plain_no_backslash.
  inversion H; subst line' c. clear H. split.
  - destruct Hover as [[d [Et Hd]] [_ [_ [Hsp [_ [Hp Hlast]]]]]].
    rewrite Et. apply (sub_trimmed (tokens_of (pre ++ e :: post))); auto.
    apply (tokened_impl (tokens_of pre)); [apply tokens_of_incl_l|exact Hp].
  - rewrite decompress_sub; assumption.
Qed.

Lemma apply_rules_faithful (rules : list (text * RegExTuple.t)) (b : text)
  (todo : list (text * RegExTuple.t)) :
  forall line c0 line' c,
    layered rules -> incl todo rules ->
    clean (tokens_of rules) line -> faithful rules line b ->
    apply_rules todo line c0 = Ok (line', c) -> faithful rules line' b.
Proof.
  induction todo as [|[k r] todo IH]; intros line c0 line' c Hlay Hi Hcl Hf H;
    cbn [apply_rules] in H.
  - inversion H; now subst.
  - bind_inv H. destruct a as [line1 d].
    assert (Hin : In (k, r) rules) by (apply Hi; now left).
    pose proof (layered_tokened _ Hlay) as Hall. rewrite Forall_forall in Hall.
    pose proof (apply_one_clean _ _ _ _ _ (Hall _ Hin) Hcl Hm) as Hcl1.
    apply (apply_one_faithful rules (k, r) line b) in Hm; auto; [|apply Hcl].
    apply (IH _ _ _ _ Hlay) in H; auto.
    intros x Hx. apply Hi. now right.
Qed.

Lemma todo_loop_faithful (rules : list (text * RegExTuple.t)) (b : text)
  (n : nat) :
  forall pos todo line cur changes cur' changes' todo',
    layered rules -> todo_listed rules todo ->
    clean (tokens_of rules) line -> faithful rules line b ->
    faithful rules cur b ->
    todo_loop n pos todo line cur changes = Ok (cur', changes', todo') ->
    todo_listed rules todo' /\ faithful rules cur' b.
Proof.
  induction n as [|n IH]; intros pos todo line cur changes cur' changes' todo'
    Hlay Htodo Hcl Hl Hc H; cbn [todo_loop] in H.
  - inversion H; subst. now split.
  - destruct (nth_error todo pos) as [[regex stopline]|] eqn:E.
    2:{ inversion H; subst. now split. }
    pose proof (nth_error_In _ _ E) as Hin.
    assert (Hr : exists k, In (k, regex) rules).
    { unfold todo_listed in Htodo. rewrite Forall_forall in Htodo.
      exact (Htodo _ Hin). }
    destruct Hr as [k Hk].
    bind_inv H. destruct a as [new_line delta].
    apply (apply_one_faithful rules (k, regex) line b) in Hm; auto; [|apply Hcl].
    apply IH in H; auto.
    destruct (_ && _); [|assumption].
    unfold todo_listed in *. rewrite Forall_forall in *. intros e He.
    apply set_nth_In in He. destruct He as [He|He].
    + subst e. apply Htodo. apply last_In. intros Hnil. rewrite Hnil in Hin.
      contradiction.
    + apply Htodo. now apply removelast_In.
Qed.

Lemma catch_up_faithful (rules : list (text * RegExTuple.t))
  (chunk : list text) :
  forall bs changes todo chunk' changes',
    layered rules -> todo_listed rules todo ->
    Forall (clean (tokens_of rules)) chunk ->
    Forall2 (faithful rules) chunk bs ->
    catch_up chunk changes todo = Ok (chunk', changes') ->
    Forall2 (faithful rules) chunk' bs.
Proof.
  induction chunk as [|line rest IH]; intros bs changes todo chunk' changes'
    Hlay Htodo Hall Hf H; cbn [catch_up] in H.
  - inversion H; subst. exact Hf.
  - inversion Hall as [|? ? Hl Hrest]; subst.
    inversion Hf as [|? b ? bs' Hb Hbs]; subst.
    bind_inv H. destruct a as [[cur c1] todo1].
    bind_inv H. destruct a as [rest' c2]. inversion H; subst. clear H.
    apply (todo_loop_faithful rules b) in Hm; auto.
    destruct Hm as [Htodo1 Hcur].
    constructor; [exact Hcur|]. eapply IH; eauto.
Qed.

Lemma word_last (w : text) : word w -> is_space (last w "x"%char) = false.
Proof.
  intros [Hne Hw]. rewrite forallb_forall in Hw.
  apply negb_true_iff. apply Hw. now apply last_In.
Qed.

Lemma issued_fresh (n : nat) (tk : Token.t) (tok : text) (tk' : Token.t) :
  Token.after n = Some tk -> Token.next tk = Some (tok, tk') ->
  ~ In tok (Token.issued n).
Proof.
  intros Ha En Hin. pose proof (issued_NoDup (S n)) as Hnd.
  cbn [Token.issued] in Hnd. rewrite Ha, En in Hnd.
  apply NoDup_remove_2 in Hnd. rewrite app_nil_r in Hnd. contradiction.
Qed.

Lemma gen_regex_layered (self : t) (a b : text) (r : option RegExTuple.t)
  (self' : t) :
  table_ok self -> layered (_expressions self) ->
  clean (rule_tokens self) a -> clean (rule_tokens self) b -> word b ->
  gen_regex self a b = Ok (r, self') ->
  layered (_expressions self')
  /\ forall x, r = Some x -> exists k, In (k, x) (_expressions self').
Proof.
  intros Hok Hlay [Hpa Hta] [Hpb Htb] Hwb H. unfold gen_regex in H.
  destruct (has _ (_expressions self)) eqn:E.
  { inversion H; subst. split; [assumption|discriminate]. }
  destruct Hok as [_ [_ [Haft [Htoks _]]]].
  destruct (Token.next (token self)) as [[tok tk]|] eqn:En; [|discriminate].
  inversion H; subst. clear H. cbn [_expressions].
  rewrite set_fresh by exact E.
  assert (Hs : Token.after (S (length (_expressions self))) = Some tk)
    by (cbn [Token.after]; now rewrite Haft, En).
  assert (Etok : tok = Token.token tk).
  { unfold Token.next in En.
    destruct (Token.next_loop _ _ (token self)); inversion En; now subst. }
  assert (Hpp : plain (a ++ txt " " ++ b)).
  { apply plain_app. split; [exact Hpa|]. apply plain_app. now split. }
  assert (Htp : tokened (tokens_of (_expressions self)) (a ++ txt " " ++ b)).
  { apply tokened_app; [exact Hta|]. apply tokened_app; [|exact Htb].
    now repeat constructor. }
  assert (Hsp : In space (a ++ txt " " ++ b)).
  { apply in_app_iff. right. now left. }
  assert (Hlast : is_space (last (a ++ txt " " ++ b) "x"%char) = false).
  { destruct Hwb as [Hne Hw]. rewrite app_assoc, last_app_r by exact Hne.
    now apply word_last. }
  assert (Hfresh : ~ In tok (tokens_of (_expressions self))).
  { unfold tokens_of. rewrite Htoks. now apply (issued_fresh _ _ _ _ Haft En). }
  split.
  - apply layered_snoc; [exact Hlay|]. cbn [snd]. unfold rule_over.
    cbn [RegExTuple.token RegExTuple.regex RegExTuple.replaces].
    split; [exists (Token.digits tk); split;
            [exact Etok|now apply (after_chars _ _ Hs)]|].
    auto 10.
  - intros x Hx. inversion Hx; subst. eexists. apply in_app_iff. right.
    now left.
Qed.

Lemma todo_listed_extends (rules new : list (text * RegExTuple.t))
  (todo : todo_list) :
  todo_listed rules todo -> todo_listed (rules ++ new) todo.
Proof.
  intros H. eapply Forall_impl; [|exact H]. intros e [k Hk].
  exists k. apply in_app_iff. now left.
Qed.

Lemma map_words_layered (words : list text) :
  forall self lastnode at_root index todo self' todo',
    table_ok self -> layered (_expressions self) ->
    todo_listed (_expressions self) todo ->
    Forall word words -> Forall (clean (rule_tokens self)) words ->
    has lastnode (phrases self) = true ->
    (at_root = false -> word lastnode /\ clean (rule_tokens self) lastnode) ->
    map_words self lastnode at_root words index todo = Ok (self', todo') ->
    layered (_expressions self') /\ todo_listed (_expressions self') todo'.
Proof.
  induction words as [|w rest IH]; intros self lastnode at_root index todo
    self' todo' Hok Hlay Htodo Hwords Hclean Hlast Hword H; cbn [map_words] in H.
  - inversion H; subst. now split.
  - inversion Hwords as [|? ? Hw Hrest]; subst.
    inversion Hclean as [|? ? Hcw Hcrest]; subst.
    destruct w as [|c w0]; [destruct Hw; congruence|]. set (w := c :: w0) in *.
    pose proof Hok as [_ [_ [_ [_ [_ [Hreg Hroot]]]]]].
    destruct (intern_spec w (phrases self) Hreg) as [Hok0 [Hhw [Hhas0 [Hec0 _]]]].
    assert (Hlast0 : has lastnode (intern w (phrases self)) = true)
      by (rewrite Hhas0, Hlast; reflexivity).
    destruct (add_node_spec lastnode w _ Hok0 Hlast0 Hhw)
      as [ph' [Hadd [Hok1 [Hkeys [Hec1 _]]]]].
    rewrite Hadd in H. cbn [bind] in H.
    assert (Hhas1 : forall k, has k ph' = has k (intern w (phrases self))).
    { intros k. destruct (has k ph') eqn:E1.
      - apply has_in in E1. rewrite Hkeys in E1. apply has_in in E1. now rewrite E1.
      - apply has_false_in in E1. rewrite Hkeys in E1. apply has_false_in in E1.
        now rewrite E1. }
    assert (Hok' : table_ok (with_phrases self ph')).
    { apply table_ok_with_phrases; try assumption.
      - rewrite Hhas1, Hhas0, Hroot. reflexivity.
      - intros a b. rewrite Hec1, Hec0. lia. }
    assert (Hw' : has w (phrases (with_phrases self ph')) = true)
      by (cbn [with_phrases phrases]; now rewrite Hhas1).
    destruct ((5 <=? edge_count lastnode w (intern w (phrases self)) + 1)
              && negb at_root) eqn:Ec.
    + apply andb_true_iff in Ec. destruct Ec as [Ec Er].
      apply Nat.leb_le in Ec. apply negb_true_iff in Er.
      destruct (Hword Er) as [Hwl Hcl].
      bind_inv H. destruct a as [new_reg self2].
      pose proof (gen_regex_phrases _ _ _ _ _ Hm) as Hph.
      pose proof (gen_regex_extends _ _ _ _ _ Hm) as Hext.
      pose proof (extends_tokens _ _ Hext) as Hinc.
      change (rule_tokens (with_phrases self ph')) with (rule_tokens self) in Hinc.
      destruct (gen_regex_layered (with_phrases self ph') _ _ _ _
                  Hok' Hlay Hcl Hcw Hw Hm) as [Hlay2 Hnew].
      assert (Hok2 : table_ok self2).
      { eapply table_ok_gen_regex; [exact Hok'|exact Hwl|exact Hw| |exact Hm].
        cbn [with_phrases phrases]. rewrite Hec1, !text_eqb_refl. cbn [andb].
        lia. }
      assert (Hw2 : has w (phrases self2) = true) by now rewrite Hph.
      assert (Hrest2 : Forall (clean (rule_tokens self2)) rest).
      { eapply Forall_impl; [|exact Hcrest]. intros x. now apply clean_impl. }
      assert (Htodo2 : todo_listed (_expressions self2) todo).
      { destruct Hext as [new Enew]. rewrite Enew.
        now apply todo_listed_extends. }
      assert (Hcw2 : false = false -> word w /\ clean (rule_tokens self2) w).
      { intros _. split; [exact Hw|]. now apply (clean_impl (rule_tokens self)). }
      destruct new_reg as [r|].
      * apply (IH _ _ _ _ _ _ _ Hok2 Hlay2) in H; auto.
        apply Forall_app. split; [exact Htodo2|].
        constructor; [|constructor]. now apply Hnew.
      * apply (IH _ _ _ _ _ _ _ Hok2 Hlay2) in H; auto.
    + apply (IH _ _ _ _ _ _ _ Hok' Hlay) in H; auto.
Qed.

End Faithful.


Section Faithful2.

Import PhraseNode RegExCompressor.

Lemma Forall2_with {A B : Type} (P : A -> Prop) (R R' : A -> B -> Prop)
  (l : list A) (bs : list B) :
  (forall x b, P x -> R x b -> R' x b) ->
  Forall P l -> Forall2 R l bs -> Forall2 R' l bs.
Proof.
  intros Himp Hp Hr. induction Hr as [|x b l bs Hxb Hr IH]; [constructor|].
  inversion Hp; subst. constructor; auto.
Qed.

Lemma faithful_extends (rules new : list (text * RegExTuple.t)) (x b : text) :
  layered (rules ++ new) -> tokened (tokens_of rules) x ->
  faithful rules x b -> faithful (rules ++ new) x b.
Proof.
  intros Hlay Hx [Ht Hb]. split; [exact Ht|].
  now rewrite decompress_extends.
Qed.

Lemma layered_table (self : t) :
  layered (_expressions self) -> table_tokened self.
Proof. apply layered_tokened. Qed.

Lemma first_pass_faithful (chunk : list text) :
  forall bs self index changes todo self' chunk' changes' todo',
    table_ok self -> layered (_expressions self) ->
    todo_listed (_expressions self) todo ->
    Forall (fun line => clean (rule_tokens self) (body line)) chunk ->
    Forall2 (fun line b => faithful (_expressions self) (body line) b) chunk bs ->
    first_pass self index chunk changes todo
    = Ok (self', chunk', changes', todo') ->
    layered (_expressions self') /\ todo_listed (_expressions self') todo'
    /\ Forall2 (faithful (_expressions self')) chunk' bs.
Proof.
  induction chunk as [|line0 rest IH]; intros bs self index changes todo
    self' chunk' changes' todo' Hok Hlay Htodo Hall Hf H; cbn [first_pass] in H.
  - inversion H; subst. inversion Hf; subst.
    split; [assumption|]. split; [assumption|constructor].
  - inversion Hall as [|? ? Hb Hrest]; subst.
    inversion Hf as [|? b ? bs' Hfb Hfrest]; subst.
    unfold body in Hb, Hfb.
    destruct (split_trailer line0) as [line trailer]. cbn [fst] in Hb, Hfb.
    bind_inv H. destruct a as [new_line delta].
    bind_inv H. destruct a as [self1 todo1].
    bind_inv H. destruct a as [[[self2 rest'] c2] todo2].
    inversion H; subst. clear H. unfold apply_regexes in Hm.
    pose proof (apply_rules_faithful _ b _ _ _ _ _ Hlay (incl_refl _) Hb Hfb Hm)
      as Hnew.
    pose proof (apply_rules_clean (rule_tokens self) _ _ _ _ _
                  (layered_table _ Hlay) Hb Hm) as Hcnew.
    unfold map_nodes in Hm0.
    pose proof (map_words_extends _ _ _ _ _ _ _ _ Hm0) as Hext1.
    assert (Hok1 : table_ok self1).
    { eapply map_words_table; [exact Hok|apply split_words_ok| | |exact Hm0].
      - apply Hok.
      - discriminate. }
    pose proof Hm0 as Hm0'.
    apply map_words_layered in Hm0'; auto using split_words_ok, split_clean.
    2:{ apply Hok. }
    2:{ discriminate. }
    destruct Hm0' as [Hlay1 Htodo1].
    pose proof (first_pass_extends _ _ _ _ _ _ _ _ _ Hm1) as Hext2.
    pose proof (extends_tokens _ _ Hext1) as Hinc1.
    destruct Hext1 as [new1 E1].
    apply (IH bs') in Hm1; auto.
    + destruct Hm1 as [Hlay2 [Htodo2 Hrest2]].
      split; [exact Hlay2|]. split; [exact Htodo2|].
      constructor; [|exact Hrest2].
      destruct Hext2 as [new2 E2]. rewrite E2, E1, <- app_assoc.
      apply faithful_extends; [|apply Hcnew|exact Hnew].
      rewrite app_assoc, <- E1, <- E2. exact Hlay2.
    + eapply Forall_impl; [|exact Hrest]. intros x. now apply clean_impl.
    + eapply Forall2_with; [|exact Hrest|exact Hfrest].
      intros x b0 Hx Hxb. cbv beta in *. rewrite E1. apply faithful_extends; [now rewrite <- E1|apply Hx|exact Hxb].
Qed.

Lemma body_trimmed (line : text) :
  plain line -> rstrip line = line -> body line = line.
Proof.
  intros Hp Ht. unfold body. now rewrite (split_trailer_plain _ Hp).
Qed.

Lemma press_mainloop_faithful (self : t) (chunk : list text) (bs : list text)
  (changes : nat) (self' : t) (chunk' : list text) :
  table_ok self -> layered (_expressions self) ->
  Forall (fun line => clean (rule_tokens self) (body line)) chunk ->
  Forall2 (fun line b => faithful (_expressions self) (body line) b) chunk bs ->
  press_mainloop self chunk = Ok (changes, self', chunk') ->
  layered (_expressions self')
  /\ Forall2 (faithful (_expressions self')) chunk' bs.
Proof.
  intros Hok Hlay Hall Hf H. unfold press_mainloop in H.
  bind_inv H. destruct a as [[[s1 c1] n1] t1].
  bind_inv H. destruct a as [c2 n2]. inversion H; subst. clear H.
  pose proof Hm as Hm'.
  apply first_pass_tokened in Hm'; auto using layered_table; [|constructor].
  destruct Hm' as [_ [_ Hc1]].
  apply (first_pass_faithful _ bs) in Hm; auto; [|constructor].
  destruct Hm as [Hlay1 [Htodo1 Hf1]].
  split; [exact Hlay1|].
  now apply (catch_up_faithful _ _ _ _ _ _ _ Hlay1 Htodo1 Hc1 Hf1) in Hm0.
Qed.

Lemma press_loop_faithful (fuel : nat) :
  forall self chunk bs self' chunk',
    table_ok self -> layered (_expressions self) ->
    Forall (fun line => clean (rule_tokens self) (body line)) chunk ->
    Forall2 (fun line b => faithful (_expressions self) (body line) b) chunk bs ->
    press_loop fuel self chunk = Ok (self', chunk') ->
    layered (_expressions self')
    /\ Forall2 (faithful (_expressions self')) chunk' bs.
Proof.
  induction fuel as [|fuel IH]; intros self chunk bs self' chunk' Hok Hlay
    Hall Hf H; cbn [press_loop] in H; [discriminate|].
  bind_inv H. destruct a as [[changes self1] chunk1].
  pose proof (press_mainloop_tokened _ _ _ _ _ Hok (layered_table _ Hlay) Hall Hm)
    as [Hok1 [_ Hc1]].
  apply (press_mainloop_faithful _ _ bs) in Hm; auto.
  destruct Hm as [Hlay1 Hf1].
  destruct (changes =? 0); [inversion H; now subst|].
  apply (IH _ _ bs) in H; auto.
  - eapply Forall_impl; [|exact Hc1]. intros x. apply body_clean.
  - eapply Forall2_with; [|exact Hc1|exact Hf1].
    intros x b0 Hx Hxb. cbv beta in *. rewrite body_trimmed; [exact Hxb|apply Hx|apply Hxb].
Qed.

Lemma target_faithful (rules : list (text * RegExTuple.t)) (line : text) :
  layered rules -> ~ In backslash line ->
  faithful rules (body (encode_punct_and_digits line))
           (body (encode_punct_and_digits line)).
Proof.
  intros Hlay Hb. split.
  - unfold body, split_trailer. cbn [fst]. apply rstrip_idem.
  - apply decompress_bare; [exact Hlay|].
    apply (body_encode_clean [] line Hb).
Qed.

Lemma compress_loop_faithful (fuel : nat) (lines : list text) :
  forall self chunk counter out done self' out',
    table_ok self -> layered (_expressions self) ->
    Forall (fun line => ~ In backslash line) lines ->
    Forall (fun line => ~ In backslash line) chunk ->
    Forall (clean (rule_tokens self)) out ->
    Forall2 (faithful (_expressions self)) out done ->
    compress_loop fuel self lines chunk counter out = Ok (self', out') ->
    exists k,
      Forall2 (faithful (_expressions self')) out'
              (done ++ map (fun line => body (encode_punct_and_digits line))
                           (firstn k (chunk ++ lines))).
Proof.
  induction lines as [|line rest IH]; intros self chunk counter out done
    self' out' Hok Hlay Hlines Hchunk Hout Hf H; cbn [compress_loop] in H.
  - inversion H; subst. exists 0. cbn [firstn map]. now rewrite app_nil_r.
  - inversion Hlines as [|? ? Hl Hrest]; subst.
    destruct line as [|c line].
    { inversion H; subst. exists 0. cbn [firstn map]. now rewrite app_nil_r. }
    assert (Hchunk' : Forall (fun line => ~ In backslash line) (chunk ++ [c :: line])).
    { apply Forall_app. split; [exact Hchunk|]. constructor; [exact Hl|constructor]. }
    destruct (CHUNK_SIZE <=? counter + 1).
    + bind_inv H. destruct a as [self1 pressed]. unfold press in Hm.
      set (window := chunk ++ [c :: line]) in *.
      assert (Hbodies : Forall (fun l => clean (rule_tokens self) (body l))
                               (encode window)).
      { unfold encode. apply Forall_map. eapply Forall_impl; [|exact Hchunk'].
        intros x. apply body_encode_clean. }
      assert (Hfb : Forall2 (fun l b => faithful (_expressions self) (body l) b)
                            (encode window)
                            (map (fun l => body (encode_punct_and_digits l)) window)).
      { unfold encode. clear - Hchunk' Hlay. induction Hchunk' as [|x w Hx Hw IHw];
          [constructor|]. cbn [map]. constructor; [|exact IHw].
        now apply target_faithful. }
      pose proof (press_loop_extends _ _ _ _ _ Hm) as Hext.
      pose proof (press_loop_tokened _ _ _ _ _ Hok (layered_table _ Hlay) Hbodies Hm)
        as [Hok1 [_ Hp1]].
      apply (press_loop_faithful _ _ _ _ _ _ Hok Hlay Hbodies Hfb) in Hm.
      destruct Hm as [Hlay1 Hf1].
      pose proof (extends_tokens _ _ Hext) as Hinc. destruct Hext as [new E].
      apply (IH _ _ _ _ (done ++ map (fun l => body (encode_punct_and_digits l)) window))
        in H; auto.
      * destruct H as [k Hk]. exists (length window + k).
        cbn [app] in Hk. rewrite <- app_assoc, <- map_app in Hk.
        match goal with
        | |- Forall2 _ _ (_ ++ map _ ?l) =>
          replace l with (window ++ firstn k rest); [exact Hk|]
        end.
        symmetry. transitivity (firstn (length window + k) (window ++ rest)).
        -- f_equal. unfold window. now rewrite <- app_assoc.
        -- apply firstn_app_2.
      * apply Forall_app. split; [|exact Hp1].
        eapply Forall_impl; [|exact Hout]. intros x. now apply clean_impl.
      * apply Forall2_app; [|exact Hf1].
        eapply Forall2_with; [|exact Hout|exact Hf].
        intros x b0 Hx Hxb. cbv beta in *. rewrite E. apply faithful_extends; [now rewrite <- E|apply Hx|exact Hxb].
    + apply (IH _ _ _ _ done) in H; auto. destruct H as [k Hk].
      exists k. now rewrite <- app_assoc in Hk.
Qed.

End Faithful2.


Lemma firstn_length_firstn {A : Type} (k : nat) (l : list A) :
  firstn (length (firstn k l)) l = firstn k l.
Proof.
  rewrite length_firstn. destruct (Nat.min_spec k (length l)) as [[_ E]|[H E]];
    rewrite E; [reflexivity|].
  now rewrite firstn_all, firstn_all2.
Qed.

Lemma layered_nil : layered [].
Proof. intros pre e post E. destruct pre; discriminate. Qed.

Lemma faithful_targets (rules : list (text * RegExTuple.t)) (l : list text) :
  forall out,
    Forall2 (faithful rules) out
            (map (fun line => body (encode_punct_and_digits line)) l) ->
    Forall2 (fun line o => decompress rules o = rstrip (abstract_runs line))
            l out.
Proof.
  induction l as [|line l IH]; intros out H; inversion H; subst;
    constructor; auto.
  match goal with Hf : faithful _ _ _ |- _ => destruct Hf as [_ Ef] end.
  rewrite Ef. unfold body, RegExCompressor.split_trailer. cbn [fst].
  now rewrite clean_encoding_abstract.
Qed.

(** X17: the rules undo the compression.  From a well-formed compressor
    with a layered table (a fresh one is), on lines without a backslash,
    when [compress] returns, replacing in a line of the output every token
    by the phrase of its rule, the newest rule first, gives back the line
    of the file it stands for, as [press] received it: with every run of
    class characters replaced by the placeholder and without its trailing
    whitespace.  The lines of the output stand for the first lines of the
    file, in order. *)
Theorem compress_round_trip (fuel : nat) (self : RegExCompressor.t)
  (lines out : list text) (self' : RegExCompressor.t) :
  table_ok self -> layered (RegExCompressor._expressions self) ->
  Forall (fun line => ~ In backslash line) lines ->
  RegExCompressor.compress fuel self lines = Ok (out, self') ->
  Forall2 (fun line o =>
             decompress (RegExCompressor._expressions self') o
             = rstrip (abstract_runs line))
          (firstn (length out) lines) out.
Proof.
  intros Hok Hlay Hall H. unfold RegExCompressor.compress in H.
  bind_inv H. destruct a as [self1 out1]. inversion H; subst. clear H.
  apply (compress_loop_faithful _ _ _ _ _ _ [] _ _ Hok Hlay Hall) in Hm;
    try constructor.
  destruct Hm as [k Hk]. cbn [app] in Hk.
  change (RegExCompressor._expressions (RegExCompressor.with_output self1 out))
    with (RegExCompressor._expressions self1).
  apply faithful_targets in Hk.
  assert (El : firstn (length out) lines = firstn k lines).
  { rewrite <- (Forall2_length Hk). apply firstn_length_firstn. }
  match goal with
  | |- Forall2 _ ?l _ =>
    replace l with (firstn k lines) by (symmetry; exact El)
  end.
  exact Hk.
Qed.

Lemma compress_round_trip_witness :
  exists out self',
    RegExCompressor.compress 4 RegExCompressor.init error_lines = Ok (out, self')
    /\ Forall2 (fun line o =>
                  decompress (RegExCompressor._expressions self') o
                  = rstrip (abstract_runs line))
               (firstn (length out) error_lines) out.
Proof.
  assert (Hall : Forall (fun line => ~ In backslash line) error_lines).
  { apply Forall_forall. intros l Hl. apply repeat_spec in Hl. subst l.
    vm_compute. intuition discriminate. }
  destruct (RegExCompressor.compress 4 RegExCompressor.init error_lines)
    as [[out self']| | |] eqn:E; [|vm_compute in E; discriminate ..].
  exists out, self'. split; [reflexivity|].
  exact (compress_round_trip 4 RegExCompressor.init error_lines out self'
           table_ok_init layered_nil Hall E).
Defined.
